(** * Graph store, hybrid retriever, ingestion pipeline and facade of the
      Vector+Graph native database

    A shallow embedding of [app/graph_engine.py] (class [GraphEngine]) and
    [app/hybrid_logic.py] (class [HybridEngine]), with the parts of
    [networkx.DiGraph], [sqlite3] and [json] that those two classes call;
    and, after them, of [app/ingestion.py] (the handlers and class
    [IngestionPipeline]), [app/vector_engine.py] (class [VectorEngine]),
    [app/core.py] (class [NativeDB]) and the endpoints of [app/main.py],
    with the [str] methods and the regular expressions that they use.  The
    language model of spaCy, the embedding model, the index of LanceDB,
    [ftfy] and the [process] methods of the handlers are collaborators:
    the model takes them as functions.

    Conventions of the embedding.
    - Python [str] is [string]; Python [int] ([depth], [top_k]) is [Z].
    - Python [float] is an instance of the interface [Num]: the development
      reasons about the instance on [Q] (exact arithmetic, no rounding) and
      also runs the same definitions on binary64 ([PrimFloat]).
    - A Python [dict] is a [gmap]; a Python [set] is a [gset].  Iterating a
      [set] of strings follows the hash order of the running interpreter:
      it is a parameter of the model, the class [HashOrder].  The insertion
      order of dictionaries is not tracked, so results about
      [get_neighbors] speak of membership and duplicates, never of order.
    - A method that can raise returns an [outcome]: the state at the moment
      the exception leaves the method is part of it.  A call that leaves
      the state alone returns a [completion], or an [option] when one
      exception only can leave it.
    - What SQLite and LanceDB do with a statement is theirs to decide: that
      a write or a query is carried out or raises is a parameter of the
      model, and so is what a [REAL] column makes of a number. *)

From Stdlib Require Import ZArith QArith Qminmax PrimFloat Sorted Ascii.
From stdpp Require Import gmap strings list sorting.

Local Open Scope Z_scope.
#[local] Set Warnings "-clear-no-such-hyp".

(** ** Values held in node metadata: [Dict[str, Any]] *)

(** [VObject] stands for any Python object that [json.dumps] rejects
    (a [set], a [datetime], ...). *)
#[warnings="-register-all"]
Inductive value : Type :=
  | VNull
  | VBool (b : bool)
  | VInt (z : Z)
  | VStr (s : string)
  | VList (items : list value)
  | VObject (type_name : string).

Abbreviation metadata_t := (gmap string value).

(** ** [app/models.py] *)

Module NodeCreate.
Record t : Type := mk { id : string; text : string; metadata : metadata_t }.
End NodeCreate.

Module EdgeCreate.
Record t (W : Type) : Type :=
  mk { source : string; target : string; type : string; weight : W }.
Arguments mk {W} _ _ _ _.
Arguments source {W} _.
Arguments target {W} _.
Arguments type {W} _.
Arguments weight {W} _.
End EdgeCreate.

(** ** [json.dumps] and [json.loads] on the metadata column

    The column [metadata TEXT] holds [json.dumps(node.metadata)].  The text
    is kept abstractly, by what [json.loads] makes of it: [Encoded m] is
    the text of a JSON object, the one that encodes the dictionary [m];
    [NotObject] is the text of another JSON value (a list, a string, a
    number, [true], [false] or [null]); [Corrupt] is a text that
    [json.loads] rejects. *)

Inductive json_text : Type :=
  | Encoded (m : metadata_t)
  | NotObject (raw : string)
  | Corrupt (raw : string).

(** What [json.loads] returns: a [dict], or a value of another type. *)
Inductive json_value : Type :=
  | JDict (m : metadata_t)
  | JOther (raw : string).

Fixpoint serialisable (v : value) : bool :=
  match v with
  | VList items => forallb serialisable items
  | VObject _ => false
  | _ => true
  end.

(** [None] is the [TypeError] of [json.dumps]. *)
Definition json_dumps (m : metadata_t) : option json_text :=
  if bool_decide (map_Forall (λ _ v, serialisable v = true) m)
  then Some (Encoded m) else None.

(** [None] is the [JSONDecodeError] of [json.loads]. *)
Definition json_loads (t : json_text) : option json_value :=
  match t with
  | Encoded m => Some (JDict m)
  | NotObject raw => Some (JOther raw)
  | Corrupt _ => None
  end.

(** ** Exceptions and outcomes *)

Inductive exn : Type :=
  | TypeError          (* a call that cannot bind [**kwargs], or [json.dumps] *)
  | sqlite3_Error      (* raised by [cursor.execute] or [conn.commit] *)
  | NodeNotFound       (* [nx.single_source_shortest_path_length] *)
  | ValueError         (* a query of LanceDB without a positive limit *)
  | lancedb_Error.     (* raised inside LanceDB or pyarrow, by a write or a query *)

(** What a method call leaves behind: the value it returns, or the
    exception that escapes, in both cases with the state reached. *)
Inductive outcome (S : Type) : Type :=
  | Returned (s : S)
  | Raised (e : exn) (s : S).
Arguments Returned {S} s.
Arguments Raised {S} e s.

(** What a call gives that leaves the state as it was: the value it
    returns, or the exception that escapes. *)
Inductive completion (A : Type) : Type :=
  | Returns (a : A)
  | Raises (e : exn).
Arguments Returns {A} a.
Arguments Raises {A} e.

#[global] Instance completion_fmap : FMap completion := λ A B f c,
  match c with
  | Returns a => Returns (f a)
  | Raises e => Raises e
  end.

(** ** Iteration order of a Python [set] of strings *)

(** [list(s)] and [for x in s] enumerate the elements of [s] once each, in
    an order fixed by the string hashes of the running interpreter.  The
    results below use nothing else about the order. *)
Class HashOrder : Type := {
  set_iter : gset string → list string;
  set_iter_perm : ∀ X, set_iter X ≡ₚ elements X
}.

(** ** The part of [networkx.DiGraph] that the engine calls *)

(** The data dictionary of an edge: every [add_edge] call of the engine
    passes exactly the keywords [type] and [weight]. *)
Module EdgeData.
Record t (W : Type) : Type := mk { type : string; weight : W }.
Arguments mk {W} _ _.
Arguments type {W} _.
Arguments weight {W} _.
End EdgeData.

Module DiGraph.
Section DiGraph.
Context {W : Type}.

Record t : Type := mk {
  _node : gmap string metadata_t;
  _succ : gmap string (gmap string (EdgeData.t W));
  _pred : gmap string (gmap string (EdgeData.t W))
}.

Definition empty : t := mk ∅ ∅ ∅.

(** [n in G] *)
Definition contains (g : t) (n : string) : bool :=
  bool_decide (is_Some (_node g !! n)).

(** [G.add_node(n, **attr)]: a new node starts from an empty attribute
    dictionary; for a node already present the dictionary is updated
    in place ([dict.update]): keys of [attr] are overwritten, the other
    keys stay. *)
Definition add_node (n : string) (attr : metadata_t) (g : t) : t :=
  match _succ g !! n with
  | None =>
      mk (<[n := attr ∪ ∅]> (_node g))
         (<[n := ∅]> (_succ g))
         (<[n := ∅]> (_pred g))
  | Some _ =>
      mk (alter (λ old, attr ∪ old) n (_node g)) (_succ g) (_pred g)
  end.

(** The keywords of [attr] are bound against the signature
    [add_node(self, node_for_adding, **attr)]: a key equal to one of the
    two positional parameter names is a [TypeError] at the call. *)
Definition add_node_binds (attr : metadata_t) : bool :=
  bool_decide (attr !! "self"%string = None ∧
               attr !! "node_for_adding"%string = None).

(** The first half of [add_edge]: an endpoint that is not yet a node
    becomes one, with empty attributes and empty adjacency. *)
Definition ensure_node (n : string) (g : t) : t :=
  match _succ g !! n with
  | None => mk (<[n := ∅]> (_node g)) (<[n := ∅]> (_succ g)) (<[n := ∅]> (_pred g))
  | Some _ => g
  end.

(** [G.add_edge(u, v, type=ty, weight=w)]: one data dictionary per ordered
    pair [(u, v)], shared by [_succ[u][v]] and [_pred[v][u]]; both keywords
    are given, so the update overwrites both entries. *)
Definition add_edge (u v : string) (d : EdgeData.t W) (g : t) : t :=
  let g1 := ensure_node v (ensure_node u g) in
  mk (_node g1)
     (<[u := <[v := d]> (_succ g1 !!! u)]> (_succ g1))
     (<[v := <[u := d]> (_pred g1 !!! v)]> (_pred g1)).

(** [list(G.successors(n))], [list(G.predecessors(n))], for a node [n] of
    the graph: [_succ] and [_pred] have an entry for every node
    ([DiGraph_wf] below), so the lookup finds one. *)
Definition successors (g : t) (n : string) : list string :=
  elements (dom (_succ g !!! n)).
Definition predecessors (g : t) (n : string) : list string :=
  elements (dom (_pred g !!! n)).

(** The data of the edge [u -> v], if there is one. *)
Definition edge_data (g : t) (u v : string) : option (EdgeData.t W) :=
  _succ g !! u ≫= (λ nbrs, nbrs !! v).

(** [(u, v) for u, nbrs in G._adj.items() for v in nbrs] *)
Definition edges (g : t) : list (string * string) :=
  map_to_list (_succ g) ≫= (λ '(u, nbrs), (λ v, (u, v)) <$> elements (dom nbrs)).
End DiGraph.
Arguments t : clear implicits.
End DiGraph.

(** ** [G.to_undirected()] and the breadth-first search of networkx *)

(** The undirected copy keeps, for each node, the set of its neighbours;
    the edge data plays no part in the search and is dropped. *)
Module Graph.
Abbreviation t := (gmap string (gset string)).

Definition ensure_node (n : string) (G : t) : t :=
  match G !! n with None => <[n := ∅]> G | Some _ => G end.

Definition add_edge (u v : string) (G : t) : t :=
  let G1 := ensure_node v (ensure_node u G) in
  let G2 := <[u := {[v]} ∪ (G1 !!! u)]> G1 in
  <[v := {[u]} ∪ (G2 !!! v)]> G2.

(** [adj[v]], enumerated; every node that the search reaches has an
    entry. *)
Definition adj (G : t) (v : string) : list string := elements (G !!! v).
End Graph.

Definition to_undirected {W} (g : DiGraph.t W) : Graph.t :=
  foldl (λ G '(u, v), Graph.add_edge u v G)
        ((λ _, ∅) <$> DiGraph._node g)
        (DiGraph.edges g).

(** [_single_shortest_path_length(adj, firstlevel, cutoff)] of networkx 3:
<<
    seen = set(firstlevel); nextlevel = firstlevel; level = 0; n = len(adj)
    for v in nextlevel: yield (v, level)
    while nextlevel and cutoff > level:
        level += 1; thislevel = nextlevel; nextlevel = []
        for v in thislevel:
            for w in adj[v]:
                if w not in seen:
                    seen.add(w); nextlevel.append(w); yield (w, level)
            if len(seen) == n: return
>>
    The generator's output is the list of yielded pairs; [BFS.state] is the
    triple (seen, nextlevel, yielded so far). *)
Module BFS.
Record state : Type := mk {
  seen : gset string;
  nextlevel : list string;
  yielded : list (string * Z)
}.

(** [for w in adj[v]: ...] *)
Fixpoint scan_adj (ws : list string) (level : Z) (st : state) : state :=
  match ws with
  | [] => st
  | w :: ws' =>
      if decide (w ∈ seen st) then scan_adj ws' level st
      else scan_adj ws' level
             (mk ({[w]} ∪ seen st) (nextlevel st ++ [w]) (yielded st ++ [(w, level)]))
  end.

(** [for v in thislevel: ...]; the boolean tells that [return] fired. *)
Fixpoint scan_level (G : Graph.t) (thislevel : list string) (level : Z)
    (st : state) : state * bool :=
  match thislevel with
  | [] => (st, false)
  | v :: vs =>
      let st1 := scan_adj (Graph.adj G v) level st in
      if decide (size (seen st1) = size G) then (st1, true)
      else scan_level G vs level st1
  end.

(** The [while] loop.  [rounds] is the number of iterations that
    [cutoff > level] still allows: [level] starts at 0 and grows by one
    per iteration, so it is [cutoff - level], or 0 when that is negative. *)
Fixpoint levels (G : Graph.t) (rounds : nat) (level : Z) (st : state) : state :=
  match rounds with
  | O => st
  | S rounds' =>
      match nextlevel st with
      | [] => st
      | thislevel =>
          let '(st1, stop) :=
            scan_level G thislevel (level + 1)
              (mk (seen st) [] (yielded st)) in
          if stop then st1 else levels G rounds' (level + 1) st1
      end
  end.

Definition _single_shortest_path_length (G : Graph.t) (firstlevel : list string)
    (cutoff : Z) : list (string * Z) :=
  yielded (levels G (Z.to_nat cutoff) 0
             (mk (list_to_set firstlevel) firstlevel ((λ v, (v, 0)) <$> firstlevel))).
End BFS.

(** [nx.single_source_shortest_path_length(G, source, cutoff)]: the keys of
    the returned dictionary, in the order they were yielded ([None] is
    [NodeNotFound]). *)
Definition single_source_shortest_path_length (G : Graph.t) (source : string)
    (cutoff : Z) : option (list (string * Z)) :=
  match G !! source with
  | None => None
  | Some _ => Some (BFS._single_shortest_path_length G [source] cutoff)
  end.

(** ** The SQLite file behind [self.conn] *)

(** The column [weight REAL].  SQLite stores a NaN as NULL, and it stores a
    number without fractional part as an integer, which is read back as a
    [REAL]: the sign of a negative zero is lost.  Every other number comes
    back as it was written.  [real_column w] is what a [SELECT] reads from
    a column into which the Python [float] [w] was written; [None] is
    NULL, which Python reads as [None]. *)
Class RealColumn (W : Type) : Type := real_column : W → option W.

(** On exact numbers there is neither a NaN nor a negative zero. *)
#[export] Instance Q_real : RealColumn Q := Some.

#[export] Instance float_real : RealColumn float := λ w,
  if PrimFloat.is_nan w then None
  else if PrimFloat.eqb w 0%float then Some 0%float
  else Some w.

(** Rows are kept in rowid order.  [INSERT OR REPLACE] deletes the row that
    holds the same primary key, if any, and appends the new row. *)
Module Sqlite.
Section Sqlite.
Context {W : Type} {real : RealColumn W}.

Record nodes_row : Type := NodesRow { id : string; metadata : json_text }.
Record edges_row : Type :=
  EdgesRow { source : string; target : string; type : string;
             weight : option W (* a number, or NULL *) }.

Record database : Type := Database {
  nodes : list nodes_row;      (* PRIMARY KEY id *)
  edges : list edges_row       (* PRIMARY KEY (source, target, type) *)
}.

(** The committed contents of the file, and the contents as the
    connection sees them (with the writes of its open transaction). *)
Record connection : Type := Connection {
  committed : database;
  working : database
}.

(** The statements of the engine, with the values bound to their
    placeholders.  The [TEXT] columns keep a [str] as it is, so that the
    values bound to the statement on [nodes] are the row; of the
    statement on [edges] the fourth value is a Python [float]. *)
Inductive statement : Type :=
  | InsertOrReplaceNode (row : nodes_row)
  | InsertOrReplaceEdge (source target type : string) (weight : W)
  | Commit.

Definition same_node_key (r r' : nodes_row) : Prop :=
  id r = id r'.
Definition same_edge_key (r r' : edges_row) : Prop :=
  source r = source r' ∧ target r = target r' ∧ type r = type r'.

#[global] Instance same_node_key_dec r r' : Decision (same_node_key r r').
Proof. unfold same_node_key. apply _. Defined.
#[global] Instance same_edge_key_dec r r' : Decision (same_edge_key r r').
Proof. unfold same_edge_key. apply _. Defined.

Definition insert_or_replace_node (r : nodes_row) (db : database) : database :=
  Database (filter (λ r', ¬ same_node_key r r') (nodes db) ++ [r]) (edges db).
Definition insert_or_replace_edge (r : edges_row) (db : database) : database :=
  Database (nodes db) (filter (λ r', ¬ same_edge_key r r') (edges db) ++ [r]).

Definition run (s : statement) (c : connection) : connection :=
  match s with
  | InsertOrReplaceNode r => Connection (committed c) (insert_or_replace_node r (working c))
  | InsertOrReplaceEdge source target type weight =>
      Connection (committed c)
        (insert_or_replace_edge (EdgesRow source target type (real_column weight))
           (working c))
  | Commit => Connection (working c) (working c)
  end.

(** Whether the storage layer carries a statement out or raises (disk
    full, file locked, ...) is not decided by the program: [accepts] is
    the behaviour of the storage layer during the run. *)
Definition storage : Type := connection → statement → bool.

(** [cursor.execute(...)] and [conn.commit()]; [None] is the exception. *)
Definition execute (accepts : storage) (s : statement) (c : connection)
    : option connection :=
  if accepts c s then Some (run s c) else None.

Definition empty_database : database := Database [] [].

(** [sqlite3.connect(DB_PATH)]: a new connection has no open transaction. *)
Definition connect (db : database) : connection := Connection db db.
Definition fresh : connection := connect empty_database.
Definition reliable : storage := λ _ _, true.
End Sqlite.
Arguments nodes_row : clear implicits.
Arguments edges_row : clear implicits.
Arguments database : clear implicits.
Arguments connection : clear implicits.
Arguments statement : clear implicits.
Arguments storage : clear implicits.
Arguments InsertOrReplaceNode {W} row.
End Sqlite.

(** ** [class GraphEngine] *)

Module GraphEngine.
Section GraphEngine.
Context {W : Type} {real : RealColumn W}.

(** The [weight] attribute of an edge of [self.graph] is the [float] of
    the record that [add_edges] was given, or what start-up read from the
    row of the edge: a [float], or [None] for NULL. *)
Record t : Type := mk {
  graph : DiGraph.t (option W);
  conn : Sqlite.connection W
}.

(** The engine over an empty database file. *)
Definition empty : t := mk DiGraph.empty Sqlite.fresh.

(** *** [_load_graph_from_db] *)

(** [try: meta_dict = json.loads(meta)  except: meta_dict = {}] *)
Definition decode_metadata (text : json_text) : json_value :=
  match json_loads text with Some meta_dict => meta_dict | None => JDict ∅ end.

(** The [try] covers [json.loads] only: [add_node(n_id, **meta_dict)] raises
    a [TypeError] when [meta_dict] is not a mapping, or has a key that
    clashes with a parameter of [add_node]. *)
Fixpoint load_nodes (rows : list (Sqlite.nodes_row)) (g : DiGraph.t (option W))
    : outcome (DiGraph.t (option W)) :=
  match rows with
  | [] => Returned g
  | r :: rows' =>
      match decode_metadata (Sqlite.metadata r) with
      | JOther _ => Raised TypeError g
      | JDict meta_dict =>
          if DiGraph.add_node_binds meta_dict
          then load_nodes rows' (DiGraph.add_node (Sqlite.id r) meta_dict g)
          else Raised TypeError g
      end
  end.

Definition load_edges (rows : list (Sqlite.edges_row W)) (g : DiGraph.t (option W))
    : DiGraph.t (option W) :=
  foldl (λ g r, DiGraph.add_edge (Sqlite.source r) (Sqlite.target r)
                  (EdgeData.mk (Sqlite.type r) (Sqlite.weight r)) g)
        g rows.

Definition _load_graph_from_db (self : t) : outcome t :=
  let db := Sqlite.working (conn self) in
  match load_nodes (Sqlite.nodes db) (graph self) with
  | Raised e g => Raised e (mk g (conn self))
  | Returned g => Returned (mk (load_edges (Sqlite.edges db) g) (conn self))
  end.

(** [__init__] on the database file with contents [db] (a new file has
    the two tables empty once [_init_db] has run). *)
Definition init (db : Sqlite.database W) : outcome t :=
  _load_graph_from_db (mk DiGraph.empty (Sqlite.connect db)).

(** *** [add_nodes] *)

Section Mutation.
Variable accepts : Sqlite.storage W.

(** The body of [for node in nodes]. *)
Fixpoint add_nodes_loop (nodes : list NodeCreate.t) (self : t) : outcome t :=
  match nodes with
  | [] => Returned self
  | node :: rest =>
      (* 1. Update In-Memory Graph *)
      if negb (DiGraph.add_node_binds (NodeCreate.metadata node))
      then Raised TypeError self
      else
        let self1 :=
          mk (DiGraph.add_node (NodeCreate.id node) (NodeCreate.metadata node)
                (graph self))
             (conn self) in
        (* 2. Persist to SQLite *)
        match json_dumps (NodeCreate.metadata node) with
        | None => Raised TypeError self1
        | Some text =>
            match Sqlite.execute accepts
                    (Sqlite.InsertOrReplaceNode
                       (Sqlite.NodesRow (NodeCreate.id node) text))
                    (conn self1) with
            | None => Raised sqlite3_Error self1
            | Some c => add_nodes_loop rest (mk (graph self1) c)
            end
        end
  end.

(** [self.conn.commit()] *)
Definition commit (self : t) : outcome t :=
  match Sqlite.execute accepts Sqlite.Commit (conn self) with
  | None => Raised sqlite3_Error self
  | Some c => Returned (mk (graph self) c)
  end.

Definition add_nodes (nodes : list NodeCreate.t) (self : t) : outcome t :=
  match nodes with
  | [] => Returned self                     (* if not nodes: return *)
  | _ =>
      match add_nodes_loop nodes self with
      | Returned self' => commit self'
      | Raised e self' => Raised e self'
      end
  end.

(** *** [add_edges] *)

Fixpoint add_edges_loop (edges : list (EdgeCreate.t W)) (self : t) : outcome t :=
  match edges with
  | [] => Returned self
  | edge :: rest =>
      (* 1. Update In-Memory Graph *)
      let self1 :=
        mk (DiGraph.add_edge (EdgeCreate.source edge) (EdgeCreate.target edge)
              (EdgeData.mk (EdgeCreate.type edge) (Some (EdgeCreate.weight edge)))
              (graph self))
           (conn self) in
      (* 2. Persist to SQLite *)
      match Sqlite.execute accepts
              (Sqlite.InsertOrReplaceEdge
                 (EdgeCreate.source edge) (EdgeCreate.target edge)
                 (EdgeCreate.type edge) (EdgeCreate.weight edge))
              (conn self1) with
      | None => Raised sqlite3_Error self1
      | Some c => add_edges_loop rest (mk (graph self1) c)
      end
  end.

Definition add_edges (edges : list (EdgeCreate.t W)) (self : t) : outcome t :=
  match edges with
  | [] => Returned self                     (* if not edges: return *)
  | _ =>
      match add_edges_loop edges self with
      | Returned self' => commit self'
      | Raised e self' => Raised e self'
      end
  end.
End Mutation.

(** *** [get_neighbors] *)

(** [None] stands for the [NodeNotFound] of networkx leaving the method. *)
Definition get_neighbors {order : HashOrder} (self : t) (node_id : string) (depth : Z)
    : option (list string) :=
  if negb (DiGraph.contains (graph self) node_id) then Some []
  else if decide (depth = 1) then
    let outgoing := DiGraph.successors (graph self) node_id in
    let incoming := DiGraph.predecessors (graph self) node_id in
    Some (set_iter (list_to_set (outgoing ++ incoming)))
  else
    let undirected_view := to_undirected (graph self) in
    match single_source_shortest_path_length undirected_view node_id depth with
    | None => None
    | Some paths =>
        Some (List.filter (λ n, negb (bool_decide (n = node_id))) (paths.*1))
    end.
End GraphEngine.
Arguments t : clear implicits.
End GraphEngine.

(** ** Python numbers and built-ins used by the retriever *)

(** The operations that [hybrid_search] applies to [float] values. *)
Class Num (F : Type) : Type := {
  num_zero : F;                 (* 0.0, and the int 0 of [v_score > 0] *)
  num_one : F;                  (* 1.0 *)
  num_decay : F;                (* 0.3 *)
  num_add : F → F → F;
  num_mul : F → F → F;
  num_lt : F → F → bool
}.

(** Exact rational arithmetic. *)
#[export] Instance Q_num : Num Q := {
  num_zero := 0%Q;
  num_one := 1%Q;
  num_decay := (3 # 10)%Q;
  num_add := Qplus;
  num_mul := Qmult;
  num_lt := λ x y, negb (Qle_bool y x)
}.

(** IEEE 754 binary64, the [float] of CPython; the decay constant is the
    double nearest to 0.3. *)
#[export] Instance float_num : Num float := {
  num_zero := 0%float;
  num_one := 1%float;
  num_decay := 0x1.3333333333333p-2%float;
  num_add := PrimFloat.add;
  num_mul := PrimFloat.mul;
  num_lt := PrimFloat.ltb
}.

Section Builtins.
Context {F : Type} {num : Num F}.

(** [min(a, b)]: the first argument, unless the second is smaller. *)
Definition py_min (a b : F) : F := if num_lt b a then b else a.

(** [l[:k]] *)
Definition slice_to {A} (l : list A) (k : Z) : list A :=
  if 0 <=? k then take (Z.to_nat k) l
  else take (Z.to_nat (Z.of_nat (length l) + k)) l.

(** [sorted(l, key=key, reverse=True)]: the sort is stable, also when
    reversed.  On keys without NaN every stable sort returns the same
    list; it is computed here by insertion, each element going in front
    of the first element of the sorted tail whose key is not larger. *)
Fixpoint insert_desc {A} (key : A → F) (x : A) (l : list A) : list A :=
  match l with
  | [] => [x]
  | y :: l' =>
      if num_lt (key x) (key y) then y :: insert_desc key x l'
      else x :: y :: l'
  end.

Definition sorted_reverse {A} (key : A → F) (l : list A) : list A :=
  foldr (insert_desc key) [] l.
End Builtins.

(** ** [class HybridEngine] *)

(** An entry of [vector_results]; [hybrid_search] reads the keys [id] and
    [score] only. *)
Module Hit.
Record t (F : Type) : Type := mk { id : string; score : F }.
Arguments mk {F} _ _.
Arguments id {F} _.
Arguments score {F} _.
End Hit.

(** The pieces of the [reason] string, before they are formatted with
    [:.2f] and joined by [" + "]. *)
Inductive reason_part (F : Type) : Type :=
  | Vector (v_score : F)
  | GraphNeighbor (g_score : F).
Arguments Vector {F} v_score.
Arguments GraphNeighbor {F} g_score.

(** An entry of the returned list. *)
Module Candidate.
Record t (F : Type) : Type :=
  mk { id : string; score : F; reason : list (reason_part F) }.
Arguments mk {F} _ _ _.
Arguments id {F} _.
Arguments score {F} _.
Arguments reason {F} _.
End Candidate.

Module HybridEngine.
Section HybridEngine.
Context {F W : Type} {num : Num F} {order : HashOrder}.

(** [self.vec.search(query, limit)]: the similarity collaborator, which
    returns its hits or raises. *)
Definition VectorEngine : Type := string → Z → completion (list (Hit.t F)).

Record t : Type := mk { vec : VectorEngine; graph : GraphEngine.t W }.

(** STEP 1: [scores[res['id']] = res['score'] * vector_weight] *)
Definition vector_scores (vector_weight : F) (vector_results : list (Hit.t F))
    : gmap string F :=
  foldl (λ scores res, <[Hit.id res := num_mul (Hit.score res) vector_weight]> scores)
        ∅ vector_results.

(** STEP 2, inner loop: [for neighbor in neighbors] *)
Definition boost_neighbors (v_res : Hit.t F) (neighbors : list string)
    (graph_boosts : gmap string F) : gmap string F :=
  foldl (λ graph_boosts neighbor,
           let boost := num_mul num_decay (Hit.score v_res) in
           match graph_boosts !! neighbor with
           | Some b => <[neighbor := num_add b boost]> graph_boosts
           | None => <[neighbor := boost]> graph_boosts
           end)
        graph_boosts neighbors.

(** STEP 2, outer loop: [for v_res in vector_results] *)
Fixpoint expand (self : t) (vector_results : list (Hit.t F))
    (graph_boosts : gmap string F) : option (gmap string F) :=
  match vector_results with
  | [] => Some graph_boosts
  | v_res :: rest =>
      match GraphEngine.get_neighbors (graph self) (Hit.id v_res) 1 with
      | None => None
      | Some neighbors => expand self rest (boost_neighbors v_res neighbors graph_boosts)
      end
  end.

(** STEP 3: the entry built for one id. *)
Definition candidate (graph_weight : F) (scores graph_boosts : gmap string F)
    (nid : string) : Candidate.t F :=
  let v_score := default num_zero (scores !! nid) in
  let g_raw := default num_zero (graph_boosts !! nid) in
  let g_score := num_mul (py_min g_raw num_one) graph_weight in
  let final_score := num_add v_score g_score in
  Candidate.mk nid final_score
    ((if num_lt num_zero v_score then [Vector v_score] else []) ++
     (if num_lt num_zero g_score then [GraphNeighbor g_score] else [])).

(** [final_candidates.values()]: one entry per id, in the order in which
    the set [all_ids] is iterated. *)
Definition final_candidates (graph_weight : F) (scores graph_boosts : gmap string F)
    : list (Candidate.t F) :=
  let all_ids := dom scores ∪ dom graph_boosts in
  candidate graph_weight scores graph_boosts <$> set_iter all_ids.

(** An exception of the vector search leaves the method as it is, and so
    would the [NodeNotFound] of [get_neighbors]. *)
Definition hybrid_search (self : t) (query : string)
    (vector_weight graph_weight : F) (top_k : Z) : completion (list (Candidate.t F)) :=
  match vec self query (top_k * 2) with
  | Raises e => Raises e
  | Returns vector_results =>
      let scores := vector_scores vector_weight vector_results in
      match expand self vector_results ∅ with
      | None => Raises NodeNotFound
      | Some graph_boosts =>
          let sorted_results :=
            sorted_reverse Candidate.score
              (final_candidates graph_weight scores graph_boosts) in
          Returns (slice_to sorted_results top_k)
      end
  end.
End HybridEngine.
Arguments t : clear implicits.
Arguments VectorEngine : clear implicits.
End HybridEngine.

(** ** [nx.node_link_data] and [get_subgraph_json] *)

(** [node_link_data(G)] returns the dictionary
<<
    {"directed": G.is_directed(), "multigraph": G.is_multigraph(),
     "graph": G.graph,
     "nodes": [{**G.nodes[n], "id": n} for n in G],
     edges:   [{**d, "source": u, "target": v} for u, v, d in G.edges(data=True)]}
>>
    where [edges] is the name under which the installed networkx files the
    edge list: ["links"] in the older releases, ["edges"] in the newer
    ones.  It is a parameter of the model. *)
Module NodeLink.
Section NodeLink.
Context {W : Type}.

(** A value inside an element of the node list or of the edge list. *)
Inductive field : Type :=
  | Attribute (v : value)     (* a node attribute; an id is [VStr n] *)
  | Number (w : W).           (* the [weight] of an edge *)

(** A value of the returned dictionary. *)
Inductive entry : Type :=
  | Flag (b : bool)
  | GraphAttributes (attr : metadata_t)
  | Elements (l : list (gmap string field)).

(** [{**G.nodes[n], "id": n}] *)
Definition node_element (n : string) (attr : metadata_t) : gmap string field :=
  <["id"%string := Attribute (VStr n)]> (Attribute <$> attr).

(** [{**d, "source": u, "target": v}] with [d = {"type": ty, "weight": w}] *)
Definition edge_element (u v : string) (d : EdgeData.t W) : gmap string field :=
  <["target"%string := Attribute (VStr v)]>
    (<["source"%string := Attribute (VStr u)]>
       (<["weight"%string := Number (EdgeData.weight d)]>
          {[ "type"%string := Attribute (VStr (EdgeData.type d)) ]})).

(** [G.edges(data=True)] *)
Definition edges_data (g : DiGraph.t W) : list (string * string * EdgeData.t W) :=
  map_to_list (DiGraph._succ g) ≫=
    (λ '(u, nbrs), (λ '(v, d), (u, v, d)) <$> map_to_list nbrs).

Definition node_link_data (edges : string) (g : DiGraph.t W) : gmap string entry :=
  let data : gmap string entry :=
    <["nodes"%string :=
        Elements ((λ '(n, attr), node_element n attr) <$> map_to_list (DiGraph._node g))]>
      (<["graph"%string := GraphAttributes ∅]>
         (<["multigraph"%string := Flag false]>
            {[ "directed"%string := Flag true ]})) in
  <[edges := Elements ((λ '(u, v, d), edge_element u v d) <$> edges_data g)]> data.
End NodeLink.
Arguments field : clear implicits.
Arguments entry : clear implicits.

(** An element of the node list or of the edge list. *)
Abbreviation element W := (gmap string (field W)).
End NodeLink.

(** [GraphEngine.get_subgraph_json], on a networkx that files the edge
    list under [edges]:
<<
    data = nx.node_link_data(self.graph)
    if "edges" in data:
        data["links"] = data.pop("edges")
    return data
>> *)
Definition get_subgraph_json {W} (edges : string) (self : GraphEngine.t W)
    : gmap string (NodeLink.entry (option W)) :=
  let data := NodeLink.node_link_data edges (GraphEngine.graph self) in
  match data !! "edges"%string with
  | Some links => <["links"%string := links]> (delete "edges"%string data)
  | None => data
  end.

(** * The ingestion pipeline, the vector store, the facade and the API *)

(** ** The [str] methods and regular expressions of [app/ingestion.py]

    From here on the characters of a [str] matter.  A [str] is a [string]
    whose characters are the code points below 256, one [ascii] each; the
    functions below are those of CPython restricted to that range.  They
    work on the list of characters of the string. *)
Module Text.
Local Open Scope nat_scope.

(** [c.isspace()], which is also the class [\s] of [re]: the code points
    9 to 13, 28 to 32, 133 and 160. *)
Definition isspace (c : ascii) : bool :=
  let n := Ascii.nat_of_ascii c in
  ((9 <=? n) && (n <=? 13)) || ((28 <=? n) && (n <=? 32)) || (n =? 133) || (n =? 160).

(** [c.lower()]: the upper-case letters below 256 are A to Z and the
    code points 192 to 222 except 215. *)
Definition lower_char (c : ascii) : ascii :=
  let n := Ascii.nat_of_ascii c in
  if ((65 <=? n) && (n <=? 90)) || ((192 <=? n) && (n <=? 222) && negb (n =? 215))
  then Ascii.ascii_of_nat (n + 32) else c.

Definition lower (s : list ascii) : list ascii := lower_char <$> s.

(** [s.lstrip()], [s.rstrip()], [s.strip()] *)
Fixpoint lstrip (s : list ascii) : list ascii :=
  match s with
  | c :: s' => if isspace c then lstrip s' else s
  | [] => []
  end.

Definition rstrip (s : list ascii) : list ascii := reverse (lstrip (reverse s)).

Definition strip (s : list ascii) : list ascii := rstrip (lstrip s).

(** [s.split()]: the maximal runs of characters that are not whitespace;
    [word] is the run being read. *)
Fixpoint split_from (word : list ascii) (s : list ascii) : list (list ascii) :=
  match s with
  | [] => match word with [] => [] | _ => [word] end
  | c :: s' =>
      if isspace c
      then match word with [] => split_from [] s' | _ => word :: split_from [] s' end
      else split_from (word ++ [c]) s'
  end.

Definition split (s : list ascii) : list (list ascii) := split_from [] s.

(** [sep.join(words)] *)
Fixpoint join (sep : list ascii) (words : list (list ascii)) : list ascii :=
  match words with
  | [] => []
  | [w] => w
  | w :: ws => w ++ sep ++ join sep ws
  end.

(** [p in s] for strings *)
Fixpoint startswith (p s : list ascii) : bool :=
  match p, s with
  | [], _ => true
  | x :: p', c :: s' => bool_decide (x = c) && startswith p' s'
  | _ :: _, [] => false
  end.

Fixpoint contains (p s : list ascii) : bool :=
  startswith p s || match s with [] => false | _ :: s' => contains p s' end.

Definition endswith (p s : list ascii) : bool := startswith (reverse p) (reverse s).

(** *** [re.sub(pattern, '', s)]

    For a pattern that matches no empty string: the matches are looked for
    from left to right, each search starting where the previous match
    ended, and deleted.  [match_at s] is the length of the match of the
    pattern at the start of [s], if it matches there; [skip] counts the
    characters of the current match that are still to be dropped. *)
Fixpoint delete_matches (match_at : list ascii → option nat) (skip : nat)
    (s : list ascii) : list ascii :=
  match s with
  | [] => []
  | c :: s' =>
      match skip with
      | S k => delete_matches match_at k s'
      | O =>
          match match_at s with
          | Some (S k) => delete_matches match_at k s'
          | _ => c :: delete_matches match_at O s'
          end
      end
  end.

(** The pattern [.*?close], where [.] is any character but the newline and
    the quantifier is lazy: the characters up to the first [close], when no
    newline comes before it. *)
Fixpoint lazy_until (close : ascii) (s : list ascii) : option nat :=
  match s with
  | [] => None
  | c :: s' =>
      if bool_decide (c = close) then Some 1
      else if bool_decide (c = "010"%char) then None
      else S <$> lazy_until close s'
  end.

(** The patterns [\(.*?\)] and [\[.*?\]] *)
Definition enclosed (open close : ascii) (s : list ascii) : option nat :=
  match s with
  | c :: s' => if bool_decide (c = open) then S <$> lazy_until close s' else None
  | [] => None
  end.

(** A literal matched under [re.IGNORECASE]; the rest of the string after
    it. *)
Fixpoint literal_ignorecase (lit s : list ascii) : option (list ascii) :=
  match lit, s with
  | [], _ => Some s
  | x :: lit', c :: s' =>
      if bool_decide (lower_char c = lower_char x) then literal_ignorecase lit' s' else None
  | _ :: _, [] => None
  end.

(** [re.sub(r'^(The|A|An)\s+', '', s, flags=re.IGNORECASE)]: the
    alternatives are tried in this order, each followed by at least one
    whitespace character; the whitespace is taken greedily. *)
Definition determiner (lit : string) (s : list ascii) : option (list ascii) :=
  match literal_ignorecase (String.list_ascii_of_string lit) s with
  | Some (c :: rest) => if isspace c then Some (lstrip rest) else None
  | _ => None
  end.

Definition remove_determiner (s : list ascii) : list ascii :=
  match determiner "The" s with
  | Some rest => rest
  | None =>
      match determiner "A" s with
      | Some rest => rest
      | None =>
          match determiner "An" s with
          | Some rest => rest
          | None => s
          end
      end
  end.
End Text.

(** The characters of a string, and a function on characters applied to a
    string. *)
Abbreviation chars := String.list_ascii_of_string.

Definition on_chars (f : list ascii → list ascii) (s : string) : string :=
  String.string_of_list_ascii (f (chars s)).

(** [len(s)] *)
Definition len (s : string) : nat := length (chars s).


(** ** What the pipeline reads of a spaCy [Doc] *)

(** An entity of [doc.ents]. *)
Module Span.
Record t : Type := mk { text : string; label_ : string }.
End Span.

(** A token with the subtree of its [children].  Of [token.head] the
    pipeline reads the text only. *)
Module Token.
#[warnings="-register-all"]
Inductive t : Type :=
  mk (text lemma_ pos_ dep_ : string) (head : string) (children : list t).

Definition text (token : t) : string := let '(mk x _ _ _ _ _) := token in x.
Definition lemma_ (token : t) : string := let '(mk _ x _ _ _ _) := token in x.
Definition pos_ (token : t) : string := let '(mk _ _ x _ _ _) := token in x.
Definition dep_ (token : t) : string := let '(mk _ _ _ x _ _) := token in x.
Definition head (token : t) : string := let '(mk _ _ _ _ x _) := token in x.
Definition children (token : t) : list t := let '(mk _ _ _ _ _ x) := token in x.
End Token.

(** [for token in doc] enumerates every token of the text, each with its
    subtree. *)
Module Doc.
Record t : Type := mk { ents : list Span.t; tokens : list Token.t }.
End Doc.

(** ** [class Handler], [class HandlerRegistry] and the concrete handlers *)

(** [applies] returns [None] when it raises.  [process] calls into
    trafilatura, [json] or unstructured: it is kept as a function of the
    text. *)
Module Handler.
Record t : Type := mk {
  name : string;
  applies : string → option bool;
  process : string → string
}.
End Handler.

Module HandlerRegistry.
(** [find]: the first handler whose [applies] returns true; a handler
    whose [applies] raises is passed over. *)
Fixpoint find (_handlers : list Handler.t) (text : string) : option Handler.t :=
  match _handlers with
  | [] => None
  | h :: rest =>
      match Handler.applies h text with
      | Some true => Some h
      | _ => find rest text
      end
  end.
End HandlerRegistry.

(** [HTMLHandler.applies] *)
Definition HTMLHandler_applies (text : string) : bool :=
  Text.contains (chars "<") (chars text) && Text.contains (chars ">") (chars text) &&
  (Text.contains (chars "<html") (Text.lower (chars text)) ||
   Text.contains (chars "<div") (Text.lower (chars text))).

(** [JSONHandler.applies] *)
Definition JSONHandler_applies (text : string) : bool :=
  let t := Text.strip (chars text) in
  (Text.startswith (chars "{") t && Text.endswith (chars "}") t) ||
  (Text.startswith (chars "[") t && Text.endswith (chars "]") t).

(** [UnstructuredHandler.applies] *)
Definition UnstructuredHandler_applies (UNSTRUCTURED_AVAILABLE : bool) (text : string)
    : bool :=
  UNSTRUCTURED_AVAILABLE && (50 <? len text)%nat.

(** ** [class IngestionPipeline] *)

Module IngestionPipeline.
Section IngestionPipeline.
Context {F : Type} {num : Num F}.

(** [fix_text] is [ftfy.fix_text], or the identity when ftfy is missing. *)
Variable fix_text : string → string.

Record t : Type := mk {
  nlp : string → Doc.t;
  registry : list Handler.t
}.

(** [__init__]: the HTML handler is registered first, then the JSON
    handler, then the unstructured handler if the library is there. *)
Definition init (nlp : string → Doc.t) (UNSTRUCTURED_AVAILABLE : bool)
    (html json unstructured : string → string) : t :=
  mk nlp
     ([Handler.mk "html" (λ text, Some (HTMLHandler_applies text)) html;
       Handler.mk "json" (λ text, Some (JSONHandler_applies text)) json] ++
      (if UNSTRUCTURED_AVAILABLE
       then [Handler.mk "unstructured"
               (λ text, Some (UnstructuredHandler_applies UNSTRUCTURED_AVAILABLE text))
               unstructured]
       else [])).

Definition preprocess (self : t) (text : string) : string :=
  (* 1. Format Handling *)
  let text :=
    match HandlerRegistry.find (registry self) text with
    | Some handler => Handler.process handler text
    | None => text
    end in
  (* 2. Aggressive Cleaning *)
  let text := fix_text text in
  let text := on_chars (Text.delete_matches (Text.enclosed "["%char "]"%char) 0) text in
  on_chars (λ s, Text.join (chars " ") (Text.split s)) text.

(** [clean_node_id] *)
Definition clean_node_id (text : string) : string :=
  on_chars
    (λ s, Text.strip
            (Text.delete_matches (Text.enclosed "["%char "]"%char) 0
               (Text.delete_matches (Text.enclosed "("%char ")"%char) 0 s)))
    text.

(** [nodes] is the dictionary [Dict[str, NodeCreate]] in insertion order;
    every entry is filed under its own id.  [register] is
    [if key not in nodes: nodes[key] = node]. *)
Definition register (node : NodeCreate.t) (nodes : list NodeCreate.t)
    : list NodeCreate.t :=
  if bool_decide (NodeCreate.id node ∈ NodeCreate.id <$> nodes)
  then nodes else nodes ++ [node].

Definition excluded_labels : list string :=
  ["CARDINAL"; "DATE"; "TIME"; "PERCENT"; "QUANTITY"; "ORDINAL"]%string.

(** The body of [for ent in doc.ents]. *)
Definition add_entity (nodes : list NodeCreate.t) (ent : Span.t) : list NodeCreate.t :=
  if bool_decide (Span.label_ ent ∈ excluded_labels) then nodes
  else
    let e_text := clean_node_id (Span.text ent) in
    if (len e_text <? 2)%nat then nodes
    else
      register
        (NodeCreate.mk e_text (Span.label_ ent +:+ ": " +:+ Span.text ent)
           {[ "label"%string := VStr (Span.label_ ent) ]})
        nodes.

(** [expand_noun_phrase] *)
Fixpoint expand_noun_phrase (token : Token.t) : list Token.t :=
  match token with
  | Token.mk _ _ _ _ _ children =>
      token ::
      (fix extend (children : list Token.t) : list Token.t :=
         match children with
         | [] => []
         | child :: rest =>
             (if bool_decide (Token.dep_ child = "conj"%string)
              then expand_noun_phrase child else []) ++ extend rest
         end) children
  end.

(** The texts of the tokens collected as subjects and as objects of a
    verb. *)
Definition subjects (token : Token.t) : list string :=
  let found :=
    Token.children token ≫= (λ child,
      if bool_decide (Token.dep_ child ∈ ["nsubj"; "csubj"; "nsubjpass"; "csubjpass"]%string)
      then Token.text <$> expand_noun_phrase child else []) in
  match found with
  | [] =>
      (* ACL support *)
      if bool_decide (Token.dep_ token ∈ ["acl"; "relcl"; "advcl"]%string)
      then [Token.head token] else []
  | _ => found
  end.

Definition prepositional_objects (child : Token.t) : list string :=
  Token.children child ≫= (λ grand_child,
    if bool_decide (Token.dep_ grand_child = "pobj"%string)
    then Token.text <$> expand_noun_phrase grand_child else []).

Definition objects (token : Token.t) : list string :=
  Token.children token ≫= (λ child,
    (if bool_decide (Token.dep_ child ∈ ["dobj"; "attr"; "acomp"; "oprd"]%string)
     then Token.text <$> expand_noun_phrase child else []) ++
    (if bool_decide (Token.dep_ child = "prep"%string)
     then prepositional_objects child else []) ++
    (if bool_decide (Token.dep_ child = "agent"%string)
     then prepositional_objects child else [])).

Definition stop_concepts : list string :=
  ["it"; "he"; "she"; "they"; "this"; "that"; "one"; "who"; "which"]%string.

(** The body of [for s_token in subjects: for o_token in objects]. *)
Definition relate (lemma_ : string)
    (state : list NodeCreate.t * list (EdgeCreate.t F)) (s o : string)
    : list NodeCreate.t * list (EdgeCreate.t F) :=
  let '(nodes, edges) := state in
  let s_text := on_chars Text.remove_determiner (clean_node_id s) in
  let o_text := on_chars Text.remove_determiner (clean_node_id o) in
  if (len s_text <? 2)%nat || (len o_text <? 2)%nat then state
  else if bool_decide (on_chars Text.lower s_text ∈ stop_concepts) ||
          bool_decide (on_chars Text.lower o_text ∈ stop_concepts) then state
  else
    let nodes :=
      register (NodeCreate.mk s_text s_text {[ "label"%string := VStr "CONCEPT" ]}) nodes in
    let nodes :=
      register (NodeCreate.mk o_text o_text {[ "label"%string := VStr "CONCEPT" ]}) nodes in
    (nodes, edges ++ [EdgeCreate.mk s_text o_text lemma_ num_one]).

(** The body of [for token in doc]. *)
Definition add_relations (state : list NodeCreate.t * list (EdgeCreate.t F))
    (token : Token.t) : list NodeCreate.t * list (EdgeCreate.t F) :=
  if bool_decide (Token.pos_ token ∈ ["VERB"; "AUX"]%string)
  then
    foldl (λ state s, foldl (λ state o, relate (Token.lemma_ token) state s o)
                        state (objects token))
          state (subjects token)
  else state.

Definition extract_structured_data (self : t) (text : string)
    : list NodeCreate.t * list (EdgeCreate.t F) :=
  let cleaned_text := preprocess self text in
  let doc := nlp self cleaned_text in
  let nodes := foldl add_entity [] (Doc.ents doc) in
  foldl add_relations (nodes, []) (Doc.tokens doc).
End IngestionPipeline.
End IngestionPipeline.


(** ** [class VectorEngine] *)

(** The embedding model and LanceDB are collaborators.  [embed_text] is
    [self.model.encode(text).tolist()].  [takes table data] tells whether
    LanceDB takes the rows [data] into the table ([create_table] when there
    is none, [table.add] otherwise) or raises: pyarrow fits the rows to one
    schema and rejects those that do not fit, a [label] that is not a
    string among them.  A write that raises leaves the table as it was.
    [nearest rows v limit] is what
    [self.table.search(v).metric("cosine").limit(limit).to_pandas()] gives
    for a positive [limit] on a table with the rows [rows], each row with
    its [_distance]; [None] is an exception of the query. *)
Module VectorEngine.
Section VectorEngine.
Context {F V : Type}.

Record row : Type := Row {
  id : string;
  text : string;
  vector : V;
  label : value;
  metadata : json_text
}.

(** [self.table]: [None] until the first insert creates the table. *)
Record t : Type := mk { table : option (list row) }.

(** An entry of the list that [search] returns. *)
Record result : Type := Result {
  result_id : string;
  result_text : string;
  score : F;
  result_metadata : json_value
}.

Variable embed_text : string → V.
Variable takes : option (list row) → list row → bool.
Variable nearest : list row → V → Z → option (list (row * F)).
(** [1 - row["_distance"]] *)
Variable similarity : F → F.

(** The body of [for node in nodes]: [None] is the [TypeError] of
    [json.dumps]. *)
Definition to_row (node : NodeCreate.t) : option row :=
  let vector := embed_text (NodeCreate.text node) in
  match json_dumps (NodeCreate.metadata node) with
  | None => None
  | Some text =>
      Some (Row (NodeCreate.id node) (NodeCreate.text node) vector
              (default (VStr "CONCEPT") (NodeCreate.metadata node !! "label"%string))
              text)
  end.

Definition add_nodes (nodes : list NodeCreate.t) (self : t) : outcome t :=
  match nodes with
  | [] => Returned self                     (* if not nodes: return *)
  | _ =>
      match mapM to_row nodes with
      | None => Raised TypeError self
      | Some data_to_insert =>
          if takes (table self) data_to_insert then
            match table self with
            | None => Returned (mk (Some data_to_insert))
            | Some rows => Returned (mk (Some (rows ++ data_to_insert)))
            end
          else Raised lancedb_Error self
      end
  end.

(** [.limit(limit)] raises a [ValueError] unless [limit] is positive. *)
Definition search (query_text : string) (limit : Z) (self : t)
    : completion (list result) :=
  match table self with
  | None => Returns []                      (* if self.table is None: return [] *)
  | Some rows =>
      let query_vector := embed_text query_text in
      if limit <=? 0 then Raises ValueError
      else
        match nearest rows query_vector limit with
        | None => Raises lancedb_Error
        | Some results =>
            Returns
              ((λ '(row, _distance),
                  Result (id row) (text row) (similarity _distance)
                    (GraphEngine.decode_metadata (metadata row)))
               <$> results)
        end
  end.
End VectorEngine.
Arguments row : clear implicits.
Arguments t : clear implicits.
Arguments result : clear implicits.
End VectorEngine.

(** ** [class NativeDB] of [app/core.py] *)

(** The literal [0.5], the default of both weights of [hybrid_search]. *)
Class HalfLiteral (F : Type) : Type := num_half : F.

#[export] Instance Q_half : HalfLiteral Q := (1 # 2)%Q.
#[export] Instance float_half : HalfLiteral float := 0.5%float.

(** What a call leaves behind when it returns a value: the value and the
    state, or the exception and the state. *)
Inductive reply (R S : Type) : Type :=
  | Reply (r : R) (s : S)
  | Failed (e : exn) (s : S).
Arguments Reply {R S} r s.
Arguments Failed {R S} e s.

Module NativeDB.
Section NativeDB.
Context {F V : Type} {num : Num F} {half : HalfLiteral F} {order : HashOrder}.
Context {real : RealColumn F}.

Variable fix_text : string → string.
Variable embed_text : string → V.
Variable takes : option (list (VectorEngine.row V)) → list (VectorEngine.row V) → bool.
Variable nearest :
  list (VectorEngine.row V) → V → Z → option (list (VectorEngine.row V * F)).
Variable similarity : F → F.
(** The behaviour of the storage layer under the graph engine. *)
Variable accepts : Sqlite.storage F.

(** [self.hybrid_engine] holds the two engines themselves, not copies:
    it is the view [hybrid_engine] of the current state. *)
Record t : Type := mk {
  ingestion : IngestionPipeline.t;
  vector_db : VectorEngine.t V;
  graph_db : GraphEngine.t F
}.

Definition hybrid_engine (self : t) : HybridEngine.t F F :=
  HybridEngine.mk
    (λ query limit,
       match VectorEngine.search embed_text nearest similarity query limit
               (vector_db self) with
       | Returns results =>
           Returns ((λ r, Hit.mk (VectorEngine.result_id r) (VectorEngine.score r))
                    <$> results)
       | Raises e => Raises e
       end)
    (graph_db self).

(** The dictionary that [ingest] returns. *)
Inductive ingest_result : Type :=
  | Ignored                                       (* status "ignored" *)
  | Success (nodes_count edges_count : nat).      (* status "success" *)

(** [for node in nodes: node.metadata.update(source_metadata)] *)
Definition enrich (source_metadata : option metadata_t) (nodes : list NodeCreate.t)
    : list NodeCreate.t :=
  match source_metadata with
  | None => nodes
  | Some m =>
      if decide (m = ∅) then nodes
      else (λ node, NodeCreate.mk (NodeCreate.id node) (NodeCreate.text node)
                      (m ∪ NodeCreate.metadata node)) <$> nodes
  end.

Definition ingest (raw_text : string) (source_metadata : option metadata_t) (self : t)
    : reply ingest_result t :=
  if decide (Text.strip (chars raw_text) = []) then Reply Ignored self
  else
    (* Step 1: Extract Structure *)
    let '(nodes, edges) :=
      IngestionPipeline.extract_structured_data fix_text (ingestion self) raw_text in
    let nodes := enrich source_metadata nodes in
    (* Step 2: Store in Vector DB *)
    match VectorEngine.add_nodes embed_text takes nodes (vector_db self) with
    | Raised e v => Failed e (mk (ingestion self) v (graph_db self))
    | Returned v =>
        (* Step 3: Store in Graph DB *)
        match GraphEngine.add_nodes accepts nodes (graph_db self) with
        | Raised e g => Failed e (mk (ingestion self) v g)
        | Returned g =>
            match GraphEngine.add_edges accepts edges g with
            | Raised e g' => Failed e (mk (ingestion self) v g')
            | Returned g' =>
                Reply (Success (length nodes) (length edges)) (mk (ingestion self) v g')
            end
        end
    end.

(** What [search] returns: the list of [VectorEngine.search] in mode
    ["vector"], the list of [hybrid_search] otherwise. *)
Inductive search_results : Type :=
  | VectorResults (l : list (VectorEngine.result F))
  | FusedResults (l : list (Candidate.t F)).

Definition search (query mode : string) (top_k : Z) (self : t)
    : completion search_results :=
  if decide (mode = "vector"%string) then
    VectorResults <$>
      VectorEngine.search embed_text nearest similarity query top_k (vector_db self)
  else if decide (mode = "graph"%string) then
    FusedResults <$>
      HybridEngine.hybrid_search (hybrid_engine self) query num_zero num_one top_k
  else
    FusedResults <$>
      HybridEngine.hybrid_search (hybrid_engine self) query num_half num_half top_k.

(** [get_graph_viz] *)
Definition get_graph_viz (edges : string) (self : t)
    : gmap string (NodeLink.entry (option F)) :=
  get_subgraph_json edges (graph_db self).
End NativeDB.
Arguments t : clear implicits.
Arguments search_results : clear implicits.
End NativeDB.

(** ** The endpoints of [app/main.py] *)

(** What a request is answered with: the body with status 200, or the
    error response that FastAPI builds from an [HTTPException]. *)
Inductive response (B : Type) : Type :=
  | OK (body : B)
  | HTTPError (status_code : Z) (detail : string).
Arguments OK {B} body.
Arguments HTTPError {B} status_code detail.

(** What a handler body can raise. *)
Inductive raised : Type :=
  | HTTPException (status_code : Z) (detail : string)
  | OtherException (e : exn).

Module API.
Section API.
Context {F V : Type} {num : Num F} {half : HalfLiteral F} {order : HashOrder}.
Context {real : RealColumn F}.

Variable fix_text : string → string.
Variable embed_text : string → V.
Variable takes : option (list (VectorEngine.row V)) → list (VectorEngine.row V) → bool.
Variable nearest :
  list (VectorEngine.row V) → V → Z → option (list (VectorEngine.row V * F)).
Variable similarity : F → F.
Variable accepts : Sqlite.storage F.
(** [str(e)] *)
Variable str : raised → string.

(** [IngestRequest] *)
Record IngestRequest : Type := mk_IngestRequest {
  text : string;
  metadata : metadata_t
}.

(** [ingest_data]:
<<
    try:
        if not payload.text.strip():
            raise HTTPException(status_code=400, detail="Text cannot be empty")
        result = db.ingest(payload.text, source_metadata=payload.metadata)
        return result
    except Exception as e:
        raise HTTPException(status_code=500, detail=str(e))
>>
    [HTTPException] is an [Exception]: the handler catches the one it
    raises itself. *)
Definition ingest_data (payload : IngestRequest) (db : NativeDB.t F V)
    : response NativeDB.ingest_result * NativeDB.t F V :=
  let attempt : (NativeDB.ingest_result + raised) * NativeDB.t F V :=
    if decide (Text.strip (chars (text payload)) = [])
    then (inr (HTTPException 400 "Text cannot be empty"), db)
    else
      match NativeDB.ingest fix_text embed_text takes accepts (text payload)
              (Some (metadata payload)) db with
      | Reply result db' => (inl result, db')
      | Failed e db' => (inr (OtherException e), db')
      end in
  match attempt with
  | (inl result, db') => (OK result, db')
  | (inr e, db') => (HTTPError 500 (str e), db')
  end.

(** [SearchRequest] and the body of the answer of [search_data]. *)
Record SearchRequest : Type := mk_SearchRequest {
  query : string;
  top_k : Z;
  mode : string
}.

Record SearchResponse : Type := mk_SearchResponse {
  count : nat;
  results : NativeDB.search_results F;
  response_mode : string
}.

Definition results_length (r : NativeDB.search_results F) : nat :=
  match r with
  | NativeDB.VectorResults l => length l
  | NativeDB.FusedResults l => length l
  end.

(** [search_data]:
<<
    try:
        results = db.search(payload.query, mode=payload.mode, top_k=payload.top_k)
        return {"count": len(results), "results": results, "mode": payload.mode}
    except Exception as e:
        raise HTTPException(status_code=500, detail=str(e))
>> *)
Definition search_data (payload : SearchRequest) (db : NativeDB.t F V)
    : response SearchResponse :=
  match NativeDB.search embed_text nearest similarity
          (query payload) (mode payload) (top_k payload) db with
  | Returns results =>
      OK (mk_SearchResponse (results_length results) results (mode payload))
  | Raises e => HTTPError 500 (str (OtherException e))
  end.
End API.
End API.

(** * Vocabulary of the properties *)

(** ** Invariants of the graph, of the tables and of the engine *)

Section GraphVocabulary.
Context {W : Type}.
Implicit Types (g : DiGraph.t W) (u v : string).

(** networkx keeps the three dictionaries of a [DiGraph] on the same
    keys. *)
Definition DiGraph_wf g : Prop :=
  dom (DiGraph._succ g) = dom (DiGraph._node g) ∧
  dom (DiGraph._pred g) = dom (DiGraph._node g).

(** [_pred] is [_succ] read backwards: the two share the data
    dictionaries. *)
Definition pred_data g v u : option (EdgeData.t W) :=
  DiGraph._pred g !! v ≫= (λ nbrs, nbrs !! u).

Definition DiGraph_mirror g : Prop :=
  ∀ u v, pred_data g v u = DiGraph.edge_data g u v.
End GraphVocabulary.

Section Vocabulary.
Context {W : Type} {real : RealColumn W}.
Implicit Types (g : DiGraph.t (option W)) (db : Sqlite.database W).
Implicit Types (self mid : GraphEngine.t W) (accepts : Sqlite.storage W).
Implicit Types (n u v s t : string).

(** The ids of the [nodes] table, and the ids that occur as [source] or
    [target] of a row of the [edges] table. *)
Definition node_ids db : list string := Sqlite.id <$> Sqlite.nodes db.

Definition endpoints db : list string :=
  Sqlite.edges db ≫= (λ r, [Sqlite.source r; Sqlite.target r]).

(** The type and weight of the row written last among the rows from [s]
    to [t]. *)
Definition last_edge (rows : list (Sqlite.edges_row W)) s t
    : option (EdgeData.t (option W)) :=
  (λ r, EdgeData.mk (Sqlite.type r) (Sqlite.weight r)) <$>
  last (filter (λ r, Sqlite.source r = s ∧ Sqlite.target r = t) rows).

(** The graph [g] follows the tables of [db]: its nodes are the ids of the
    [nodes] table together with the endpoints of the [edges] table, and
    from [s] to [t] it has the edge written last among the rows from [s] to
    [t], whatever their type. *)
Record follows (g : DiGraph.t (option W)) (db : Sqlite.database W) : Prop := {
  follows_wf : DiGraph_wf g;
  follows_pred : DiGraph_mirror g;
  follows_nodes : ∀ n,
    n ∈ dom (DiGraph._node g) ↔ n ∈ node_ids db ∨ n ∈ endpoints db;
  follows_edges : ∀ s t,
    DiGraph.edge_data g s t = last_edge (Sqlite.edges db) s t
}.

(** The in-memory graph of the engine follows the rows that its
    connection sees. *)
Definition mirrored self : Prop :=
  follows (GraphEngine.graph self) (Sqlite.working (GraphEngine.conn self)).

(** ... and nothing is left uncommitted. *)
Definition consistent self : Prop :=
  mirrored self ∧
  Sqlite.committed (GraphEngine.conn self) = Sqlite.working (GraphEngine.conn self).

(** A weight that the [REAL] column gives back as it was written: every
    number but a NaN and the negative zero. *)
Definition kept (w : W) : Prop := real_column w = Some w.

(** A sequence of calls of the two mutating methods; it stops at the
    first call that raises. *)
Inductive operation : Type :=
  | AddNodes (nodes : list NodeCreate.t)
  | AddEdges (edges : list (EdgeCreate.t W)).

Definition call accepts (op : operation) self : outcome (GraphEngine.t W) :=
  match op with
  | AddNodes nodes => GraphEngine.add_nodes accepts nodes self
  | AddEdges edges => GraphEngine.add_edges accepts edges self
  end.

Fixpoint run accepts (ops : list operation) self : outcome (GraphEngine.t W) :=
  match ops with
  | [] => Returned self
  | op :: ops' =>
      match call accepts op self with
      | Returned self' => run accepts ops' self'
      | Raised e self' => Raised e self'
      end
  end.

(** The calls of a sequence pass no weight that the column would alter. *)
Definition weights_kept (ops : list operation) : Prop :=
  ∀ edges edge, AddEdges edges ∈ ops → edge ∈ edges → kept (EdgeCreate.weight edge).

(** The row written for a record. *)
Definition edge_row (edge : EdgeCreate.t W) : Sqlite.edges_row W :=
  Sqlite.EdgesRow (EdgeCreate.source edge) (EdgeCreate.target edge)
    (EdgeCreate.type edge) (real_column (EdgeCreate.weight edge)).



(** The primary keys held by the [edges] table. *)
Definition edge_keys (db : Sqlite.database W) : list (string * string * string) :=
  (λ r, (Sqlite.source r, Sqlite.target r, Sqlite.type r)) <$> Sqlite.edges db.

End Vocabulary.

(** ** Storage layers, hash orders and the concrete scenarios *)

(** A hash order: the enumeration of the set implementation itself. *)
#[export] Instance canonical_order : HashOrder :=
  {| set_iter := elements; set_iter_perm := λ X, reflexivity (elements X) |}.


(** A storage layer that refuses the rows of node ["b"] and of edges that
    start at ["b"], and carries out everything else. *)
Definition refusing_b {W} : Sqlite.storage W := λ _ stmt,
  match stmt with
  | Sqlite.InsertOrReplaceNode r => negb (bool_decide (Sqlite.id r = "b"%string))
  | Sqlite.InsertOrReplaceEdge source _ _ _ => negb (bool_decide (source = "b"%string))
  | Sqlite.Commit => true
  end.

Definition edge_A_B : EdgeCreate.t Q := EdgeCreate.mk "A" "B" "creates" 1%Q.

Definition edge_A_A : EdgeCreate.t Q := EdgeCreate.mk "A" "A" "refers_to" 1%Q.

(** The engine after [add_edges([A -creates-> B])] on an empty database. *)
Definition engine_A_B : GraphEngine.t Q := Eval vm_compute in
  match GraphEngine.add_edges Sqlite.reliable [edge_A_B] GraphEngine.empty with
  | Returned self | Raised _ self => self
  end.

(** The engine after [add_edges([A -refers_to-> A])] on an empty database. *)
Definition engine_A_A : GraphEngine.t Q := Eval vm_compute in
  match GraphEngine.add_edges Sqlite.reliable [edge_A_A] GraphEngine.empty with
  | Returned self | Raised _ self => self
  end.

(** The edge A -> B with a NaN for weight, on binary64 numbers, and the
    engine after [add_edges] has stored it. *)
Definition edge_A_B_nan : EdgeCreate.t float := EdgeCreate.mk "A" "B" "creates" PrimFloat.nan.

Definition engine_A_B_nan : GraphEngine.t float := Eval vm_compute in
  match GraphEngine.add_edges Sqlite.reliable [edge_A_B_nan] GraphEngine.empty with
  | Returned self | Raised _ self => self
  end.

(** Two upserts of the node ["n"], with metadata [{"a": 1}] and then
    [{"b": 2}], and the engine after each. *)
Definition upsert_first : NodeCreate.t :=
  NodeCreate.mk "n" "first" {[ "a"%string := VInt 1 ]}.

Definition upsert_second : NodeCreate.t :=
  NodeCreate.mk "n" "second" {[ "b"%string := VInt 2 ]}.

Definition engine_upsert_1 : GraphEngine.t Q := Eval vm_compute in
  match GraphEngine.add_nodes Sqlite.reliable [upsert_first] GraphEngine.empty with
  | Returned self | Raised _ self => self
  end.

Definition engine_upsert_2 : GraphEngine.t Q := Eval vm_compute in
  match GraphEngine.add_nodes Sqlite.reliable [upsert_second] engine_upsert_1 with
  | Returned self | Raised _ self => self
  end.

(** The equivalence of the two copies as the specification words it: the
    same node ids, with the same metadata, and the same (source, target,
    type) edges with the same weights. *)
Definition same_contents {W} (self : GraphEngine.t W) : Prop :=
  let g := GraphEngine.graph self in
  let db := Sqlite.committed (GraphEngine.conn self) in
  (∀ n, n ∈ dom (DiGraph._node g) ↔ n ∈ node_ids db) ∧
  (∀ n m, DiGraph._node g !! n = Some m ↔
          ∃ row, row ∈ Sqlite.nodes db ∧ Sqlite.id row = n ∧
                 json_loads (Sqlite.metadata row) = Some (JDict m)) ∧
  (∀ s t ty w, DiGraph.edge_data g s t = Some (EdgeData.mk ty w) ↔
               Sqlite.EdgesRow s t ty w ∈ Sqlite.edges db).

Definition engine_after_calls : GraphEngine.t Q := Eval vm_compute in
  match run Sqlite.reliable
          [AddNodes [NodeCreate.mk "A" "Ada" {[ "label"%string := VStr "PERSON" ]}];
           AddEdges [edge_A_B; EdgeCreate.mk "A" "B" "admires" (1 # 2)%Q]]
          GraphEngine.empty with
  | Returned self | Raised _ self => self
  end.

(** Batches for the concrete runs of C4: the storage layer [refusing_b]
    takes the rows of ["a"] and refuses those of ["b"]. *)
Definition node_a : NodeCreate.t := NodeCreate.mk "a" "alpha" ∅.

Definition node_b : NodeCreate.t := NodeCreate.mk "b" "beta" ∅.

Definition node_c : NodeCreate.t := NodeCreate.mk "c" "gamma" ∅.

Definition edge_a_b : EdgeCreate.t Q := EdgeCreate.mk "a" "b" "knows" 1%Q.

Definition edge_b_c : EdgeCreate.t Q := EdgeCreate.mk "b" "c" "knows" 1%Q.






(** What [scan_adj] has seen is what it has yielded, and it sees all the
    neighbours it is given. *)
Definition seen_is_yielded (st : BFS.state) : Prop :=
  ∀ x, x ∈ BFS.seen st ↔ x ∈ (BFS.yielded st).*1.

(** [a] may stand before [b] in a list sorted by decreasing key. *)
Definition descending {A : Type} (key : A → Q) (a b : A) : Prop :=
  (key b <= key a)%Q.

(** A hash order under which a set of strings is enumerated from the
    lexically largest id down to the smallest. *)
Definition id_ge (a b : string) : Prop := String.leb b a = true.

#[global] Instance id_ge_dec a b : Decision (id_ge a b).
Proof. unfold id_ge. apply _. Defined.

Definition largest_id_first : HashOrder :=
  {| set_iter := λ X, merge_sort id_ge (elements X);
     set_iter_perm := λ X, merge_sort_Permutation id_ge (elements X) |}.

(** The tie-break as the specification words it: of two entries with equal
    score the one listed first has the lexically smaller id. *)
Definition ties_by_ascending_id (l : list (Candidate.t Q)) : Prop :=
  ∀ (i j : nat) a b,
    (i < j)%nat → l !! i = Some a → l !! j = Some b →
    (Candidate.score a == Candidate.score b)%Q →
    String.ltb (Candidate.id a) (Candidate.id b) = true.

(** The collaborator returns A and B with the same similarity; the graph
    has no edge. *)
Definition engine_tie : HybridEngine.t Q Q :=
  HybridEngine.mk (λ _ _, Returns [Hit.mk "A" (1 # 2)%Q; Hit.mk "B" (1 # 2)%Q])
    GraphEngine.empty.

(** The list that a search returned; no entry when it raised. *)
Definition returned {A} (c : completion (list A)) : list A :=
  match c with Returns l => l | Raises _ => [] end.

Definition result_tie : list (Candidate.t Q) := Eval vm_compute in
  returned (HybridEngine.hybrid_search (order := largest_id_first)
              engine_tie "q" 1%Q 0%Q 2).

(** The graph has the edge A -> B and the collaborator knows A only. *)
Definition engine_one_anchor : HybridEngine.t Q Q :=
  HybridEngine.mk (λ _ _, Returns [Hit.mk "A" (9 # 10)%Q]) engine_A_B.

Definition result_one_anchor : list (Candidate.t Q) := Eval vm_compute in
  returned (HybridEngine.hybrid_search engine_one_anchor "q" 1%Q 0%Q 2).

(** The collaborator returns the anchors A and C; the graph has the edge
    A -> B, so that B is a candidate that the collaborator did not
    return. *)
Definition engine_two_anchors : HybridEngine.t Q Q :=
  HybridEngine.mk (λ _ _, Returns [Hit.mk "A" (9 # 10)%Q; Hit.mk "C" (7 # 10)%Q])
    engine_A_B.

(** The graph has the one edge A -> B of type "creates"; the collaborator
    returns A with similarity 0.9 and B with similarity 0.4. *)
Definition engine_worked_example : HybridEngine.t Q Q :=
  HybridEngine.mk (λ _ _, Returns [Hit.mk "A" (9 # 10)%Q; Hit.mk "B" (4 # 10)%Q])
    engine_A_B.

(** The list that the specification expects: A with 0.45, then B with
    0.335. *)
Definition is_specified_ranking (result : completion (list (Candidate.t Q))) : Prop :=
  ∃ a b, result = Returns [a; b] ∧
    Candidate.id a = "A"%string ∧ (Candidate.score a == 45 # 100)%Q ∧
    Candidate.id b = "B"%string ∧ (Candidate.score b == 335 # 1000)%Q.

(** The same scenario on binary64 numbers. *)
Definition engine_worked_example_binary64 : HybridEngine.t float float :=
  HybridEngine.mk
    (λ _ _, Returns [Hit.mk "A" 0x1.ccccccccccccdp-1%float;     (* 0.9 *)
                     Hit.mk "B" 0x1.999999999999ap-2%float])    (* 0.4 *)
    (match GraphEngine.add_edges Sqlite.reliable
             [EdgeCreate.mk "A" "B" "creates" 1%float] GraphEngine.empty with
     | Returned self | Raised _ self => self
     end).

(** ** Walks, and what the breadth-first search maintains *)

(** [hops G n k x]: [x] is reached from [n] by [k] steps along the
    adjacency of the undirected copy [G]. *)
Inductive hops (G : Graph.t) (n : string) : nat → string → Prop :=
  | hops_start : hops G n 0 n
  | hops_step k v w : hops G n k v → w ∈ G !!! v → hops G n (S k) w.

(** Every neighbour recorded in [G] has an entry of its own. *)
Definition Graph_closed (G : Graph.t) : Prop :=
  ∀ u v, v ∈ G !!! u → is_Some (G !! v).

(** The state of the search after level [k], [prev] being the nodes of
    the levels below [k]. *)
Record bfs_inv (G : Graph.t) (n : string) (k : nat) (prev : gset string)
    (st : BFS.state) : Prop := {
  inv_seen : ∀ x, x ∈ BFS.seen st ↔ ∃ j, (j ≤ k)%nat ∧ hops G n j x;
  inv_prev : ∀ x, x ∈ prev ↔ ∃ j, (j < k)%nat ∧ hops G n j x;
  inv_frontier : ∀ x, x ∈ BFS.seen st → x ∉ prev → x ∈ BFS.nextlevel st;
  inv_frontier_seen : ∀ x, x ∈ BFS.nextlevel st → x ∈ BFS.seen st;
  inv_yielded : seen_is_yielded st;
  inv_nodup : NoDup (BFS.yielded st).*1;
  inv_nodes : ∀ x, x ∈ BFS.seen st → is_Some (G !! x)
}.

(** [walk g n k x]: [x] is reached from [n] by [k] edges of the directed
    graph [g], each followed in either direction. *)
Inductive walk {W} (g : DiGraph.t W) (n : string) : nat → string → Prop :=
  | walk_start : walk g n 0 n
  | walk_step k v w :
      walk g n k v →
      is_Some (DiGraph.edge_data g v w) ∨ is_Some (DiGraph.edge_data g w v) →
      walk g n (S k) w.

(** ** Rows that start-up can load *)

(** A text of the [metadata] column that start-up can load: it is not
    the text of a JSON value other than an object, and the dictionary it
    decodes to (the empty one for a text that [json.loads] rejects) has no
    key that clashes with a parameter of [add_node]. *)
Definition binds (text : json_text) : Prop :=
  ∃ meta_dict, GraphEngine.decode_metadata text = JDict meta_dict ∧
               DiGraph.add_node_binds meta_dict = true.

Definition rows_bind {W} (db : Sqlite.database W) : Prop :=
  Forall (λ r, binds (Sqlite.metadata r)) (Sqlite.nodes db).

(** The primary key of a row of the [edges] table, the key under which a
    record is written, and the pair under which the in-memory graph files
    it. *)
Definition edge_key {W} (r : Sqlite.edges_row W) : string * string * string :=
  (Sqlite.source r, Sqlite.target r, Sqlite.type r).

Definition create_key {W} (e : EdgeCreate.t W) : string * string * string :=
  (EdgeCreate.source e, EdgeCreate.target e, EdgeCreate.type e).

Definition create_pair {W} (e : EdgeCreate.t W) : string * string :=
  (EdgeCreate.source e, EdgeCreate.target e).

(** ** More scenarios *)

(** The engine after [add_edges([a -> b, b -> c])] on an empty database. *)
Definition engine_chain : GraphEngine.t Q := Eval vm_compute in
  match run Sqlite.reliable [AddEdges [edge_a_b; edge_b_c]] GraphEngine.empty with
  | Returned self | Raised _ self => self
  end.

(** A database file whose second row holds a text that [json.loads]
    rejects. *)
Definition database_with_corrupt_row : Sqlite.database Q :=
  Sqlite.Database
    [Sqlite.NodesRow "a" (Encoded {[ "label"%string := VStr "PERSON" ]});
     Sqlite.NodesRow "b" (Corrupt "{oops")]
    [].

(** A database file whose second row holds the text of a JSON list. *)
Definition database_with_list_row : Sqlite.database Q :=
  Sqlite.Database
    [Sqlite.NodesRow "a" (Encoded {[ "label"%string := VStr "PERSON" ]});
     Sqlite.NodesRow "b" (NotObject "[1, 2]")]
    [].

(** The edge A -> B of type "creates" written again with another weight,
    and the engine after it. *)
Definition edge_A_B_again : EdgeCreate.t Q := EdgeCreate.mk "A" "B" "creates" (9 # 10)%Q.

Definition engine_A_B_again : GraphEngine.t Q := Eval vm_compute in
  match GraphEngine.add_edges Sqlite.reliable [edge_A_B_again] engine_A_B with
  | Returned self | Raised _ self => self
  end.

(** The engine in which [add_nodes([a, b, c])] leaves the store when the
    storage layer refuses the row of ["b"], and the engine after a later
    [add_nodes([c])] that goes through. *)
Definition engine_failed_batch : GraphEngine.t Q := Eval vm_compute in
  match GraphEngine.add_nodes refusing_b [node_a; node_b; node_c] GraphEngine.empty with
  | Returned self | Raised _ self => self
  end.

Definition engine_after_failed_batch : GraphEngine.t Q := Eval vm_compute in
  match GraphEngine.add_nodes refusing_b [node_c] engine_failed_batch with
  | Returned self | Raised _ self => self
  end.

(** ** The retriever: boosts and scores *)

(** [get_neighbors(node_id, depth=1)] as the retriever reads it. *)
Definition neighbors_1 {order : HashOrder} {W} (g : GraphEngine.t W) (node_id : string)
    : list string :=
  default [] (GraphEngine.get_neighbors g node_id 1).

(** The boost that the hits give to [nid]: 0.3 times the score of every
    hit that has [nid] among its depth-1 neighbours, one term per hit. *)
Definition boost_sum {order : HashOrder} {W} (g : GraphEngine.t W)
    (hits : list (Hit.t Q)) (nid : string) : Q :=
  foldr (λ h acc, if decide (nid ∈ neighbors_1 g (Hit.id h))
                  then ((3 # 10) * Hit.score h + acc)%Q else acc)
        0%Q hits.

(** The score of the last hit with id [nid], if there is one. *)
Definition last_hit_score (hits : list (Hit.t Q)) (nid : string) : option Q :=
  Hit.score <$> last (filter (λ h, Hit.id h = nid) hits).

(** ** The export *)

(** The two names under which networkx files the edge list. *)
Definition edge_list_key (edges : string) : Prop :=
  edges = "links"%string ∨ edges = "edges"%string.

(** The elements of the exported list under [key]. *)
Definition exported {W} (data : gmap string (NodeLink.entry W)) (key : string)
    : list (NodeLink.element W) :=
  match data !! key with
  | Some (NodeLink.Elements l) => l
  | _ => []
  end.

(** What an element of the exported node list says of node [n] with
    attributes [attr], and an element of the edge list of the edge
    [u -> v] with data [d]. *)
Definition describes_node {W} (el : NodeLink.element W) (n : string) (attr : metadata_t) : Prop :=
  el !! "id"%string = Some (NodeLink.Attribute (VStr n)) ∧
  ∀ k, k ≠ "id"%string → el !! k = NodeLink.Attribute <$> attr !! k.

Definition describes_edge {W} (el : NodeLink.element W) (u v : string) (d : EdgeData.t W) : Prop :=
  el = {[ "source"%string := NodeLink.Attribute (VStr u);
          "target"%string := NodeLink.Attribute (VStr v);
          "type"%string := NodeLink.Attribute (VStr (EdgeData.type d));
          "weight"%string := NodeLink.Number (EdgeData.weight d) ]}.

(** ** Texts *)

(** A word: at least one character, none of them whitespace. *)
Definition word (w : list ascii) : Prop :=
  w ≠ [] ∧ Forall (λ c, Text.isspace c = false) w.

(** [close] comes somewhere after [open] in [s]. *)
Definition has_pair (open close : ascii) (s : list ascii) : Prop :=
  [open; close] `sublist_of` s.

(** Every [close] that comes after an [open] is on a later line. *)
Definition no_pair_on_a_line (open close : ascii) (s : list ascii) : Prop :=
  ∀ l1 l2 l3, s = l1 ++ open :: l2 ++ close :: l3 → "010"%char ∈ l2.

(** The text that the cleaning steps of [preprocess] start from: the
    output of the handler found for the text, if any, put through
    [fix_text]. *)
Definition formatted (fix_text : string → string) (self : IngestionPipeline.t)
    (text : string) : string :=
  fix_text
    match HandlerRegistry.find (IngestionPipeline.registry self) text with
    | Some handler => Handler.process handler text
    | None => text
    end.

(** ** What the extraction builds *)

(** A node as the extraction builds it: an id of at least two characters
    and the one attribute [label], never one of the excluded entity
    labels. *)
Definition extracted_node (node : NodeCreate.t) : Prop :=
  (2 ≤ len (NodeCreate.id node))%nat ∧
  ∃ label, NodeCreate.metadata node = {[ "label"%string := VStr label ]} ∧
           label ∉ IngestionPipeline.excluded_labels.

(** An edge as the extraction builds it, among the nodes [nodes]: both
    endpoints are ids of [nodes], neither is a stop concept, the weight is
    1.0. *)
Definition extracted_edge {F} `{Num F} (nodes : list NodeCreate.t) (edge : EdgeCreate.t F)
    : Prop :=
  EdgeCreate.source edge ∈ NodeCreate.id <$> nodes ∧
  EdgeCreate.target edge ∈ NodeCreate.id <$> nodes ∧
  (on_chars Text.lower (EdgeCreate.source edge) ∉ IngestionPipeline.stop_concepts) ∧
  (on_chars Text.lower (EdgeCreate.target edge) ∉ IngestionPipeline.stop_concepts) ∧
  EdgeCreate.weight edge = num_one.

Definition extraction_invariant {F} `{Num F}
    (state : list NodeCreate.t * list (EdgeCreate.t F)) : Prop :=
  NoDup (NodeCreate.id <$> state.1) ∧
  Forall extracted_node state.1 ∧
  Forall (extracted_edge state.1) state.2.

(** ** The stores behind the facade *)

(** The two copies of the graph are consistent and every endpoint of a
    stored edge has a row in the [nodes] table. *)
Definition store_closed {W} (self : GraphEngine.t W) : Prop :=
  consistent self ∧
  ∀ n, n ∈ endpoints (Sqlite.working (GraphEngine.conn self)) →
       n ∈ node_ids (Sqlite.working (GraphEngine.conn self)).

(** The rows of the vector table, none before the table is created. *)
Definition vector_rows {V} (self : VectorEngine.t V) : list (VectorEngine.row V) :=
  default [] (VectorEngine.table self).

(** Metadata that both stores take: [json.dumps] encodes it and
    [add_node(node_id, **metadata)] binds it. *)
Definition storable (m : metadata_t) : Prop :=
  map_Forall (λ _ v, serialisable v = true) m ∧ DiGraph.add_node_binds m = true.

(** ** Scenarios for the retriever, the pipeline and the facade *)

(** The hits of the worked example, its ranked list, and the entry of
    the list for B. *)
Definition hits_worked_example : list (Hit.t Q) :=
  [Hit.mk "A" (9 # 10)%Q; Hit.mk "B" (4 # 10)%Q].

Definition result_worked_example : list (Candidate.t Q) := Eval vm_compute in
  returned (HybridEngine.hybrid_search engine_worked_example "q" (1 # 2)%Q (1 # 2)%Q 2).

Definition worked_example_B : Candidate.t Q := Eval vm_compute in
  default (Candidate.mk "" 0%Q []) (result_worked_example !! 1%nat).

(** A parse of "Ada wrote Lisp in 1958.": the entities, and the tokens
    with their dependency subtrees. *)
Definition token_Ada : Token.t := Token.mk "Ada" "Ada" "PROPN" "nsubj" "wrote" [].

Definition token_Lisp : Token.t := Token.mk "Lisp" "Lisp" "PROPN" "dobj" "wrote" [].

Definition token_1958 : Token.t := Token.mk "1958" "1958" "NUM" "pobj" "in" [].

Definition token_in : Token.t := Token.mk "in" "in" "ADP" "prep" "wrote" [token_1958].

Definition token_wrote : Token.t :=
  Token.mk "wrote" "write" "VERB" "ROOT" "wrote" [token_Ada; token_Lisp; token_in].

Definition doc_Ada : Doc.t :=
  Doc.mk [Span.mk "Ada" "PERSON"; Span.mk "1958" "DATE"]
         [token_Ada; token_wrote; token_Lisp; token_in; token_1958].

(** A pipeline whose language model returns that parse, without ftfy and
    without the unstructured library. *)
Definition pipeline_Ada : IngestionPipeline.t :=
  IngestionPipeline.init (λ _, doc_Ada) false (λ text, text) (λ text, text)
    (λ text, text).

Definition text_Ada : string := "Ada   wrote Lisp [1] in 1958.".

Definition nodes_Ada : list NodeCreate.t := Eval vm_compute in
  (IngestionPipeline.extract_structured_data (F := Q) (λ text, text)
     pipeline_Ada text_Ada).1.

Definition edges_Ada : list (EdgeCreate.t Q) := Eval vm_compute in
  (IngestionPipeline.extract_structured_data (F := Q) (λ text, text)
     pipeline_Ada text_Ada).2.

(** A facade over empty stores, with a one-point embedding space, and the
    stores after the text has been ingested once and twice. *)
Definition facade_empty : NativeDB.t Q unit :=
  NativeDB.mk pipeline_Ada (VectorEngine.mk None) GraphEngine.empty.

Definition vectors_once : VectorEngine.t unit := Eval vm_compute in
  match VectorEngine.add_nodes (λ _, tt) (λ _ _, true) nodes_Ada (VectorEngine.mk None) with
  | Returned v | Raised _ v => v
  end.

Definition graph_once : GraphEngine.t Q := Eval vm_compute in
  match run Sqlite.reliable [AddNodes nodes_Ada; AddEdges edges_Ada] GraphEngine.empty with
  | Returned g | Raised _ g => g
  end.

Definition facade_once : NativeDB.t Q unit :=
  NativeDB.mk pipeline_Ada vectors_once graph_once.

Definition vectors_twice : VectorEngine.t unit := Eval vm_compute in
  match VectorEngine.add_nodes (λ _, tt) (λ _ _, true) nodes_Ada vectors_once with
  | Returned v | Raised _ v => v
  end.

Definition graph_twice : GraphEngine.t Q := Eval vm_compute in
  match run Sqlite.reliable [AddNodes nodes_Ada; AddEdges edges_Ada] graph_once with
  | Returned g | Raised _ g => g
  end.

Definition facade_twice : NativeDB.t Q unit :=
  NativeDB.mk pipeline_Ada vectors_twice graph_twice.

(** The source metadata of the usage example of [core.py]. *)
Definition source_history_book : metadata_t :=
  {[ "source"%string := VStr "history_book" ]}.

(** A facade whose graph store holds the edge A -> B while the vector
    table has not been created. *)
Definition facade_restarted : NativeDB.t Q unit :=
  NativeDB.mk pipeline_Ada (VectorEngine.mk None) engine_A_B.

(** * Properties *)

(** ** The in-memory graph *)

Section DiGraphFacts.
Context {W : Type}.
Implicit Types (g : DiGraph.t W) (n u v s t : string).

Lemma wf_empty : DiGraph_wf (@DiGraph.empty W).
Proof. split; reflexivity. Qed.

Lemma ensure_node_wf n g : DiGraph_wf g → DiGraph_wf (DiGraph.ensure_node n g).
Proof.
  intros [Hs Hp]. unfold DiGraph.ensure_node.
  destruct (DiGraph._succ g !! n); [by split|].
  split; simpl; rewrite !dom_insert_L; congruence.
Qed.

Lemma ensure_node_dom n g :
  DiGraph_wf g →
  dom (DiGraph._node (DiGraph.ensure_node n g)) = {[n]} ∪ dom (DiGraph._node g).
Proof.
  intros [Hs Hp]. unfold DiGraph.ensure_node.
  destruct (DiGraph._succ g !! n) eqn:E; simpl.
  - assert (n ∈ dom (DiGraph._node g)) by (rewrite <- Hs; by apply elem_of_dom).
    set_solver.
  - by rewrite dom_insert_L.
Qed.

Lemma ensure_node_succ_some n g :
  is_Some (DiGraph._succ (DiGraph.ensure_node n g) !! n).
Proof.
  unfold DiGraph.ensure_node. destruct (DiGraph._succ g !! n) eqn:E; simpl.
  - by rewrite E.
  - by rewrite lookup_insert_eq.
Qed.

Lemma ensure_node_edge_data n g s t :
  DiGraph.edge_data (DiGraph.ensure_node n g) s t = DiGraph.edge_data g s t.
Proof.
  unfold DiGraph.ensure_node, DiGraph.edge_data.
  destruct (DiGraph._succ g !! n) eqn:E; [done|]. simpl.
  destruct (decide (n = s)) as [->|Hne].
  - by rewrite lookup_insert_eq, E.
  - by rewrite lookup_insert_ne.
Qed.

Lemma add_node_wf n attr g : DiGraph_wf g → DiGraph_wf (DiGraph.add_node n attr g).
Proof.
  intros [Hs Hp]. unfold DiGraph.add_node.
  destruct (DiGraph._succ g !! n); split; simpl;
    rewrite ?dom_insert_L, ?dom_alter_L; congruence.
Qed.

Lemma add_node_dom n attr g :
  DiGraph_wf g →
  dom (DiGraph._node (DiGraph.add_node n attr g)) = {[n]} ∪ dom (DiGraph._node g).
Proof.
  intros [Hs Hp]. unfold DiGraph.add_node.
  destruct (DiGraph._succ g !! n) eqn:E; simpl.
  - rewrite dom_alter_L.
    assert (n ∈ dom (DiGraph._node g)) by (rewrite <- Hs; by apply elem_of_dom).
    set_solver.
  - by rewrite dom_insert_L.
Qed.

Lemma add_node_edge_data n attr g s t :
  DiGraph.edge_data (DiGraph.add_node n attr g) s t = DiGraph.edge_data g s t.
Proof.
  unfold DiGraph.add_node, DiGraph.edge_data.
  destruct (DiGraph._succ g !! n) eqn:E; [done|]. simpl.
  destruct (decide (n = s)) as [->|Hne].
  - by rewrite lookup_insert_eq, E.
  - by rewrite lookup_insert_ne.
Qed.

Lemma add_edge_wf u v d g : DiGraph_wf g → DiGraph_wf (DiGraph.add_edge u v d g).
Proof.
  intros Hwf. unfold DiGraph.add_edge.
  pose proof (ensure_node_wf v _ (ensure_node_wf u _ Hwf)) as [Hs Hp].
  set (g1 := DiGraph.ensure_node v (DiGraph.ensure_node u g)) in *.
  assert (u ∈ dom (DiGraph._node g1) ∧ v ∈ dom (DiGraph._node g1)) as [Hu Hv].
  { unfold g1. rewrite !ensure_node_dom by auto using ensure_node_wf. set_solver. }
  split; simpl; rewrite dom_insert_L; set_solver.
Qed.

Lemma add_edge_dom u v d g :
  DiGraph_wf g →
  dom (DiGraph._node (DiGraph.add_edge u v d g)) = {[u; v]} ∪ dom (DiGraph._node g).
Proof.
  intros Hwf. unfold DiGraph.add_edge. simpl.
  rewrite !ensure_node_dom by auto using ensure_node_wf. set_solver.
Qed.

Lemma add_edge_edge_data u v d g s t :
  DiGraph.edge_data (DiGraph.add_edge u v d g) s t =
  if decide (s = u ∧ t = v) then Some d else DiGraph.edge_data g s t.
Proof.
  unfold DiGraph.add_edge.
  set (g1 := DiGraph.ensure_node v (DiGraph.ensure_node u g)).
  assert (∀ s t, DiGraph.edge_data g1 s t = DiGraph.edge_data g s t) as Hg1.
  { intros. unfold g1. by rewrite !ensure_node_edge_data. }
  rewrite <- Hg1. unfold DiGraph.edge_data at 1. simpl.
  destruct (decide (s = u)) as [->|Hsu].
  - rewrite lookup_insert_eq. simpl.
    destruct (decide (t = v)) as [->|Htv].
    + rewrite lookup_insert_eq. by rewrite decide_True.
    + rewrite lookup_insert_ne by done. rewrite decide_False by naive_solver.
      unfold DiGraph.edge_data. rewrite lookup_total_alt.
      by destruct (DiGraph._succ g1 !! u).
  - rewrite lookup_insert_ne by done. by rewrite decide_False by naive_solver.
Qed.

Lemma ensure_node_pred_data n g v u :
  DiGraph_wf g →
  pred_data (DiGraph.ensure_node n g) v u = pred_data g v u.
Proof.
  intros [Hs Hp]. unfold DiGraph.ensure_node, pred_data.
  destruct (DiGraph._succ g !! n) eqn:E; [done|]. simpl.
  assert (DiGraph._pred g !! n = None) as E'.
  { apply not_elem_of_dom. rewrite Hp, <- Hs. by apply not_elem_of_dom. }
  destruct (decide (n = v)) as [->|Hne].
  - by rewrite lookup_insert_eq, E'.
  - by rewrite lookup_insert_ne.
Qed.

Lemma add_node_pred_data n attr g v u :
  DiGraph_wf g →
  pred_data (DiGraph.add_node n attr g) v u = pred_data g v u.
Proof.
  intros [Hs Hp]. unfold DiGraph.add_node, pred_data.
  destruct (DiGraph._succ g !! n) eqn:E; [done|]. simpl.
  assert (DiGraph._pred g !! n = None) as E'.
  { apply not_elem_of_dom. rewrite Hp, <- Hs. by apply not_elem_of_dom. }
  destruct (decide (n = v)) as [->|Hne].
  - by rewrite lookup_insert_eq, E'.
  - by rewrite lookup_insert_ne.
Qed.

Lemma add_edge_pred_data u v d g t s :
  DiGraph_wf g →
  pred_data (DiGraph.add_edge u v d g) t s =
  if decide (s = u ∧ t = v) then Some d else pred_data g t s.
Proof.
  intros Hwf. unfold DiGraph.add_edge.
  set (g1 := DiGraph.ensure_node v (DiGraph.ensure_node u g)).
  assert (∀ t s, pred_data g1 t s = pred_data g t s) as Hg1.
  { intros. unfold g1.
    by rewrite !ensure_node_pred_data by auto using ensure_node_wf. }
  rewrite <- Hg1. unfold pred_data at 1. simpl.
  destruct (decide (t = v)) as [->|Htv].
  - rewrite lookup_insert_eq. simpl.
    destruct (decide (s = u)) as [->|Hsu].
    + rewrite lookup_insert_eq. by rewrite decide_True.
    + rewrite lookup_insert_ne by done. rewrite decide_False by naive_solver.
      unfold pred_data. rewrite lookup_total_alt.
      by destruct (DiGraph._pred g1 !! v).
  - rewrite lookup_insert_ne by done. by rewrite decide_False by naive_solver.
Qed.

Lemma mirror_empty : DiGraph_mirror (@DiGraph.empty W).
Proof. intros u v. reflexivity. Qed.

Lemma add_node_mirror n attr g :
  DiGraph_wf g → DiGraph_mirror g → DiGraph_mirror (DiGraph.add_node n attr g).
Proof.
  intros Hwf Hm u v. by rewrite add_node_pred_data, add_node_edge_data.
Qed.

Lemma add_edge_mirror u v d g :
  DiGraph_wf g → DiGraph_mirror g → DiGraph_mirror (DiGraph.add_edge u v d g).
Proof.
  intros Hwf Hm s t. rewrite add_edge_pred_data, add_edge_edge_data by done.
  destruct (decide _); [done|apply Hm].
Qed.

(** Reading the adjacency through [successors] and [predecessors]. *)
Lemma elem_of_successors g u v :
  v ∈ DiGraph.successors g u ↔ is_Some (DiGraph.edge_data g u v).
Proof.
  unfold DiGraph.successors, DiGraph.edge_data.
  rewrite elem_of_elements, elem_of_dom, lookup_total_alt.
  destruct (DiGraph._succ g !! u); simpl; [done|].
  rewrite lookup_empty. split; intros []; done.
Qed.

Lemma elem_of_predecessors g v u :
  u ∈ DiGraph.predecessors g v ↔ is_Some (pred_data g v u).
Proof.
  unfold DiGraph.predecessors, pred_data.
  rewrite elem_of_elements, elem_of_dom, lookup_total_alt.
  destruct (DiGraph._pred g !! v); simpl; [done|].
  rewrite lookup_empty. split; intros []; done.
Qed.
End DiGraphFacts.

(** ** The durable rows *)

Section SqliteFacts.
Context {W : Type} {real : RealColumn W}.
Implicit Types (db : Sqlite.database W) (n s t : string).

Lemma node_ids_insert r db n :
  n ∈ node_ids (Sqlite.insert_or_replace_node r db) ↔
  n = Sqlite.id r ∨ n ∈ node_ids db.
Proof.
  unfold node_ids, Sqlite.insert_or_replace_node. simpl.
  rewrite fmap_app, elem_of_app, !list_elem_of_fmap. split.
  - intros [(r' & -> & Hin)|(r' & -> & Hin)].
    + apply list_elem_of_filter in Hin as [_ Hin]. eauto.
    + apply list_elem_of_singleton in Hin as ->. by left.
  - intros [->|(r' & -> & Hin)].
    + right. exists r. split; [done|]. by apply list_elem_of_singleton.
    + destruct (decide (Sqlite.same_node_key r r')) as [Hk|Hk].
      * right. exists r. split; [by rewrite Hk|]. by apply list_elem_of_singleton.
      * left. exists r'. split; [done|]. by apply list_elem_of_filter.
Qed.

Lemma node_ids_insert_edge r db :
  node_ids (Sqlite.insert_or_replace_edge r db) = node_ids db.
Proof. reflexivity. Qed.

Lemma endpoints_insert_node r db :
  endpoints (Sqlite.insert_or_replace_node r db) = endpoints db.
Proof. reflexivity. Qed.

Lemma endpoints_insert r db n :
  n ∈ endpoints (Sqlite.insert_or_replace_edge r db) ↔
  (n = Sqlite.source r ∨ n = Sqlite.target r) ∨ n ∈ endpoints db.
Proof.
  unfold endpoints, Sqlite.insert_or_replace_edge. simpl.
  rewrite bind_app, elem_of_app, !list_elem_of_bind. split.
  - intros [(r' & Hn & Hin)|(r' & Hn & Hin)].
    + apply list_elem_of_filter in Hin as [_ Hin]. eauto.
    + apply list_elem_of_singleton in Hin as ->. left. set_solver.
  - intros [Hn|(r' & Hn & Hin)].
    + right. exists r. split; [set_solver|]. by apply list_elem_of_singleton.
    + destruct (decide (Sqlite.same_edge_key r r')) as [(Hs & Ht & _)|Hk].
      * right. exists r. split; [|by apply list_elem_of_singleton].
        rewrite Hs, Ht. done.
      * left. exists r'. split; [done|]. by apply list_elem_of_filter.
Qed.

Lemma last_edge_other_key (r : Sqlite.edges_row W) (rows : list (Sqlite.edges_row W)) s t :
  ¬ (s = Sqlite.source r ∧ t = Sqlite.target r) →
  filter (λ r', Sqlite.source r' = s ∧ Sqlite.target r' = t)
         (filter (λ r', ¬ Sqlite.same_edge_key r r') rows) =
  filter (λ r', Sqlite.source r' = s ∧ Sqlite.target r' = t) rows.
Proof.
  intros Hne. induction rows as [|r' rows IH]; [done|].
  destruct (decide (Sqlite.same_edge_key r r')) as [Hk|Hk].
  - rewrite (filter_cons_False _ r') by (intros Hn; by apply Hn).
    destruct Hk as (Hs & Ht & _).
    rewrite (filter_cons_False _ r'); [done|].
    intros [<- <-]. apply Hne. by rewrite Hs, Ht.
  - rewrite (filter_cons_True _ r') by done.
    rewrite !(filter_cons (λ r', Sqlite.source r' = s ∧ Sqlite.target r' = t)).
    destruct (decide _); by rewrite IH.
Qed.

Lemma last_edge_insert r db s t :
  last_edge (Sqlite.edges (Sqlite.insert_or_replace_edge r db)) s t =
  if decide (s = Sqlite.source r ∧ t = Sqlite.target r)
  then Some (EdgeData.mk (Sqlite.type r) (Sqlite.weight r))
  else last_edge (Sqlite.edges db) s t.
Proof.
  unfold last_edge, Sqlite.insert_or_replace_edge. simpl.
  rewrite filter_app. destruct (decide _) as [[-> ->]|Hne].
  - rewrite (filter_cons_True _ r) by done. rewrite filter_nil.
    by rewrite last_snoc.
  - rewrite (filter_cons_False _ r) by naive_solver. rewrite filter_nil, app_nil_r.
    by rewrite last_edge_other_key.
Qed.
End SqliteFacts.

(** ** The engine: what its two copies of the graph agree on *)

Section EngineFacts.
Context {W : Type} {real : RealColumn W}.
Implicit Types (self mid : GraphEngine.t W) (accepts : Sqlite.storage W).

Lemma execute_Some accepts stmt c c' :
  Sqlite.execute accepts stmt c = Some c' → c' = Sqlite.run stmt c.
Proof. unfold Sqlite.execute. destruct (accepts c stmt); congruence. Qed.

Lemma mirrored_empty : mirrored (@GraphEngine.empty W).
Proof.
  split; simpl.
  - apply wf_empty.
  - apply mirror_empty.
  - intros n. rewrite dom_empty_L. set_solver.
  - reflexivity.
Qed.

Lemma mirrored_add_node self id attr text :
  mirrored self →
  mirrored
    (GraphEngine.mk (DiGraph.add_node id attr (GraphEngine.graph self))
       (Sqlite.run (Sqlite.InsertOrReplaceNode (Sqlite.NodesRow id text))
          (GraphEngine.conn self))).
Proof.
  intros [Hwf Hm Hn He].
  split; cbn [GraphEngine.graph GraphEngine.conn Sqlite.working Sqlite.run].
  - by apply add_node_wf.
  - by apply add_node_mirror.
  - intros n. rewrite add_node_dom by done.
    rewrite node_ids_insert, endpoints_insert_node. simpl.
    rewrite elem_of_union, elem_of_singleton, Hn. tauto.
  - intros s t. by rewrite add_node_edge_data, He.
Qed.

(** The statement that writes the row of a record. *)
Lemma run_insert_edge (edge : EdgeCreate.t W) c :
  Sqlite.run (Sqlite.InsertOrReplaceEdge (EdgeCreate.source edge) (EdgeCreate.target edge)
                (EdgeCreate.type edge) (EdgeCreate.weight edge)) c =
  Sqlite.Connection (Sqlite.committed c)
    (Sqlite.insert_or_replace_edge (edge_row edge) (Sqlite.working c)).
Proof. reflexivity. Qed.

Lemma mirrored_add_edge self (edge : EdgeCreate.t W) :
  kept (EdgeCreate.weight edge) →
  mirrored self →
  mirrored
    (GraphEngine.mk
       (DiGraph.add_edge (EdgeCreate.source edge) (EdgeCreate.target edge)
          (EdgeData.mk (EdgeCreate.type edge) (Some (EdgeCreate.weight edge)))
          (GraphEngine.graph self))
       (Sqlite.run (Sqlite.InsertOrReplaceEdge (EdgeCreate.source edge)
                      (EdgeCreate.target edge) (EdgeCreate.type edge)
                      (EdgeCreate.weight edge))
          (GraphEngine.conn self))).
Proof.
  intros Hkept [Hwf Hm Hn He]. rewrite run_insert_edge.
  split; cbn [GraphEngine.graph GraphEngine.conn Sqlite.working].
  - by apply add_edge_wf.
  - by apply add_edge_mirror.
  - intros n. rewrite add_edge_dom by done.
    rewrite node_ids_insert_edge, endpoints_insert. simpl.
    rewrite !elem_of_union, !elem_of_singleton, Hn. tauto.
  - intros s t. rewrite add_edge_edge_data, last_edge_insert, He.
    unfold edge_row. cbn [Sqlite.source Sqlite.target Sqlite.type Sqlite.weight].
    by rewrite Hkept.
Qed.

Lemma add_nodes_loop_mirrored accepts nodes self self' :
  mirrored self →
  GraphEngine.add_nodes_loop accepts nodes self = Returned self' →
  mirrored self' ∧
  Sqlite.committed (GraphEngine.conn self') = Sqlite.committed (GraphEngine.conn self).
Proof.
  revert self. induction nodes as [|node rest IH]; intros self Hmir Hrun; simpl in Hrun.
  - by inversion Hrun; subst.
  - destruct (DiGraph.add_node_binds _); simpl in Hrun; [|done].
    destruct (json_dumps _) as [text|]; [|done].
    destruct (Sqlite.execute _ _ _) as [c|] eqn:Hexec; [|done].
    apply execute_Some in Hexec as ->.
    apply IH in Hrun as [Hmir' Hcom]; [|by apply mirrored_add_node].
    split; [done|]. by rewrite Hcom.
Qed.

Lemma add_edges_loop_mirrored accepts edges self self' :
  Forall (λ edge, kept (EdgeCreate.weight edge)) edges →
  mirrored self →
  GraphEngine.add_edges_loop accepts edges self = Returned self' →
  mirrored self' ∧
  Sqlite.committed (GraphEngine.conn self') = Sqlite.committed (GraphEngine.conn self).
Proof.
  intros Hkept. revert self.
  induction Hkept as [|edge rest Hedge _ IH]; intros self Hmir Hrun; simpl in Hrun.
  - by inversion Hrun; subst.
  - destruct (Sqlite.execute _ _ _) as [c|] eqn:Hexec; [|done].
    apply execute_Some in Hexec as ->.
    apply IH in Hrun as [Hmir' Hcom]; [|by apply (mirrored_add_edge self edge)].
    split; [done|]. by rewrite Hcom.
Qed.

Lemma commit_consistent accepts self self' :
  mirrored self →
  GraphEngine.commit accepts self = Returned self' →
  consistent self'.
Proof.
  intros [Hwf Hm Hn He] Hrun. unfold GraphEngine.commit in Hrun.
  destruct (Sqlite.execute _ _ _) as [c|] eqn:Hexec; [|done].
  apply execute_Some in Hexec as ->. inversion Hrun; subst.
  split; [split|]; done.
Qed.

Lemma call_consistent accepts op self self' :
  weights_kept [op] →
  consistent self → call accepts op self = Returned self' → consistent self'.
Proof.
  intros Hkept [Hmir Hcom] Hrun. destruct op as [nodes|edges]; simpl in Hrun.
  - destruct nodes as [|node rest]; [by inversion Hrun; subst|].
    unfold GraphEngine.add_nodes in Hrun.
    destruct (GraphEngine.add_nodes_loop _ _ _) as [mid|] eqn:Hloop; [|done].
    apply add_nodes_loop_mirrored in Hloop as [Hmid _]; [|done].
    by eapply commit_consistent.
  - destruct edges as [|edge rest]; [by inversion Hrun; subst|].
    unfold GraphEngine.add_edges in Hrun.
    destruct (GraphEngine.add_edges_loop _ _ _) as [mid|] eqn:Hloop; [|done].
    apply add_edges_loop_mirrored in Hloop as [Hmid _]; [| |done].
    + by eapply commit_consistent.
    + apply Forall_forall. intros e He. apply (Hkept (edge :: rest)); [left|done].
Qed.

Lemma weights_kept_cons op ops :
  weights_kept (op :: ops) ↔ weights_kept [op] ∧ weights_kept ops.
Proof.
  unfold weights_kept. setoid_rewrite elem_of_cons. setoid_rewrite elem_of_nil.
  naive_solver.
Qed.

(** The calls of a sequence in which every call returns leave the two
    copies consistent. *)
Lemma run_consistent accepts ops self self' :
  weights_kept ops →
  consistent self → run accepts ops self = Returned self' → consistent self'.
Proof.
  revert self. induction ops as [|op ops IH]; intros self Hkept Hcons Hrun;
    simpl in Hrun.
  - by inversion Hrun; subst.
  - apply weights_kept_cons in Hkept as [Hop Hkept].
    destruct (call accepts op self) as [mid|] eqn:Hcall; [|done].
    eapply IH; [done| |done]. by eapply call_consistent.
Qed.

(** *** Start-up: the graph rebuilt from the database follows it *)

Lemma last_edge_snoc (rows : list (Sqlite.edges_row W)) r s t :
  last_edge (rows ++ [r]) s t =
  if decide (s = Sqlite.source r ∧ t = Sqlite.target r)
  then Some (EdgeData.mk (Sqlite.type r) (Sqlite.weight r))
  else last_edge rows s t.
Proof.
  unfold last_edge. rewrite filter_app. destruct (decide _) as [[-> ->]|Hne].
  - rewrite (filter_cons_True _ r) by done. rewrite filter_nil.
    by rewrite last_snoc.
  - rewrite (filter_cons_False _ r) by naive_solver. by rewrite filter_nil, app_nil_r.
Qed.

Lemma load_nodes_follows rows (g g' : DiGraph.t (option W)) ns es :
  follows g (Sqlite.Database ns es) →
  GraphEngine.load_nodes rows g = Returned g' →
  follows g' (Sqlite.Database (ns ++ rows) es).
Proof.
  revert g ns. induction rows as [|r rows IH]; intros g ns Hg Hrun; simpl in Hrun.
  - inversion Hrun; subst. by rewrite app_nil_r.
  - destruct (GraphEngine.decode_metadata _) as [meta_dict|]; [|done].
    destruct (DiGraph.add_node_binds _); [|done].
    replace (ns ++ r :: rows) with ((ns ++ [r]) ++ rows) by by rewrite <- app_assoc.
    eapply IH; [|exact Hrun].
    destruct Hg as [Hwf Hm Hn He]. split.
    + by apply add_node_wf.
    + by apply add_node_mirror.
    + intros n. rewrite add_node_dom by done.
      rewrite elem_of_union, elem_of_singleton, Hn.
      unfold node_ids, endpoints. cbn [Sqlite.nodes Sqlite.edges].
      rewrite fmap_app, elem_of_app, fmap_cons, list_elem_of_singleton. tauto.
    + intros s t. by rewrite add_node_edge_data, He.
Qed.

Lemma load_edges_follows rows (g : DiGraph.t (option W)) ns es :
  follows g (Sqlite.Database ns es) →
  follows (GraphEngine.load_edges rows g) (Sqlite.Database ns (es ++ rows)).
Proof.
  revert g es. induction rows as [|r rows IH]; intros g es Hg.
  - by rewrite app_nil_r.
  - replace (es ++ r :: rows) with ((es ++ [r]) ++ rows) by by rewrite <- app_assoc.
    unfold GraphEngine.load_edges. cbn [foldl]. apply IH.
    destruct Hg as [Hwf Hm Hn He]. split.
    + by apply add_edge_wf.
    + by apply add_edge_mirror.
    + intros n. rewrite add_edge_dom by done.
      rewrite !elem_of_union, !elem_of_singleton, Hn.
      unfold node_ids, endpoints. cbn [Sqlite.nodes Sqlite.edges].
      rewrite bind_app, elem_of_app. cbn [mbind list_bind]. rewrite app_nil_r.
      rewrite elem_of_cons, list_elem_of_singleton. tauto.
    + intros s t. cbn [Sqlite.edges]. rewrite add_edge_edge_data, last_edge_snoc, He.
      done.
Qed.

(** Rows are read in rowid order, which is the order of a full scan of the
    two tables.  Whatever the database holds, the engine built on it is
    consistent as soon as [__init__] returns. *)
Lemma init_consistent (db : Sqlite.database W) self :
  GraphEngine.init db = Returned self →
  consistent self.
Proof.
  unfold GraphEngine.init, GraphEngine._load_graph_from_db.
  cbn [GraphEngine.graph GraphEngine.conn Sqlite.connect Sqlite.working].
  destruct (GraphEngine.load_nodes _ _) as [g|] eqn:Hnodes; [|done].
  intros [= <-]. split; [|done]. unfold mirrored.
  cbn [GraphEngine.graph GraphEngine.conn Sqlite.working].
  destruct db as [ns es].
  apply (load_edges_follows es g ns []).
  apply (load_nodes_follows ns DiGraph.empty g [] []); [|done].
  apply mirrored_empty.
Qed.

Lemma init_empty_database :
  GraphEngine.init Sqlite.empty_database = Returned (@GraphEngine.empty W).
Proof. reflexivity. Qed.
End EngineFacts.

(** ** Batches: where a failure leaves the engine, what a success leaves *)

Section Batches.
Context {W : Type} {real : RealColumn W}.
Implicit Types (self mid : GraphEngine.t W) (accepts : Sqlite.storage W).

Lemma edge_keys_insert r (db : Sqlite.database W) k :
  k ∈ edge_keys (Sqlite.insert_or_replace_edge r db) ↔
  k = (Sqlite.source r, Sqlite.target r, Sqlite.type r) ∨ k ∈ edge_keys db.
Proof.
  unfold edge_keys, Sqlite.insert_or_replace_edge. simpl.
  rewrite fmap_app, elem_of_app, !list_elem_of_fmap. split.
  - intros [(r' & -> & Hin)|(r' & -> & Hin)].
    + apply list_elem_of_filter in Hin as [_ Hin]. eauto.
    + apply list_elem_of_singleton in Hin as ->. by left.
  - intros [->|(r' & -> & Hin)].
    + right. exists r. split; [done|]. by apply list_elem_of_singleton.
    + destruct (decide (Sqlite.same_edge_key r r')) as [(Hs & Ht & Hty)|Hk].
      * right. exists r. split; [by rewrite Hs, Ht, Hty|].
        by apply list_elem_of_singleton.
      * left. exists r'. split; [done|]. by apply list_elem_of_filter.
Qed.





(** The rows of the records of a loop that ran to its end. *)
Lemma add_nodes_loop_rows accepts nodes self self' :
  GraphEngine.add_nodes_loop accepts nodes self = Returned self' →
  (∀ n, n ∈ node_ids (Sqlite.working (GraphEngine.conn self)) →
        n ∈ node_ids (Sqlite.working (GraphEngine.conn self'))) ∧
  (∀ node, node ∈ nodes →
        NodeCreate.id node ∈ node_ids (Sqlite.working (GraphEngine.conn self'))).
Proof.
  revert self. induction nodes as [|node rest IH]; intros self Hrun; simpl in Hrun.
  - inversion Hrun; subst. split; [done|]. intros node Hin. by apply elem_of_nil in Hin.
  - destruct (DiGraph.add_node_binds _); simpl in Hrun; [|done].
    destruct (json_dumps _) as [text|]; [|done].
    destruct (Sqlite.execute _ _ _) as [c|] eqn:Hexec; [|done].
    apply execute_Some in Hexec as ->.
    apply IH in Hrun as [Hkeep Hnew]. cbn [GraphEngine.conn] in Hkeep.
    split.
    + intros n Hn. apply Hkeep. simpl. apply node_ids_insert. by right.
    + intros node' [->|Hin]%elem_of_cons; [|by apply Hnew].
      apply Hkeep. simpl. apply node_ids_insert. by left.
Qed.

Lemma add_edges_loop_rows accepts edges self self' :
  GraphEngine.add_edges_loop accepts edges self = Returned self' →
  (∀ k, k ∈ edge_keys (Sqlite.working (GraphEngine.conn self)) →
        k ∈ edge_keys (Sqlite.working (GraphEngine.conn self'))) ∧
  (∀ edge, edge ∈ edges →
        (EdgeCreate.source edge, EdgeCreate.target edge, EdgeCreate.type edge)
        ∈ edge_keys (Sqlite.working (GraphEngine.conn self'))).
Proof.
  revert self. induction edges as [|edge rest IH]; intros self Hrun; simpl in Hrun.
  - inversion Hrun; subst. split; [done|]. intros edge Hin. by apply elem_of_nil in Hin.
  - destruct (Sqlite.execute _ _ _) as [c|] eqn:Hexec; [|done].
    apply execute_Some in Hexec as ->.
    apply IH in Hrun as [Hkeep Hnew]. cbn [GraphEngine.conn] in Hkeep.
    split.
    + intros k Hk. apply Hkeep. simpl. apply edge_keys_insert. by right.
    + intros edge' [->|Hin]%elem_of_cons; [|by apply Hnew].
      apply Hkeep. simpl. apply edge_keys_insert. by left.
Qed.

Lemma commit_Returned accepts self self' :
  GraphEngine.commit accepts self = Returned self' →
  GraphEngine.graph self' = GraphEngine.graph self ∧
  Sqlite.working (GraphEngine.conn self') = Sqlite.working (GraphEngine.conn self) ∧
  Sqlite.committed (GraphEngine.conn self') = Sqlite.working (GraphEngine.conn self).
Proof.
  unfold GraphEngine.commit. intros Hrun.
  destruct (Sqlite.execute _ _ _) as [c|] eqn:Hexec; [|done].
  apply execute_Some in Hexec as ->. by inversion Hrun; subst.
Qed.


Lemma add_edges_loop_nodes_table accepts edges self self' :
  GraphEngine.add_edges_loop accepts edges self = Returned self' →
  Sqlite.nodes (Sqlite.working (GraphEngine.conn self')) =
  Sqlite.nodes (Sqlite.working (GraphEngine.conn self)).
Proof.
  revert self. induction edges as [|edge rest IH]; intros self Hrun; simpl in Hrun.
  - by inversion Hrun; subst.
  - destruct (Sqlite.execute _ _ _) as [c|] eqn:Hexec; [|done].
    apply execute_Some in Hexec as ->. by apply IH in Hrun as ->.
Qed.
End Batches.

(** ** Upsert of a node (C2) *)

(** C2.  Upserting the same node id twice, with metadata [m1] and then
    [m2], leaves one node with that id in both copies; the durable row holds
    exactly [m2], but the in-memory attributes are [m2] laid over [m1]: the
    keys of [m1] that [m2] lacks survive.  The two copies differ as soon as
    [m1] has such a key, where the specification asks for [m2] in both. *)
Theorem node_upsert_merges_in_memory {W} {real : RealColumn W} (accepts : Sqlite.storage W)
    id text1 text2 (m1 m2 : metadata_t) (self1 self2 : GraphEngine.t W) :
  GraphEngine.add_nodes accepts [NodeCreate.mk id text1 m1] GraphEngine.empty
    = Returned self1 →
  GraphEngine.add_nodes accepts [NodeCreate.mk id text2 m2] self1 = Returned self2 →
  DiGraph._node (GraphEngine.graph self2) !! id = Some (m2 ∪ m1) ∧
  dom (DiGraph._node (GraphEngine.graph self2)) = {[id]} ∧
  Sqlite.nodes (Sqlite.committed (GraphEngine.conn self2)) =
    [Sqlite.NodesRow id (Encoded m2)].
Proof.
  unfold GraphEngine.add_nodes, GraphEngine.commit. simpl.
  intros H1 H2.
  destruct (DiGraph.add_node_binds m1); simpl in H1; [|done].
  unfold json_dumps in H1. destruct (bool_decide _) in H1; [|done].
  destruct (Sqlite.execute _ _ _) as [c1|] eqn:E1 in H1; [|done].
  apply execute_Some in E1 as ->. simpl in H1.
  destruct (Sqlite.execute _ _ _) as [c1|] eqn:E1 in H1; [|done].
  apply execute_Some in E1 as ->. inversion H1; subst self1; clear H1.
  simpl in H2.
  destruct (DiGraph.add_node_binds m2); simpl in H2; [|done].
  unfold json_dumps in H2. destruct (bool_decide _) in H2; [|done].
  destruct (Sqlite.execute _ _ _) as [c2|] eqn:E2 in H2; [|done].
  apply execute_Some in E2 as ->. simpl in H2.
  destruct (Sqlite.execute _ _ _) as [c2|] eqn:E2 in H2; [|done].
  apply execute_Some in E2 as ->. inversion H2; subst self2; clear H2.
  cbn [GraphEngine.graph GraphEngine.conn Sqlite.committed].
  assert (DiGraph.add_node id m1 (@DiGraph.empty (option W)) =
          DiGraph.mk (<[id := m1]> ∅) (<[id := ∅]> ∅) (<[id := ∅]> ∅)) as ->.
  { unfold DiGraph.add_node, DiGraph.empty. cbn [DiGraph._succ DiGraph._node DiGraph._pred].
    by rewrite lookup_empty, (right_id_L ∅ (∪)). }
  unfold DiGraph.add_node. cbn [DiGraph._succ DiGraph._node DiGraph._pred].
  rewrite lookup_insert_eq. cbn [DiGraph._node].
  rewrite lookup_alter_eq, lookup_insert_eq. simpl.
  split; [done|]. split.
  - by rewrite dom_alter_L, dom_insert_L, dom_empty_L, (right_id_L ∅ (∪)).
  - unfold Sqlite.insert_or_replace_node. simpl.
    rewrite filter_cons_False; [done|].
    intros Hk. by apply Hk.
Qed.

(** The run at [m1 = {"a": 1}], [m2 = {"b": 2}]: the in-memory node keeps
    ["a"], the durable row does not. *)
Lemma node_upsert_merges_in_memory_witness :
  GraphEngine.add_nodes Sqlite.reliable [upsert_first] GraphEngine.empty
    = Returned engine_upsert_1 ∧
  GraphEngine.add_nodes Sqlite.reliable [upsert_second] engine_upsert_1
    = Returned engine_upsert_2 ∧
  DiGraph._node (GraphEngine.graph engine_upsert_2) !! "n"%string
    = Some ({[ "b"%string := VInt 2 ]} ∪ {[ "a"%string := VInt 1 ]}) ∧
  dom (DiGraph._node (GraphEngine.graph engine_upsert_2)) = {[ "n"%string ]} ∧
  Sqlite.nodes (Sqlite.committed (GraphEngine.conn engine_upsert_2)) =
    [Sqlite.NodesRow "n" (Encoded {[ "b"%string := VInt 2 ]})].
Proof.
  split; [vm_compute; reflexivity|].
  split; [vm_compute; reflexivity|].
  apply (node_upsert_merges_in_memory Sqlite.reliable "n" "first" "second"
           {[ "a"%string := VInt 1 ]} {[ "b"%string := VInt 2 ]}
           engine_upsert_1 engine_upsert_2);
    vm_compute; reflexivity.
Defined.

(** ** Write-through (C3) *)

(** C3, as stated, fails: after [add_edges([A -creates-> B])] on an empty
    store the in-memory graph has the nodes A and B, the [nodes] table has
    no row. *)
Lemma add_edges_creates_nodes_in_memory_only :
  GraphEngine.add_edges Sqlite.reliable [edge_A_B] GraphEngine.empty
    = Returned engine_A_B ∧
  ¬ same_contents engine_A_B.
Proof.
  split; [vm_compute; reflexivity|].
  intros (Hnodes & _ & _).
  assert ("A"%string ∈ node_ids (Sqlite.committed (GraphEngine.conn engine_A_B))) as Hin.
  { apply Hnodes. apply elem_of_dom. vm_compute. eauto. }
  vm_compute in Hin. by apply elem_of_nil in Hin.
Qed.

(** The two conditions of the amended statement are needed.  A call that
    raises leaves its records in memory without their rows, and the calls
    that return after it do not mend that: after [add_nodes([a, b, c])] has
    raised on the row of ["b"] and [add_nodes([c])] has returned, ["b"] is
    an in-memory node that no table knows. *)
Lemma returning_call_after_raising_call_is_not_consistent :
  GraphEngine.add_nodes refusing_b [node_a; node_b; node_c] GraphEngine.empty
    = Raised sqlite3_Error engine_failed_batch ∧
  GraphEngine.add_nodes refusing_b [node_c] engine_failed_batch
    = Returned engine_after_failed_batch ∧
  ¬ consistent engine_after_failed_batch.
Proof.
  split; [vm_compute; reflexivity|]. split; [vm_compute; reflexivity|].
  intros [Hmir _].
  assert ("b"%string ∈ dom (DiGraph._node (GraphEngine.graph engine_after_failed_batch)))
    as Hb by (apply elem_of_dom; vm_compute; eauto).
  apply (follows_nodes _ _ Hmir) in Hb. vm_compute in Hb.
  destruct Hb as [Hb|Hb].
  - apply elem_of_cons in Hb as [[=]|Hb]. apply elem_of_cons in Hb as [[=]|Hb].
    by apply elem_of_nil in Hb.
  - by apply elem_of_nil in Hb.
Qed.

(** On binary64 numbers the column keeps every weight but a NaN and the
    negative zero. *)
Lemma kept_binary64 (w : float) :
  kept w ↔ PrimFloat.is_nan w = false ∧ (PrimFloat.eqb w 0%float = true → w = 0%float).
Proof.
  unfold kept, real_column, float_real.
  destruct (PrimFloat.is_nan w), (PrimFloat.eqb w 0%float); naive_solver.
Qed.

(** And a weight that the column does not keep separates the copies in a
    call that returns: the NaN of the record is the weight of the in-memory
    edge, and the row holds NULL. *)
Lemma nan_weight_is_stored_as_null :
  GraphEngine.add_edges Sqlite.reliable [edge_A_B_nan] GraphEngine.empty
    = Returned engine_A_B_nan ∧
  DiGraph.edge_data (GraphEngine.graph engine_A_B_nan) "A" "B"
    = Some (EdgeData.mk "creates" (Some PrimFloat.nan)) ∧
  Sqlite.edges (Sqlite.committed (GraphEngine.conn engine_A_B_nan))
    = [Sqlite.EdgesRow "A" "B" "creates" None] ∧
  ¬ consistent engine_A_B_nan.
Proof.
  split; [vm_compute; reflexivity|]. split; [vm_compute; reflexivity|].
  split; [vm_compute; reflexivity|].
  intros [Hmir _]. pose proof (follows_edges _ _ Hmir "A"%string "B"%string) as Hedge.
  vm_compute in Hedge. discriminate.
Qed.

(** C3, amended.  From every state in which the two copies are consistent
    (the empty store is one), every sequence of [add_nodes] and [add_edges]
    calls that all return, and that pass no weight that the [REAL] column
    would alter (a NaN, the negative zero), leaves them consistent: the
    in-memory nodes are the ids of the [nodes] table together with the
    endpoints of the [edges] table; from [s] to [t] the in-memory graph has
    an edge exactly when the table has a row from [s] to [t], and it
    carries the type and weight of the row written last; and everything is
    committed.  Nothing is said of the metadata, nor of the calls that
    follow a call that raised. *)
Theorem successful_calls_keep_copies_consistent {W} {real : RealColumn W}
    (accepts : Sqlite.storage W) (ops : list operation) (self self' : GraphEngine.t W) :
  weights_kept ops →
  consistent self →
  run accepts ops self = Returned self' →
  consistent self'.
Proof.
  revert self. induction ops as [|op ops IH]; intros self Hkept Hcons Hrun;
    simpl in Hrun.
  - by inversion Hrun; subst.
  - destruct (call accepts op self) as [mid|] eqn:Hcall; [|done].
    apply weights_kept_cons in Hkept as [Hop Hkept].
    apply (IH mid); [done| |done]. by eapply call_consistent.
Qed.

Lemma successful_calls_keep_copies_consistent_witness :
  weights_kept
    [AddNodes [NodeCreate.mk "A" "Ada" {[ "label"%string := VStr "PERSON" ]}];
     AddEdges [edge_A_B; EdgeCreate.mk "A" "B" "admires" (1 # 2)%Q]] ∧
  consistent (@GraphEngine.empty Q) ∧
  run Sqlite.reliable
    [AddNodes [NodeCreate.mk "A" "Ada" {[ "label"%string := VStr "PERSON" ]}];
     AddEdges [edge_A_B; EdgeCreate.mk "A" "B" "admires" (1 # 2)%Q]]
    GraphEngine.empty = Returned engine_after_calls ∧
  consistent engine_after_calls.
Proof.
  assert (weights_kept
            [AddNodes [NodeCreate.mk "A" "Ada" {[ "label"%string := VStr "PERSON" ]}];
             AddEdges [edge_A_B; EdgeCreate.mk "A" "B" "admires" (1 # 2)%Q]]) as Hkept
    by (intros edges edge _ _; reflexivity).
  assert (consistent (@GraphEngine.empty Q)) as Hempty
    by (split; [apply mirrored_empty|reflexivity]).
  split; [exact Hkept|]. split; [exact Hempty|].
  split; [vm_compute; reflexivity|].
  apply (successful_calls_keep_copies_consistent Sqlite.reliable
           [AddNodes [NodeCreate.mk "A" "Ada" {[ "label"%string := VStr "PERSON" ]}];
            AddEdges [edge_A_B; EdgeCreate.mk "A" "B" "admires" (1 # 2)%Q]]
           GraphEngine.empty engine_after_calls);
    [exact Hkept|exact Hempty|vm_compute; reflexivity].
Defined.

(** ** Order of the two writes of a record (C4) *)






(** ** Neighbour queries *)

Section NeighborFacts.
Context `{HashOrder} {W : Type} {real : RealColumn W}.
Implicit Types (self : GraphEngine.t W) (g : DiGraph.t (option W)) (G : Graph.t).

Lemma elem_of_set_iter (X : gset string) x : x ∈ set_iter X ↔ x ∈ X.
Proof. by rewrite set_iter_perm, elem_of_elements. Qed.

Lemma NoDup_set_iter (X : gset string) : NoDup (set_iter X).
Proof. rewrite set_iter_perm. apply NoDup_elements. Qed.

Lemma set_iter_singleton (X : gset string) x : elements X = [x] → set_iter X = [x].
Proof.
  intros HX. apply Permutation_singleton_r. by rewrite set_iter_perm, HX.
Qed.

Lemma contains_dom g n :
  DiGraph.contains g n = true ↔ n ∈ dom (DiGraph._node g).
Proof.
  unfold DiGraph.contains. by rewrite bool_decide_eq_true, elem_of_dom.
Qed.

Lemma get_neighbors_absent self n depth :
  DiGraph.contains (GraphEngine.graph self) n = false →
  GraphEngine.get_neighbors self n depth = Some [].
Proof. unfold GraphEngine.get_neighbors. by intros ->. Qed.

Lemma get_neighbors_depth_1 self n :
  DiGraph.contains (GraphEngine.graph self) n = true →
  GraphEngine.get_neighbors self n 1 =
  Some (set_iter (list_to_set (DiGraph.successors (GraphEngine.graph self) n ++
                               DiGraph.predecessors (GraphEngine.graph self) n))).
Proof. unfold GraphEngine.get_neighbors. by intros ->. Qed.

(** At depth 1 the method returns the successors and the predecessors of a
    node of the graph, each once; the node itself is among them when it has
    an edge to itself. *)
Lemma get_neighbors_depth_1_spec self n l :
  DiGraph.contains (GraphEngine.graph self) n = true →
  GraphEngine.get_neighbors self n 1 = Some l →
  NoDup l ∧
  ∀ x, x ∈ l ↔ x ∈ DiGraph.successors (GraphEngine.graph self) n ∨
               x ∈ DiGraph.predecessors (GraphEngine.graph self) n.
Proof.
  intros Hin. rewrite get_neighbors_depth_1 by done. intros [= <-].
  split; [apply NoDup_set_iter|].
  intros x. by rewrite elem_of_set_iter, elem_of_list_to_set, elem_of_app.
Qed.

(** *** The undirected copy has every node of the graph *)

Lemma Graph_ensure_node_is_Some n x G :
  is_Some (G !! x) → is_Some (Graph.ensure_node n G !! x).
Proof.
  unfold Graph.ensure_node. destruct (G !! n) eqn:E; [done|].
  intros Hx. destruct (decide (n = x)) as [->|Hne].
  - by rewrite lookup_insert_eq.
  - by rewrite lookup_insert_ne.
Qed.

Lemma Graph_add_edge_is_Some u v x G :
  is_Some (G !! x) → is_Some (Graph.add_edge u v G !! x).
Proof.
  intros Hx. unfold Graph.add_edge.
  apply lookup_insert_is_Some'. right.
  apply lookup_insert_is_Some'. right.
  by do 2 apply Graph_ensure_node_is_Some.
Qed.

Lemma to_undirected_is_Some g x :
  is_Some (DiGraph._node g !! x) → is_Some (to_undirected g !! x).
Proof.
  intros Hx. unfold to_undirected.
  assert (is_Some (((λ _ : metadata_t, (∅ : gset string)) <$> DiGraph._node g) !! x)) as Hinit.
  { rewrite lookup_fmap. destruct Hx as [m ->]. by eexists. }
  revert Hinit. generalize ((λ _ : metadata_t, (∅ : gset string)) <$> DiGraph._node g).
  induction (DiGraph.edges g) as [|[u v] es IH]; intros G HG; simpl; [done|].
  apply IH. by apply Graph_add_edge_is_Some.
Qed.

(** Beyond depth 1 the method answers, and never with the queried node. *)
Lemma get_neighbors_deeper self n depth :
  depth ≠ 1 →
  DiGraph.contains (GraphEngine.graph self) n = true →
  GraphEngine.get_neighbors self n depth =
  Some (List.filter (λ x, negb (bool_decide (x = n)))
          ((BFS._single_shortest_path_length
              (to_undirected (GraphEngine.graph self)) [n] depth).*1)).
Proof.
  intros Hd Hin. unfold GraphEngine.get_neighbors. rewrite Hin. simpl.
  rewrite decide_False by done.
  unfold single_source_shortest_path_length.
  destruct (to_undirected_is_Some (GraphEngine.graph self) n) as [nbrs ->]; [|done].
  unfold DiGraph.contains in Hin. by apply bool_decide_eq_true in Hin.
Qed.

(** In every state, for every id and every depth, the method returns. *)
Lemma get_neighbors_total self n depth :
  ∃ l, GraphEngine.get_neighbors self n depth = Some l.
Proof.
  destruct (DiGraph.contains (GraphEngine.graph self) n) eqn:Hin.
  - destruct (decide (depth = 1)) as [->|Hd].
    + rewrite get_neighbors_depth_1 by done. by eexists.
    + rewrite get_neighbors_deeper by done. by eexists.
  - rewrite get_neighbors_absent by done. by eexists.
Qed.

Lemma get_neighbors_deeper_excludes self n depth l :
  depth ≠ 1 →
  GraphEngine.get_neighbors self n depth = Some l →
  n ∉ l.
Proof.
  intros Hd Hrun.
  destruct (DiGraph.contains (GraphEngine.graph self) n) eqn:Hin.
  - rewrite get_neighbors_deeper in Hrun by done. injection Hrun as <-.
    rewrite list_elem_of_In, filter_In. intros [_ Hn].
    by rewrite bool_decide_eq_true_2 in Hn.
  - rewrite get_neighbors_absent in Hrun by done. injection Hrun as <-.
    apply not_elem_of_nil.
Qed.

(** *** The search reaches more with one more level *)

Lemma scan_adj_yielded ws level st :
  ∃ more, BFS.yielded (BFS.scan_adj ws level st) = BFS.yielded st ++ more.
Proof.
  revert st. induction ws as [|w ws IH]; intros st; simpl.
  - exists []. by rewrite app_nil_r.
  - destruct (decide _); [apply IH|].
    destruct (IH (BFS.mk ({[w]} ∪ BFS.seen st) (BFS.nextlevel st ++ [w])
                    (BFS.yielded st ++ [(w, level)]))) as [more ->].
    simpl. exists ((w, level) :: more). by rewrite <- app_assoc.
Qed.

Lemma scan_level_yielded G vs level st :
  ∃ more, BFS.yielded (BFS.scan_level G vs level st).1 = BFS.yielded st ++ more.
Proof.
  revert st. induction vs as [|v vs IH]; intros st; simpl.
  - exists []. by rewrite app_nil_r.
  - destruct (scan_adj_yielded (Graph.adj G v) level st) as [more1 E1].
    destruct (decide _); simpl.
    + by exists more1.
    + destruct (IH (BFS.scan_adj (Graph.adj G v) level st)) as [more2 ->].
      rewrite E1. exists (more1 ++ more2). by rewrite <- app_assoc.
Qed.

Lemma levels_S G rounds level st :
  BFS.levels G (S rounds) level st =
  match BFS.nextlevel st with
  | [] => st
  | thislevel =>
      let '(st1, stop) :=
        BFS.scan_level G thislevel (level + 1)
          (BFS.mk (BFS.seen st) [] (BFS.yielded st)) in
      if stop then st1 else BFS.levels G rounds (level + 1) st1
  end.
Proof. reflexivity. Qed.

Lemma levels_yielded G rounds level st :
  ∃ more, BFS.yielded (BFS.levels G rounds level st) = BFS.yielded st ++ more.
Proof.
  revert level st. induction rounds as [|rounds IH]; intros level st.
  - exists []. by rewrite app_nil_r.
  - rewrite levels_S. destruct (BFS.nextlevel st) as [|v vs] eqn:Enext.
    + exists []. by rewrite app_nil_r.
    + pose proof (scan_level_yielded G (v :: vs) (level + 1)
                    (BFS.mk (BFS.seen st) [] (BFS.yielded st))) as [more1 E1].
      destruct (BFS.scan_level G (v :: vs) (level + 1) _) as [st1 stop].
      cbn [fst BFS.yielded] in E1. destruct stop; [by exists more1|].
      destruct (IH (level + 1) st1) as [more2 ->].
      rewrite E1. exists (more1 ++ more2). by rewrite <- app_assoc.
Qed.

Lemma levels_one_more G rounds level st :
  ∃ more, BFS.yielded (BFS.levels G (S rounds) level st) =
          BFS.yielded (BFS.levels G rounds level st) ++ more.
Proof.
  revert level st. induction rounds as [|rounds IH]; intros level st.
  - apply levels_yielded.
  - rewrite (levels_S G (S rounds)), (levels_S G rounds).
    destruct (BFS.nextlevel st) as [|v vs].
    + exists []. by rewrite app_nil_r.
    + destruct (BFS.scan_level G (v :: vs) (level + 1) _) as [st1 stop].
      destruct stop; [exists []; by rewrite app_nil_r|].
      apply IH.
Qed.

(** From depth 2 on, one more hop never loses an id. *)
Lemma get_neighbors_monotone_from_2 self n depth l1 l2 :
  2 ≤ depth →
  GraphEngine.get_neighbors self n depth = Some l1 →
  GraphEngine.get_neighbors self n (depth + 1) = Some l2 →
  l1 ⊆ l2.
Proof.
  intros Hd H1 H2.
  destruct (DiGraph.contains (GraphEngine.graph self) n) eqn:Hin.
  - rewrite get_neighbors_deeper in H1, H2 by (done || lia).
    injection H1 as <-. injection H2 as <-.
    unfold BFS._single_shortest_path_length.
    replace (Z.to_nat (depth + 1)) with (S (Z.to_nat depth)) by lia.
    destruct (levels_one_more (to_undirected (GraphEngine.graph self)) (Z.to_nat depth) 0
                (BFS.mk (list_to_set [n]) [n] ((λ v, (v, 0)) <$> [n]))) as [more ->].
    intros x. rewrite !list_elem_of_In, !filter_In, <- !list_elem_of_In.
    rewrite fmap_app, elem_of_app. tauto.
  - rewrite get_neighbors_absent in H1 by done. injection H1 as <-.
    intros x Hx. by apply elem_of_nil in Hx.
Qed.

(** *** The first level of the search is the depth-1 neighbourhood *)

Lemma elem_of_edges g u v :
  (u, v) ∈ DiGraph.edges g ↔ is_Some (DiGraph.edge_data g u v).
Proof.
  unfold DiGraph.edges, DiGraph.edge_data. rewrite list_elem_of_bind. split.
  - intros ([u' nbrs] & Hin & Hsucc). apply elem_of_map_to_list in Hsucc.
    apply list_elem_of_fmap in Hin as (v' & [= -> ->] & Hv).
    rewrite Hsucc. simpl. by apply elem_of_dom, elem_of_elements.
  - destruct (DiGraph._succ g !! u) as [nbrs|] eqn:Hsucc; simpl; [|by intros []].
    intros Hv. exists (u, nbrs). split; [|by apply elem_of_map_to_list].
    apply list_elem_of_fmap. exists v. split; [done|].
    by apply elem_of_elements, elem_of_dom.
Qed.

Lemma Graph_ensure_node_lookup_total n x G :
  Graph.ensure_node n G !!! x = G !!! x.
Proof.
  unfold Graph.ensure_node. destruct (G !! n) eqn:E; [done|].
  destruct (decide (n = x)) as [->|Hne].
  - by rewrite lookup_total_insert_eq, lookup_total_alt, E.
  - by rewrite lookup_total_insert_ne.
Qed.

Lemma Graph_add_edge_adj u v G n x :
  x ∈ Graph.add_edge u v G !!! n ↔
  x ∈ G !!! n ∨ (n = u ∧ x = v) ∨ (n = v ∧ x = u).
Proof.
  unfold Graph.add_edge.
  set (G1 := Graph.ensure_node v (Graph.ensure_node u G)).
  assert (∀ k, G1 !!! k = G !!! k) as HG1.
  { intros k. unfold G1. by rewrite !Graph_ensure_node_lookup_total. }
  destruct (decide (n = v)) as [->|Hnv].
  - rewrite lookup_total_insert_eq, elem_of_union, elem_of_singleton.
    destruct (decide (v = u)) as [->|Hvu].
    + rewrite lookup_total_insert_eq, elem_of_union, elem_of_singleton, HG1. tauto.
    + rewrite lookup_total_insert_ne by done. rewrite HG1. naive_solver.
  - rewrite lookup_total_insert_ne by done.
    destruct (decide (n = u)) as [->|Hnu].
    + rewrite lookup_total_insert_eq, elem_of_union, elem_of_singleton, HG1. naive_solver.
    + rewrite lookup_total_insert_ne by done. rewrite HG1. naive_solver.
Qed.

Lemma to_undirected_adj g n x :
  x ∈ to_undirected g !!! n ↔
  is_Some (DiGraph.edge_data g n x) ∨ is_Some (DiGraph.edge_data g x n).
Proof.
  unfold to_undirected. rewrite <- !elem_of_edges.
  assert (∀ G0 : Graph.t,
            x ∈ foldl (λ G '(u, v), Graph.add_edge u v G) G0 (DiGraph.edges g) !!! n ↔
            x ∈ G0 !!! n ∨ (n, x) ∈ DiGraph.edges g ∨ (x, n) ∈ DiGraph.edges g) as Hfold.
  { induction (DiGraph.edges g) as [|[u v] es IH]; intros G0; simpl.
    - rewrite !elem_of_nil. tauto.
    - rewrite IH, Graph_add_edge_adj, !elem_of_cons. naive_solver. }
  rewrite Hfold.
  assert (((λ _ : metadata_t, (∅ : gset string)) <$> DiGraph._node g) !!! n = ∅) as ->.
  { rewrite lookup_total_alt, lookup_fmap. by destruct (DiGraph._node g !! n). }
  set_solver.
Qed.

Lemma scan_adj_seen ws level st :
  seen_is_yielded st →
  seen_is_yielded (BFS.scan_adj ws level st) ∧
  ∀ w, w ∈ ws → w ∈ BFS.seen (BFS.scan_adj ws level st).
Proof.
  revert st. induction ws as [|w ws IH]; intros st Hst; simpl.
  - split; [done|]. intros w Hw. by apply elem_of_nil in Hw.
  - destruct (decide (w ∈ BFS.seen st)) as [Hin|Hout].
    + destruct (IH st Hst) as [Hinv Hall]. split; [done|].
      intros w' [->|Hw']%elem_of_cons; [|by apply Hall].
      apply Hinv. destruct (scan_adj_yielded ws level st) as [more ->].
      rewrite fmap_app, elem_of_app. left. by apply Hst.
    + set (st' := BFS.mk ({[w]} ∪ BFS.seen st) (BFS.nextlevel st ++ [w])
                    (BFS.yielded st ++ [(w, level)])).
      assert (seen_is_yielded st') as Hst'.
      { intros x. unfold st'. simpl.
        rewrite elem_of_union, elem_of_singleton, fmap_app, elem_of_app, (Hst x).
        simpl. rewrite list_elem_of_singleton. tauto. }
      destruct (IH st' Hst') as [Hinv Hall]. split; [done|].
      intros w' [->|Hw']%elem_of_cons; [|by apply Hall].
      apply Hinv. destruct (scan_adj_yielded ws level st') as [more ->].
      rewrite fmap_app, elem_of_app. left. apply Hst'. unfold st'. simpl. set_solver.
Qed.

Lemma first_level_yields_adj G n x rounds :
  x ∈ Graph.adj G n →
  x ∈ (BFS._single_shortest_path_length G [n] (Z.of_nat (S rounds))).*1.
Proof.
  intros Hx. unfold BFS._single_shortest_path_length.
  rewrite Nat2Z.id. rewrite levels_S. cbn [BFS.nextlevel BFS.seen BFS.yielded].
  cbn [BFS.scan_level].
  set (st0 := BFS.mk (list_to_set [n]) [] ((λ v, (v, 0)) <$> [n])).
  assert (seen_is_yielded st0) as Hst0.
  { intros y. unfold st0. simpl. set_solver. }
  destruct (scan_adj_seen (Graph.adj G n) (0 + 1) st0 Hst0) as [Hinv Hall].
  assert (x ∈ (BFS.yielded (BFS.scan_adj (Graph.adj G n) (0 + 1) st0)).*1) as Hyield
    by by apply Hinv, Hall.
  destruct (decide _); [done|]. cbn [BFS.scan_level].
  destruct (levels_yielded G rounds (0 + 1) (BFS.scan_adj (Graph.adj G n) (0 + 1) st0))
    as [more ->].
  rewrite fmap_app, elem_of_app. by left.
Qed.

(** Without an edge from [n] to itself the depth-1 answer is within the
    depth-2 answer. *)
Lemma get_neighbors_monotone_at_1 self n l1 l2 :
  DiGraph_mirror (GraphEngine.graph self) →
  DiGraph.edge_data (GraphEngine.graph self) n n = None →
  GraphEngine.get_neighbors self n 1 = Some l1 →
  GraphEngine.get_neighbors self n (1 + 1) = Some l2 →
  l1 ⊆ l2.
Proof.
  intros Hmir Hloop H1 H2.
  destruct (DiGraph.contains (GraphEngine.graph self) n) eqn:Hin.
  - destruct (get_neighbors_depth_1_spec self n l1 Hin H1) as [_ Hl1].
    rewrite get_neighbors_deeper in H2 by done. injection H2 as <-.
    intros x Hx. apply Hl1 in Hx.
    assert (is_Some (DiGraph.edge_data (GraphEngine.graph self) n x) ∨
            is_Some (DiGraph.edge_data (GraphEngine.graph self) x n)) as Hedge.
    { destruct Hx as [Hx|Hx].
      - left. by apply elem_of_successors.
      - right. apply elem_of_predecessors in Hx. by rewrite Hmir in Hx. }
    assert (x ≠ n) as Hne.
    { intros ->. rewrite Hloop in Hedge. by destruct Hedge as [[]|[]]. }
    rewrite list_elem_of_In, filter_In, <- list_elem_of_In. split.
    + apply (first_level_yields_adj _ n x 1).
      unfold Graph.adj. by apply elem_of_elements, to_undirected_adj.
    + by rewrite bool_decide_eq_false_2.
  - rewrite get_neighbors_absent in H1 by done. injection H1 as <-.
    intros x Hx. by apply elem_of_nil in Hx.
Qed.

(** X4.  The answers grow with the depth, from depth 1 on, for every node
    without an edge to itself: [get_neighbors(n, depth)] is within
    [get_neighbors(n, depth + 1)]. *)
Lemma get_neighbors_monotone_without_self_loop self n depth l1 l2 :
  DiGraph_mirror (GraphEngine.graph self) →
  DiGraph.edge_data (GraphEngine.graph self) n n = None →
  1 ≤ depth →
  GraphEngine.get_neighbors self n depth = Some l1 →
  GraphEngine.get_neighbors self n (depth + 1) = Some l2 →
  l1 ⊆ l2.
Proof.
  intros Hmir Hloop Hd H1 H2. destruct (decide (depth = 1)) as [->|Hne].
  - by apply (get_neighbors_monotone_at_1 self n).
  - apply (get_neighbors_monotone_from_2 self n depth); [lia|done..].
Qed.
End NeighborFacts.

(** ** Edges whose endpoints were never upserted (C5) *)

Lemma add_edges_loop_links {W} {real : RealColumn W} (accepts : Sqlite.storage W) edges
    (self self' : GraphEngine.t W) :
  DiGraph_wf (GraphEngine.graph self) →
  DiGraph_mirror (GraphEngine.graph self) →
  GraphEngine.add_edges_loop accepts edges self = Returned self' →
  DiGraph_wf (GraphEngine.graph self') ∧
  DiGraph_mirror (GraphEngine.graph self') ∧
  (∀ n, n ∈ dom (DiGraph._node (GraphEngine.graph self)) →
        n ∈ dom (DiGraph._node (GraphEngine.graph self'))) ∧
  (∀ s t, is_Some (DiGraph.edge_data (GraphEngine.graph self) s t) →
          is_Some (DiGraph.edge_data (GraphEngine.graph self') s t)) ∧
  (∀ edge, edge ∈ edges →
     EdgeCreate.source edge ∈ dom (DiGraph._node (GraphEngine.graph self')) ∧
     EdgeCreate.target edge ∈ dom (DiGraph._node (GraphEngine.graph self')) ∧
     is_Some (DiGraph.edge_data (GraphEngine.graph self')
                (EdgeCreate.source edge) (EdgeCreate.target edge))).
Proof.
  revert self. induction edges as [|edge rest IH]; intros self Hwf Hmir Hrun;
    simpl in Hrun.
  - inversion Hrun; subst. do 4 (split; [done|]).
    intros edge Hin. by apply elem_of_nil in Hin.
  - destruct (Sqlite.execute _ _ _) as [c|] eqn:Hexec; [|done].
    apply IH in Hrun as (Hwf' & Hmir' & Hdom & Hedge & Hnew);
      cbn [GraphEngine.graph] in *;
      [|by apply add_edge_wf|by apply add_edge_mirror].
    split; [done|]. split; [done|].
    assert (∀ n, n ∈ dom (DiGraph._node
              (DiGraph.add_edge (EdgeCreate.source edge) (EdgeCreate.target edge)
                 (EdgeData.mk (EdgeCreate.type edge) (Some (EdgeCreate.weight edge)))
                 (GraphEngine.graph self))) ↔
            n ∈ ({[EdgeCreate.source edge; EdgeCreate.target edge]} : gset string) ∨
            n ∈ dom (DiGraph._node (GraphEngine.graph self))) as Hadd.
    { intros n. rewrite add_edge_dom by done. apply elem_of_union. }
    split; [|split].
    + intros n Hn. apply Hdom, Hadd. by right.
    + intros s t Hst. apply Hedge. rewrite add_edge_edge_data.
      by destruct (decide _).
    + intros edge' [->|Hin]%elem_of_cons; [|by apply Hnew].
      split; [|split].
      * apply Hdom, Hadd. left. set_solver.
      * apply Hdom, Hadd. left. set_solver.
      * apply Hedge. rewrite add_edge_edge_data. by rewrite decide_True.
Qed.

(** C5, as stated, fails: A and B were never upserted as nodes, the edge
    A -> B was added, and [get_neighbors("A", 1)] is not empty. *)
Lemma orphan_edge_endpoint_has_neighbors :
  GraphEngine.add_edges Sqlite.reliable [edge_A_B] GraphEngine.empty
    = Returned engine_A_B ∧
  node_ids (Sqlite.committed (GraphEngine.conn engine_A_B)) = [] ∧
  GraphEngine.get_neighbors engine_A_B "A" 1 = Some ["B"%string].
Proof. repeat split; vm_compute; reflexivity. Qed.

(** C5, amended.  An edge is stored whether or not its endpoints were ever
    upserted as nodes.  After an [add_edges] call that returns, for every
    edge of the batch: the in-memory graph has an edge from its source to
    its target; the [edges] table has a committed row under its (source,
    target, type) key; the [nodes] table is as it was before the call, so
    that an endpoint without a row has none afterwards; and both endpoints
    are nodes of the in-memory graph all the same:
    [get_neighbors(source, 1)] contains the target and
    [get_neighbors(target, 1)] contains the source. *)
Theorem added_edge_links_its_endpoints `{HashOrder} {W} {real : RealColumn W}
    (accepts : Sqlite.storage W) edges (self self' : GraphEngine.t W) edge :
  DiGraph_wf (GraphEngine.graph self) →
  DiGraph_mirror (GraphEngine.graph self) →
  GraphEngine.add_edges accepts edges self = Returned self' →
  edge ∈ edges →
  is_Some (DiGraph.edge_data (GraphEngine.graph self')
             (EdgeCreate.source edge) (EdgeCreate.target edge)) ∧
  create_key edge ∈ edge_keys (Sqlite.committed (GraphEngine.conn self')) ∧
  Sqlite.nodes (Sqlite.committed (GraphEngine.conn self')) =
    Sqlite.nodes (Sqlite.working (GraphEngine.conn self)) ∧
  (∃ l, GraphEngine.get_neighbors self' (EdgeCreate.source edge) 1 = Some l ∧
        EdgeCreate.target edge ∈ l) ∧
  (∃ l, GraphEngine.get_neighbors self' (EdgeCreate.target edge) 1 = Some l ∧
        EdgeCreate.source edge ∈ l).
Proof.
  intros Hwf Hmir Hrun Hin.
  destruct edges as [|e0 rest]; [by apply elem_of_nil in Hin|].
  unfold GraphEngine.add_edges in Hrun.
  destruct (GraphEngine.add_edges_loop _ _ _) as [mid|] eqn:Hloop; [|done].
  apply commit_Returned in Hrun as (Hgraph & _ & Hcommitted).
  pose proof (add_edges_loop_rows _ _ _ _ Hloop) as [_ Hrows].
  pose proof (add_edges_loop_nodes_table _ _ _ _ Hloop) as Hnodes.
  apply add_edges_loop_links in Hloop as (_ & Hmir' & _ & _ & Hnew); [|done..].
  destruct (Hnew edge Hin) as (Hs & Ht & Hst). rewrite <- Hgraph in *.
  split; [done|]. split; [rewrite Hcommitted; by apply Hrows|].
  split; [by rewrite Hcommitted|].
  split.
  - rewrite get_neighbors_depth_1 by by apply contains_dom.
    eexists. split; [done|].
    rewrite elem_of_set_iter, elem_of_list_to_set, elem_of_app. left.
    by apply elem_of_successors.
  - rewrite get_neighbors_depth_1 by by apply contains_dom.
    eexists. split; [done|].
    rewrite elem_of_set_iter, elem_of_list_to_set, elem_of_app. right.
    apply elem_of_predecessors. by rewrite Hmir'.
Qed.

Lemma added_edge_links_its_endpoints_witness :
  DiGraph_wf (GraphEngine.graph (@GraphEngine.empty Q)) ∧
  DiGraph_mirror (GraphEngine.graph (@GraphEngine.empty Q)) ∧
  GraphEngine.add_edges Sqlite.reliable [edge_A_B] GraphEngine.empty
    = Returned engine_A_B ∧
  is_Some (DiGraph.edge_data (GraphEngine.graph engine_A_B) "A" "B") ∧
  ("A"%string, "B"%string, "creates"%string)
    ∈ edge_keys (Sqlite.committed (GraphEngine.conn engine_A_B)) ∧
  Sqlite.nodes (Sqlite.committed (GraphEngine.conn engine_A_B)) = [] ∧
  (∃ l, GraphEngine.get_neighbors engine_A_B "A" 1 = Some l ∧ "B"%string ∈ l) ∧
  (∃ l, GraphEngine.get_neighbors engine_A_B "B" 1 = Some l ∧ "A"%string ∈ l).
Proof.
  split; [apply wf_empty|]. split; [apply mirror_empty|].
  split; [vm_compute; reflexivity|].
  apply (added_edge_links_its_endpoints Sqlite.reliable [edge_A_B]
           GraphEngine.empty engine_A_B edge_A_B).
  - apply wf_empty.
  - apply mirror_empty.
  - vm_compute; reflexivity.
  - apply elem_of_cons. by left.
Defined.

(** ** A node with an edge to itself (C6, C7) *)

(** C6.  [get_neighbors(n, 1)] returns the node [n] itself when [n] has an
    edge to itself: the depth-1 branch does not drop the queried node, which
    the specification excludes and the deeper branch filters out. *)
Theorem get_neighbors_depth_1_keeps_self `{HashOrder} {W} (self : GraphEngine.t W) n :
  DiGraph.contains (GraphEngine.graph self) n = true →
  is_Some (DiGraph.edge_data (GraphEngine.graph self) n n) →
  ∃ l, GraphEngine.get_neighbors self n 1 = Some l ∧ n ∈ l.
Proof.
  intros Hin Hloop. rewrite get_neighbors_depth_1 by done.
  eexists. split; [done|].
  rewrite elem_of_set_iter, elem_of_list_to_set, elem_of_app. left.
  by apply elem_of_successors.
Qed.

Lemma get_neighbors_depth_1_keeps_self_witness :
  GraphEngine.add_edges Sqlite.reliable [edge_A_A] GraphEngine.empty
    = Returned engine_A_A ∧
  DiGraph.contains (GraphEngine.graph engine_A_A) "A" = true ∧
  is_Some (DiGraph.edge_data (GraphEngine.graph engine_A_A) "A" "A") ∧
  ∃ l, GraphEngine.get_neighbors engine_A_A "A" 1 = Some l ∧ "A"%string ∈ l.
Proof.
  split; [vm_compute; reflexivity|].
  split; [vm_compute; reflexivity|].
  split; [vm_compute; eauto|].
  apply (get_neighbors_depth_1_keeps_self engine_A_A "A").
  - vm_compute; reflexivity.
  - vm_compute; eauto.
Defined.

(** C7.  With an edge from [n] to itself the depth-1 answer is not within
    the depth-2 answer: the first contains [n], the second never does.
    (From depth 2 on the answers do grow with the depth:
    [get_neighbors_monotone_from_2].) *)
Theorem get_neighbors_depth_1_not_within_depth_2 `{HashOrder} {W}
    (self : GraphEngine.t W) n :
  DiGraph.contains (GraphEngine.graph self) n = true →
  is_Some (DiGraph.edge_data (GraphEngine.graph self) n n) →
  ∃ l1 l2, GraphEngine.get_neighbors self n 1 = Some l1 ∧
           GraphEngine.get_neighbors self n (1 + 1) = Some l2 ∧
           ¬ l1 ⊆ l2.
Proof.
  intros Hin Hloop.
  assert (∃ l1, GraphEngine.get_neighbors self n 1 = Some l1 ∧ n ∈ l1)
    as (l1 & H1 & Hn1).
  { rewrite get_neighbors_depth_1 by done. eexists. split; [done|].
    rewrite elem_of_set_iter, elem_of_list_to_set, elem_of_app. left.
    by apply elem_of_successors. }
  exists l1. eexists. split; [done|].
  split; [by apply get_neighbors_deeper|].
  intros Hsub. apply Hsub in Hn1.
  eapply (get_neighbors_deeper_excludes self n (1 + 1)); [done| |exact Hn1].
  by apply get_neighbors_deeper.
Qed.

Lemma get_neighbors_depth_1_not_within_depth_2_witness :
  DiGraph.contains (GraphEngine.graph engine_A_A) "A" = true ∧
  is_Some (DiGraph.edge_data (GraphEngine.graph engine_A_A) "A" "A") ∧
  GraphEngine.get_neighbors engine_A_A "A" 1 = Some ["A"%string] ∧
  GraphEngine.get_neighbors engine_A_A "A" 2 = Some [] ∧
  ∃ l1 l2, GraphEngine.get_neighbors engine_A_A "A" 1 = Some l1 ∧
           GraphEngine.get_neighbors engine_A_A "A" (1 + 1) = Some l2 ∧
           ¬ l1 ⊆ l2.
Proof.
  split; [vm_compute; reflexivity|].
  split; [vm_compute; eauto|].
  split; [vm_compute; reflexivity|].
  split; [vm_compute; reflexivity|].
  apply (get_neighbors_depth_1_not_within_depth_2 engine_A_A "A").
  - vm_compute; reflexivity.
  - vm_compute; eauto.
Defined.

(** ** Depth zero and below (C10) *)

(** C10.  For every graph state, every node id, present or absent, and
    every depth [<= 0], [get_neighbors] returns the empty list and raises
    nothing. *)
Theorem get_neighbors_nonpositive_depth `{HashOrder} {W} (self : GraphEngine.t W)
    node_id depth :
  depth ≤ 0 →
  GraphEngine.get_neighbors self node_id depth = Some [].
Proof.
  intros Hd.
  destruct (DiGraph.contains (GraphEngine.graph self) node_id) eqn:Hin.
  - rewrite get_neighbors_deeper by (done || lia).
    unfold BFS._single_shortest_path_length.
    replace (Z.to_nat depth) with 0%nat by lia. simpl.
    by rewrite bool_decide_eq_true_2.
  - by apply get_neighbors_absent.
Qed.

Lemma get_neighbors_nonpositive_depth_witness :
  (0 ≤ 0 ∧ GraphEngine.get_neighbors engine_A_B "A" 0 = Some []) ∧
  (-3 ≤ 0 ∧ GraphEngine.get_neighbors engine_A_B "Z" (-3) = Some []).
Proof.
  split; (split; [lia|]).
  - apply (get_neighbors_nonpositive_depth engine_A_B "A" 0). lia.
  - apply (get_neighbors_nonpositive_depth engine_A_B "Z" (-3)). lia.
Defined.

(** ** Sorting by score *)

Lemma Q_num_lt (x y : Q) : num_lt x y = true ↔ (x < y)%Q.
Proof.
  simpl. rewrite negb_true_iff, <- not_true_iff_false, Qle_bool_iff. split.
  - apply Qnot_le_lt.
  - apply Qlt_not_le.
Qed.

Lemma Q_num_not_lt (x y : Q) : num_lt x y = false ↔ (y <= x)%Q.
Proof.
  simpl. by rewrite negb_false_iff, Qle_bool_iff.
Qed.

Section SortedReverse.
Context {A : Type} (key : A → Q).

Lemma descending_trans : Transitive (descending key).
Proof.
  intros a b c Hab Hbc. unfold descending in *. by apply (Qle_trans _ (key b)).
Qed.

Lemma insert_desc_Permutation x l : insert_desc key x l ≡ₚ x :: l.
Proof.
  induction l as [|y l IH]; simpl; [done|].
  destruct (negb (Qle_bool (key y) (key x))); [|done].
  rewrite IH. apply Permutation_swap.
Qed.

Lemma sorted_reverse_Permutation l : sorted_reverse key l ≡ₚ l.
Proof.
  induction l as [|x l IH]; simpl; [done|].
  unfold sorted_reverse in IH. by rewrite insert_desc_Permutation, IH.
Qed.

Lemma insert_desc_HdRel y x l :
  descending key y x →
  HdRel (descending key) y l → HdRel (descending key) y (insert_desc key x l).
Proof.
  intros Hyx Hyl. destruct l as [|z l]; simpl.
  - by constructor.
  - destruct (negb (Qle_bool (key z) (key x))).
    + constructor. by inversion Hyl.
    + by constructor.
Qed.

Lemma insert_desc_Sorted x l :
  Sorted (descending key) l → Sorted (descending key) (insert_desc key x l).
Proof.
  induction 1 as [|y l Hl IH Hhd]; simpl.
  - by repeat constructor.
  - destruct (negb (Qle_bool (key y) (key x))) eqn:Hlt.
    + constructor; [done|]. apply insert_desc_HdRel; [|done].
      apply (Q_num_lt (key x) (key y)) in Hlt. by apply Qlt_le_weak.
    + constructor; [by constructor|]. constructor.
      by apply (Q_num_not_lt (key x) (key y)).
Qed.

Lemma sorted_reverse_Sorted l : Sorted (descending key) (sorted_reverse key l).
Proof.
  induction l as [|x l IH]; simpl; [constructor|].
  by apply insert_desc_Sorted.
Qed.

(** Stability: among the entries of one key the order is that of the
    input. *)
Lemma insert_desc_stable q x l :
  List.filter (λ a, Qeq_bool (key a) q) (insert_desc key x l) =
  List.filter (λ a, Qeq_bool (key a) q) (x :: l).
Proof.
  induction l as [|y l IH]; [done|].
  cbn [insert_desc num_lt Q_num].
  destruct (negb (Qle_bool (key y) (key x))) eqn:Hlt; [|done].
  apply (Q_num_lt (key x) (key y)) in Hlt.
  cbn [List.filter] in *. rewrite IH.
  destruct (Qeq_bool (key x) q) eqn:Hx; [|done].
  destruct (Qeq_bool (key y) q) eqn:Hy; [|done].
  apply Qeq_bool_iff in Hx, Hy. rewrite Hx, Hy in Hlt.
  by apply Qlt_irrefl in Hlt.
Qed.

Lemma sorted_reverse_stable q l :
  List.filter (λ a, Qeq_bool (key a) q) (sorted_reverse key l) =
  List.filter (λ a, Qeq_bool (key a) q) l.
Proof.
  induction l as [|x l IH]; [done|].
  change (sorted_reverse key (x :: l)) with (insert_desc key x (sorted_reverse key l)).
  rewrite insert_desc_stable. cbn [List.filter]. by rewrite IH.
Qed.

(** A list sorted by decreasing key that holds the entries [top], of
    strictly decreasing keys, and entries of smaller keys, starts with
    [top]. *)
Lemma Sorted_descending_prefix top rest l :
  Sorted (descending key) l →
  l ≡ₚ top ++ rest →
  StronglySorted (λ a b, (key b < key a)%Q) top →
  (∀ a z, a ∈ top → z ∈ rest → (key z < key a)%Q) →
  ∃ l', l = top ++ l' ∧ l' ≡ₚ rest.
Proof.
  revert l. induction top as [|a top IH]; intros l Hsorted Hperm Htop Hrest.
  - by exists l.
  - destruct l as [|r l].
    { apply Permutation_nil_cons in Hperm. done. }
    apply Sorted_StronglySorted in Hsorted; [|apply descending_trans].
    apply StronglySorted_inv in Hsorted as [Hl Hr].
    apply StronglySorted_inv in Htop as [Htop Ha].
    assert (r = a) as ->.
    { assert (r ∈ (a :: top) ++ rest) as Hrin by (rewrite <- Hperm; left).
      assert (a ∈ r :: l) as Hain by (rewrite Hperm; left).
      apply elem_of_cons in Hain as [->|Hain]; [done|].
      rewrite Forall_forall in Hr. apply Hr in Hain.
      unfold descending in Hain.
      simpl in Hrin. apply elem_of_cons in Hrin as [->|Hrin]; [done|].
      exfalso. apply (Qlt_not_le (key r) (key a)); [|done].
      apply elem_of_app in Hrin as [Hrin|Hrin].
      - rewrite Forall_forall in Ha. by apply Ha.
      - apply Hrest; [left|done]. }
    simpl in Hperm. apply Permutation_cons_inv in Hperm.
    destruct (IH l) as (l' & -> & Hl'); [by apply StronglySorted_Sorted|done|done| |].
    + intros a' z Ha' Hz. apply Hrest; [by right|done].
    + by exists l'.
Qed.
End SortedReverse.

(** ** The retriever *)

Section RetrieverFacts.
Context `{HashOrder} {W : Type} {real : RealColumn W}.

Lemma get_neighbors_depth_1_total (g : GraphEngine.t W) n :
  ∃ l, GraphEngine.get_neighbors g n 1 = Some l.
Proof.
  destruct (DiGraph.contains (GraphEngine.graph g) n) eqn:Hin.
  - rewrite get_neighbors_depth_1 by done. by eexists.
  - rewrite get_neighbors_absent by done. by eexists.
Qed.

(** The expansion stage never raises. *)
Lemma expand_total {F} `{Num F} (self : HybridEngine.t F W) hits acc :
  ∃ graph_boosts, HybridEngine.expand self hits acc = Some graph_boosts.
Proof.
  revert acc. induction hits as [|h hits IH]; intros acc; simpl; [by eexists|].
  destruct (get_neighbors_depth_1_total (HybridEngine.graph self) (Hit.id h)) as [l ->].
  apply IH.
Qed.

Lemma final_candidates_ids {F} `{Num F} (gw : F) (scores graph_boosts : gmap string F) :
  Candidate.id <$> HybridEngine.final_candidates gw scores graph_boosts =
  set_iter (dom scores ∪ dom graph_boosts).
Proof.
  unfold HybridEngine.final_candidates.
  induction (set_iter (dom scores ∪ dom graph_boosts)) as [|nid ids IH]; [done|].
  rewrite !fmap_cons, IH. done.
Qed.

(** *** Scores written by the anchor stage *)

Lemma vector_scores_foldl_absent (vw : Q) (hits : list (Hit.t Q)) (acc : gmap string Q) k :
  k ∉ Hit.id <$> hits →
  foldl (λ scores res, <[Hit.id res := num_mul (Hit.score res) vw]> scores) acc hits !! k
  = acc !! k.
Proof.
  revert acc. induction hits as [|h hits IH]; intros acc Hk; simpl; [done|].
  rewrite fmap_cons, not_elem_of_cons in Hk. destruct Hk as [Hne Hk].
  rewrite IH by done. by rewrite lookup_insert_ne.
Qed.

Lemma vector_scores_foldl_lookup (vw : Q) (hits : list (Hit.t Q)) (acc : gmap string Q) h :
  NoDup (Hit.id <$> hits) →
  h ∈ hits →
  foldl (λ scores res, <[Hit.id res := num_mul (Hit.score res) vw]> scores) acc hits
    !! Hit.id h
  = Some (Hit.score h * vw)%Q.
Proof.
  revert acc. induction hits as [|h0 hits IH]; intros acc Hnd Hin; simpl.
  - by apply elem_of_nil in Hin.
  - rewrite fmap_cons in Hnd. apply NoDup_cons in Hnd as [Hfresh Hnd].
    apply elem_of_cons in Hin as [->|Hin]; [|by apply IH].
    rewrite vector_scores_foldl_absent by done. by rewrite lookup_insert_eq.
Qed.

Lemma vector_scores_foldl_dom (vw : Q) (hits : list (Hit.t Q)) (acc : gmap string Q) :
  dom (foldl (λ scores res, <[Hit.id res := num_mul (Hit.score res) vw]> scores) acc hits)
  = list_to_set (Hit.id <$> hits) ∪ dom acc.
Proof.
  revert acc. induction hits as [|h hits IH]; intros acc; simpl.
  - set_solver.
  - rewrite IH, dom_insert_L. set_solver.
Qed.

Lemma vector_scores_lookup (vw : Q) (hits : list (Hit.t Q)) h :
  NoDup (Hit.id <$> hits) → h ∈ hits →
  HybridEngine.vector_scores vw hits !! Hit.id h = Some (Hit.score h * vw)%Q.
Proof. apply vector_scores_foldl_lookup. Qed.

Lemma vector_scores_dom (vw : Q) (hits : list (Hit.t Q)) :
  dom (HybridEngine.vector_scores vw hits) = list_to_set (Hit.id <$> hits).
Proof.
  unfold HybridEngine.vector_scores. rewrite vector_scores_foldl_dom. set_solver.
Qed.

(** With [graph_weight = 0] the final score is the vector score. *)
Lemma candidate_score_graph_weight_0 (scores graph_boosts : gmap string Q) nid :
  (Candidate.score (HybridEngine.candidate 0%Q scores graph_boosts nid)
   == default 0 (scores !! nid))%Q.
Proof.
  unfold HybridEngine.candidate. cbn [Candidate.score num_add num_mul num_zero Q_num].
  by rewrite Qmult_0_r, Qplus_0_r.
Qed.

(** *** The ids that the expansion stage boosts *)

Lemma boost_neighbors_dom {F} `{Num F} (v_res : Hit.t F) neighbors (gb : gmap string F) :
  dom (HybridEngine.boost_neighbors v_res neighbors gb) = list_to_set neighbors ∪ dom gb.
Proof.
  revert gb. induction neighbors as [|x xs IH]; intros gb; simpl; [set_solver|].
  rewrite IH. destruct (gb !! x); rewrite dom_insert_L; set_solver.
Qed.

Lemma expand_dom {F} `{Num F} (self : HybridEngine.t F W) hits gb gb' :
  HybridEngine.expand self hits gb = Some gb' →
  dom gb' =
  dom gb ∪ ⋃ ((λ h, list_to_set (neighbors_1 (HybridEngine.graph self) (Hit.id h))) <$> hits).
Proof.
  revert gb. induction hits as [|h hits IH]; intros gb Hrun; simpl in Hrun.
  - inversion Hrun; subst. simpl. set_solver.
  - rewrite fmap_cons. cbn [union_list foldr].
    destruct (GraphEngine.get_neighbors _ _ _) as [ns|] eqn:Hn; [|done].
    apply IH in Hrun. rewrite Hrun, boost_neighbors_dom.
    unfold neighbors_1 at 2. rewrite Hn. simpl. set_solver.
Qed.

(** *** The score of a hit that is returned more than once *)

Lemma vector_scores_last (vw : Q) (hits : list (Hit.t Q)) k :
  HybridEngine.vector_scores vw hits !! k = (λ s, (s * vw)%Q) <$> last_hit_score hits k.
Proof.
  unfold HybridEngine.vector_scores, last_hit_score.
  assert (∀ acc : gmap string Q,
            foldl (λ scores res, <[Hit.id res := num_mul (Hit.score res) vw]> scores) acc hits !! k
            = match last (filter (λ h, Hit.id h = k) hits) with
              | Some h => Some (Hit.score h * vw)%Q
              | None => acc !! k
              end) as Hgen.
  { induction hits as [|h hits IH]; intros acc; [done|].
    cbn [foldl]. rewrite IH, filter_cons.
    destruct (decide (Hit.id h = k)) as [<-|Hne].
    - destruct (filter _ hits) as [|h' l] eqn:E; simpl.
      + by rewrite lookup_insert_eq.
      + destruct (last (h' :: l)) eqn:E'; [done|]. by apply last_None in E'.
    - destruct (last _); [done|]. by rewrite lookup_insert_ne. }
  rewrite Hgen. by destruct (last _).
Qed.
End RetrieverFacts.

(** ** Ranking (C8) *)

(** C8, as stated, fails: when the set of candidate ids is enumerated with
    B before A, the two candidates of equal score are returned as B, A. *)
Lemma equal_scores_keep_set_order :
  HybridEngine.hybrid_search (order := largest_id_first) engine_tie "q" 1%Q 0%Q 2
    = Returns result_tie ∧
  Candidate.id <$> result_tie = ["B"%string; "A"%string] ∧
  ¬ ties_by_ascending_id result_tie.
Proof.
  split; [vm_compute; reflexivity|]. split; [reflexivity|].
  intros Hties.
  specialize (Hties 0%nat 1%nat _ _ ltac:(lia) eq_refl eq_refl ltac:(reflexivity)).
  vm_compute in Hties. discriminate.
Qed.

(** C8, amended.  For every input the candidates, one per candidate id, are
    sorted by final score, largest first, by a stable sort: the returned
    list is the first [top_k] entries of a permutation of the candidates that
    is sorted by decreasing score and in which the candidates of one score
    keep the order they have among the candidates, which is the order in
    which the set of candidate ids is iterated.  The ranking is reached
    when the vector search has returned; an exception of the vector search
    leaves [hybrid_search] as it is. *)
Theorem ranking_is_stable_descending_sort `{HashOrder} {W}
    (self : HybridEngine.t Q W) query (vector_weight graph_weight : Q) top_k :
  match HybridEngine.vec self query (top_k * 2) with
  | Raises e =>
      HybridEngine.hybrid_search self query vector_weight graph_weight top_k = Raises e
  | Returns vector_results =>
      ∃ graph_boosts ranked,
        let scores := HybridEngine.vector_scores vector_weight vector_results in
        let candidates := HybridEngine.final_candidates graph_weight scores graph_boosts in
        HybridEngine.expand self vector_results ∅ = Some graph_boosts ∧
        HybridEngine.hybrid_search self query vector_weight graph_weight top_k
          = Returns (slice_to ranked top_k) ∧
        Candidate.id <$> candidates = set_iter (dom scores ∪ dom graph_boosts) ∧
        ranked ≡ₚ candidates ∧
        Sorted (descending Candidate.score) ranked ∧
        ∀ q, List.filter (λ c, Qeq_bool (Candidate.score c) q) ranked =
             List.filter (λ c, Qeq_bool (Candidate.score c) q) candidates
  end.
Proof.
  destruct (HybridEngine.vec self query (top_k * 2)) as [vector_results|e] eqn:Hvec.
  - destruct (expand_total self vector_results ∅) as [graph_boosts Hexp].
    exists graph_boosts. eexists. cbv zeta.
    split; [done|]. split.
    + unfold HybridEngine.hybrid_search. rewrite Hvec, Hexp. reflexivity.
    + split; [apply final_candidates_ids|].
      split; [apply sorted_reverse_Permutation|].
      split; [apply sorted_reverse_Sorted|].
      intros q. apply sorted_reverse_stable.
  - unfold HybridEngine.hybrid_search. by rewrite Hvec.
Qed.

(** ** Pure similarity ranking (C9) *)

(** C9, as stated, fails: with [vector_weight = 1], [graph_weight = 0] and
    [top_k = 2], the neighbour B of the only anchor A is returned, with
    score 0, although the collaborator did not return it. *)
Lemma graph_only_candidate_surfaces :
  HybridEngine.vec engine_one_anchor "q" (2 * 2) = Returns [Hit.mk "A" (9 # 10)%Q] ∧
  HybridEngine.hybrid_search engine_one_anchor "q" 1%Q 0%Q 2 = Returns result_one_anchor ∧
  Candidate.id <$> result_one_anchor = ["A"%string; "B"%string] ∧
  Forall2 (λ c s, (Candidate.score c == s)%Q) result_one_anchor [(9 # 10)%Q; 0%Q].
Proof.
  split; [reflexivity|]. split; [vm_compute; reflexivity|]. split; [reflexivity|].
  repeat constructor.
Qed.

Section PureSimilarity.
Context `{HashOrder} {W : Type}.

Lemma anchors_before_graph_only (hits : list (Hit.t Q)) (graph_boosts : gmap string Q) :
  NoDup (Hit.id <$> hits) →
  set_iter (dom (HybridEngine.vector_scores 1%Q hits) ∪ dom graph_boosts) ≡ₚ
  (Hit.id <$> hits) ++
  elements (dom graph_boosts ∖ dom (HybridEngine.vector_scores 1%Q hits)).
Proof.
  intros Hnd. apply NoDup_Permutation.
  - apply NoDup_set_iter.
  - apply NoDup_app. split; [done|]. split; [|apply NoDup_elements].
    intros x Hx. rewrite elem_of_elements, elem_of_difference, vector_scores_dom.
    rewrite elem_of_list_to_set. tauto.
  - intros x. rewrite elem_of_set_iter, elem_of_app, elem_of_elements.
    rewrite elem_of_union, elem_of_difference, vector_scores_dom, elem_of_list_to_set.
    destruct (decide (x ∈ Hit.id <$> hits)); tauto.
Qed.

(** With the weights 1 and 0 a candidate scores the similarity of the last
    hit that has its id, and 0 when no hit has. *)
Lemma candidate_score_1_0 (hits : list (Hit.t Q)) (graph_boosts : gmap string Q) nid :
  (Candidate.score
     (HybridEngine.candidate 0%Q (HybridEngine.vector_scores 1%Q hits) graph_boosts nid)
   == default 0 (last_hit_score hits nid))%Q.
Proof.
  rewrite candidate_score_graph_weight_0, vector_scores_last.
  destruct (last_hit_score hits nid); simpl; [apply Qmult_1_r|done].
Qed.

Lemma filter_none {A} (P : A → Prop) `{∀ x, Decision (P x)} (l : list A) :
  Forall (λ x, ¬ P x) l → filter P l = [].
Proof.
  induction 1 as [|x l Hx _ IH]; [done|]. by rewrite filter_cons_False.
Qed.

Lemma last_hit_score_NoDup (hits : list (Hit.t Q)) h :
  NoDup (Hit.id <$> hits) → h ∈ hits →
  last_hit_score hits (Hit.id h) = Some (Hit.score h).
Proof.
  unfold last_hit_score. induction hits as [|h0 hits IH]; intros Hnd Hin.
  - by apply elem_of_nil in Hin.
  - rewrite fmap_cons in Hnd. apply NoDup_cons in Hnd as [Hfresh Hnd].
    rewrite filter_cons. apply elem_of_cons in Hin as [->|Hin].
    + rewrite decide_True by done.
      assert (filter (λ h, Hit.id h = Hit.id h0) hits = []) as ->; [|done].
      apply filter_none, Forall_forall. intros h' Hh' Heq. apply Hfresh.
      rewrite <- Heq. by apply list_elem_of_fmap_2.
    + rewrite decide_False; [by apply IH|].
      intros Heq. apply Hfresh. rewrite Heq. by apply list_elem_of_fmap_2.
Qed.

Lemma last_hit_score_None (hits : list (Hit.t Q)) nid :
  nid ∉ Hit.id <$> hits → last_hit_score hits nid = None.
Proof.
  intros Hnid. unfold last_hit_score.
  assert (filter (λ h, Hit.id h = nid) hits = []) as ->; [|done].
  apply filter_none, Forall_forall. intros h Hh Heq. apply Hnid.
  rewrite <- Heq. by apply list_elem_of_fmap_2.
Qed.

(** C9, amended.  With [vector_weight = 1] and [graph_weight = 0], whenever
    the collaborator returns, [hybrid_search] returns a ranking of all the
    candidates, cut by the slice [[:top_k]] to its first [top_k] entries:
    the candidates are the ids that the collaborator returned together
    with all their depth-1 neighbours, each once, by decreasing score.  A candidate that the collaborator returned
    scores its similarity (that of the last hit, when its id was returned
    more than once); every other candidate scores 0 and stays in the
    ranking.  When the collaborator returns at least [top_k] anchors, with
    distinct ids and with positive, strictly decreasing similarities, the
    result is the collaborator's first [top_k] anchors, in its order and
    with its scores. *)
Theorem weights_1_0_rank_by_similarity
    (self : HybridEngine.t Q W) query top_k (anchors : list (Hit.t Q)) :
  HybridEngine.vec self query (top_k * 2) = Returns anchors →
  ∃ ranked,
    HybridEngine.hybrid_search self query 1%Q 0%Q top_k = Returns (slice_to ranked top_k) ∧
    NoDup (Candidate.id <$> ranked) ∧
    (∀ x, x ∈ Candidate.id <$> ranked ↔
          x ∈ Hit.id <$> anchors ∨
          ∃ a, a ∈ anchors ∧ x ∈ neighbors_1 (HybridEngine.graph self) (Hit.id a)) ∧
    Sorted (descending Candidate.score) ranked ∧
    (∀ c s, c ∈ ranked → last_hit_score anchors (Candidate.id c) = Some s →
            (Candidate.score c == s)%Q) ∧
    (∀ c, c ∈ ranked → Candidate.id c ∉ Hit.id <$> anchors →
          (Candidate.score c == 0)%Q) ∧
    (NoDup (Hit.id <$> anchors) →
     StronglySorted (λ a b, (Hit.score b < Hit.score a)%Q) anchors →
     Forall (λ a, (0 < Hit.score a)%Q) anchors →
     0 ≤ top_k ≤ Z.of_nat (length anchors) →
     Candidate.id <$> slice_to ranked top_k = Hit.id <$> take (Z.to_nat top_k) anchors ∧
     Forall2 (λ c a, (Candidate.score c == Hit.score a)%Q)
       (slice_to ranked top_k) (take (Z.to_nat top_k) anchors)).
Proof.
  intros Hvec.
  destruct (expand_total self anchors ∅) as [graph_boosts Hexp].
  set (scores := HybridEngine.vector_scores 1%Q anchors).
  set (cand := HybridEngine.candidate 0%Q scores graph_boosts).
  set (candidates := HybridEngine.final_candidates 0%Q scores graph_boosts).
  set (ranked := sorted_reverse Candidate.score candidates).
  assert (ranked ≡ₚ candidates) as Hperm by apply sorted_reverse_Permutation.
  assert (∀ c, c ∈ ranked → c = cand (Candidate.id c)) as Hcand.
  { intros c Hc. rewrite Hperm in Hc. unfold candidates, HybridEngine.final_candidates in Hc.
    by apply list_elem_of_fmap in Hc as (nid & -> & _). }
  assert (∀ c, c ∈ ranked →
            (Candidate.score c == default 0 (last_hit_score anchors (Candidate.id c)))%Q)
    as Hscore.
  { intros c Hc. rewrite (Hcand c Hc) at 1. apply candidate_score_1_0. }
  exists ranked. split; [|split; [|split; [|split; [|split; [|split]]]]].
  - unfold HybridEngine.hybrid_search. by rewrite Hvec, Hexp.
  - rewrite Hperm. unfold candidates. rewrite final_candidates_ids. apply NoDup_set_iter.
  - intros x. rewrite Hperm. unfold candidates.
    rewrite final_candidates_ids, elem_of_set_iter, elem_of_union.
    unfold scores. rewrite vector_scores_dom, elem_of_list_to_set.
    rewrite (expand_dom _ _ _ _ Hexp), dom_empty_L, union_empty_l_L, elem_of_union_list.
    split; (intros [Hx|Hx]; [by left|right]).
    + destruct Hx as (X & (a & -> & Ha)%list_elem_of_fmap & Hx).
      exists a. split; [done|]. by apply elem_of_list_to_set in Hx.
    + destruct Hx as (a & Ha & Hx). eexists. split.
      * apply list_elem_of_fmap. by exists a.
      * by apply elem_of_list_to_set.
  - apply sorted_reverse_Sorted.
  - intros c s Hc Hs. rewrite (Hscore c Hc), Hs. done.
  - intros c Hc Hid. rewrite (Hscore c Hc), last_hit_score_None by done. done.
  - intros Hnd Hsorted Hpos Hk.
    set (top := cand <$> (Hit.id <$> anchors)).
    set (rest := cand <$> elements (dom graph_boosts ∖ dom scores)).
    assert (∀ a, a ∈ anchors → (Candidate.score (cand (Hit.id a)) == Hit.score a)%Q)
      as Hanchor.
    { intros a Ha. unfold cand, scores.
      by rewrite candidate_score_1_0, last_hit_score_NoDup. }
    assert (∃ l', ranked = top ++ l') as [l' Hranked].
    { destruct (Sorted_descending_prefix Candidate.score top rest ranked)
        as (l' & Hl' & _); [| | | |by exists l'].
      - apply sorted_reverse_Sorted.
      - rewrite Hperm. unfold candidates, HybridEngine.final_candidates.
        unfold top, rest. rewrite <- fmap_app. apply fmap_Permutation.
        by apply anchors_before_graph_only.
      - unfold top. clear Hk Hexp Hvec Hcand Hscore Hperm.
        clearbody cand. clear Hnd Hpos.
        induction Hsorted as [|a l Hl IH Ha]; [constructor|].
        rewrite !fmap_cons. constructor.
        + apply IH. intros a' Ha'. apply Hanchor. by right.
        + rewrite Forall_forall.
          intros c (i & -> & (b & -> & Hb)%list_elem_of_fmap)%list_elem_of_fmap.
          rewrite Forall_forall in Ha.
          rewrite (Hanchor a) by left. rewrite (Hanchor b) by by right. by apply Ha.
      - intros c z (i & -> & (a & -> & Ha)%list_elem_of_fmap)%list_elem_of_fmap
               (nid & -> & Hnid)%list_elem_of_fmap.
        rewrite (Hanchor a Ha). unfold cand, scores.
        rewrite candidate_score_1_0, last_hit_score_None.
        + rewrite Forall_forall in Hpos. by apply Hpos.
        + apply elem_of_elements, elem_of_difference in Hnid as [_ Hnid].
          unfold scores in Hnid.
          by rewrite vector_scores_dom, elem_of_list_to_set in Hnid. }
    assert (slice_to ranked top_k = take (Z.to_nat top_k) top) as ->.
    { rewrite Hranked. unfold slice_to.
      destruct (0 <=? top_k) eqn:Hk0; [|lia].
      rewrite take_app_le; [done|]. unfold top. rewrite !length_fmap. lia. }
    split.
    + unfold top. rewrite <- !fmap_take.
      induction (take (Z.to_nat top_k) anchors) as [|a l IH]; [done|].
      rewrite !fmap_cons. by rewrite IH.
    + unfold top. rewrite <- !fmap_take.
      assert (∀ a, a ∈ take (Z.to_nat top_k) anchors → a ∈ anchors) as Hsub.
      { intros a Ha. apply elem_of_take in Ha as (i & Ha & _).
        by eapply list_elem_of_lookup_2. }
      induction (take (Z.to_nat top_k) anchors) as [|a l IH]; [constructor|].
      rewrite !fmap_cons. constructor.
      * apply Hanchor, Hsub. left.
      * apply IH. intros a' Ha'. apply Hsub. by right.
Qed.
End PureSimilarity.

(** The run with the anchors A and C and the edge A -> B: the ranking holds
    the graph-only candidate B, with score 0, after the two anchors, and
    [top_k = 2] cuts it off. *)
Lemma weights_1_0_rank_by_similarity_witness :
  HybridEngine.vec engine_two_anchors "q" (2 * 2)
    = Returns [Hit.mk "A" (9 # 10)%Q; Hit.mk "C" (7 # 10)%Q] ∧
  ∃ ranked,
    HybridEngine.hybrid_search engine_two_anchors "q" 1%Q 0%Q 2
      = Returns (slice_to ranked 2) ∧
    "B"%string ∈ Candidate.id <$> ranked ∧
    (∀ c, c ∈ ranked → Candidate.id c = "B"%string → (Candidate.score c == 0)%Q) ∧
    Candidate.id <$> slice_to ranked 2 = ["A"%string; "C"%string].
Proof.
  split; [reflexivity|].
  destruct (weights_1_0_rank_by_similarity engine_two_anchors "q" 2
              [Hit.mk "A" (9 # 10)%Q; Hit.mk "C" (7 # 10)%Q] eq_refl)
    as (ranked & Hrun & _ & Hids & _ & _ & Hzero & Hfirst).
  exists ranked. split; [exact Hrun|]. split; [|split].
  - apply Hids. right. exists (Hit.mk "A" (9 # 10)%Q). split; [left|].
    vm_compute. left.
  - intros c Hc Hid. apply Hzero; [done|]. rewrite Hid. vm_compute.
    intros Hin. apply elem_of_cons in Hin as [[=]|Hin].
    apply elem_of_cons in Hin as [[=]|Hin]. by apply elem_of_nil in Hin.
  - apply Hfirst.
    + compute_done.
    + repeat constructor; reflexivity.
    + repeat constructor; reflexivity.
    + simpl. lia.
Defined.

(** ** The worked example (C1) *)

(** C1, as stated, fails: A is a neighbour of the anchor B (the edge is
    followed both ways), so A is boosted by 0.3 * 0.4 and its score is
    0.45 + 0.12 * 0.5 = 0.51, not 0.45. *)
Lemma worked_example_score_of_A_is_not_045 :
  ¬ is_specified_ranking
      (HybridEngine.hybrid_search engine_worked_example "q" (1 # 2)%Q (1 # 2)%Q 2).
Proof.
  intros (a & b & Hres & _ & Hscore & _).
  vm_compute in Hres. injection Hres as <- <-.
  vm_compute in Hscore. discriminate.
Qed.

Section WorkedExample.
Context `{HashOrder}.

Lemma set_iter_pair (X : gset string) x y :
  elements X ≡ₚ [x; y] → set_iter X = [x; y] ∨ set_iter X = [y; x].
Proof.
  intros HX. apply Permutation_length_2_inv. by rewrite set_iter_perm, HX.
Qed.

Lemma worked_example_neighbors_of_A :
  GraphEngine.get_neighbors engine_A_B "A" 1 = Some ["B"%string].
Proof.
  rewrite get_neighbors_depth_1 by (vm_compute; reflexivity).
  f_equal. apply set_iter_singleton. vm_compute. reflexivity.
Qed.

Lemma worked_example_neighbors_of_B :
  GraphEngine.get_neighbors engine_A_B "B" 1 = Some ["A"%string].
Proof.
  rewrite get_neighbors_depth_1 by (vm_compute; reflexivity).
  f_equal. apply set_iter_singleton. vm_compute. reflexivity.
Qed.

(** C1, amended.  In the scenario of the worked example, with
    [vector_weight = 0.5], [graph_weight = 0.5] and [top_k = 2], the
    returned list is A with score 0.51, then B with score 0.335, under
    every hash order: each anchor's score is its similarity times
    [vector_weight] plus the capped sum of 0.3 times the similarity of the
    anchors it neighbours, times [graph_weight], and A neighbours the
    anchor B just as B neighbours the anchor A. *)
Theorem worked_example_ranking :
  map (λ c, (Candidate.id c, Qred (Candidate.score c))) <$>
    HybridEngine.hybrid_search engine_worked_example "q" (1 # 2)%Q (1 # 2)%Q 2
  = Returns [("A"%string, (51 # 100)%Q); ("B"%string, (67 # 200)%Q)].
Proof.
  unfold HybridEngine.hybrid_search.
  cbn [HybridEngine.vec HybridEngine.graph engine_worked_example HybridEngine.expand Hit.id].
  rewrite worked_example_neighbors_of_A, worked_example_neighbors_of_B.
  unfold HybridEngine.final_candidates.
  match goal with
  | |- context [set_iter ?X] =>
      destruct (set_iter_pair X "A" "B") as [-> | ->];
      [vm_compute; reflexivity| |]
  end; vm_compute; reflexivity.
Qed.
End WorkedExample.

(** On binary64 numbers the run gives the doubles nearest to 0.51 and
    0.335. *)
Lemma worked_example_ranking_binary64 :
  map (λ c, (Candidate.id c, Candidate.score c)) <$>
    HybridEngine.hybrid_search engine_worked_example_binary64 "q" 0.5%float 0.5%float 2
  = Returns [("A"%string, 0x1.051eb851eb852p-1%float);     (* 0.51 *)
             ("B"%string, 0x1.570a3d70a3d71p-2%float)].    (* 0.335 *)
Proof. vm_compute. reflexivity. Qed.





(** * Further properties of the graph engine *)

(** ** The search returns the nodes within the cutoff *)

(** What one scan of [adj[v]] adds. *)
Lemma scan_adj_spec ws level st :
  seen_is_yielded st → NoDup (BFS.yielded st).*1 →
  let st' := BFS.scan_adj ws level st in
  (∀ x, x ∈ BFS.seen st' ↔ x ∈ BFS.seen st ∨ x ∈ ws) ∧
  (∀ x, x ∈ BFS.nextlevel st' ↔ x ∈ BFS.nextlevel st ∨ (x ∈ ws ∧ x ∉ BFS.seen st)) ∧
  seen_is_yielded st' ∧ NoDup (BFS.yielded st').*1.
Proof.
  revert st. induction ws as [|w ws IH]; intros st Hsy Hnd; cbn zeta.
  - simpl. split; [|split; [|done]]; intros x; rewrite elem_of_nil; tauto.
  - simpl. destruct (decide (w ∈ BFS.seen st)) as [Hin|Hout].
    + destruct (IH st Hsy Hnd) as (Hs & Hn & Hy & Hd). cbn zeta in *.
      split; [|split; [|done]]; intros x.
      * rewrite Hs, elem_of_cons. split; [tauto|]. intros [?|[->|?]]; tauto.
      * rewrite Hn, elem_of_cons. split; [tauto|]. intros [?|[[->|?] ?]]; tauto.
    + set (st1 := BFS.mk ({[w]} ∪ BFS.seen st) (BFS.nextlevel st ++ [w])
                    (BFS.yielded st ++ [(w, level)])).
      assert (seen_is_yielded st1) as Hsy1.
      { intros x. unfold st1. simpl.
        rewrite elem_of_union, elem_of_singleton, fmap_app, elem_of_app, (Hsy x).
        simpl. rewrite list_elem_of_singleton. tauto. }
      assert (NoDup (BFS.yielded st1).*1) as Hnd1.
      { unfold st1. simpl. rewrite fmap_app. apply NoDup_app. split; [done|].
        split; [|simpl; apply NoDup_singleton].
        intros x Hx. simpl. rewrite list_elem_of_singleton. intros ->.
        apply Hout. by apply Hsy. }
      destruct (IH st1 Hsy1 Hnd1) as (Hs & Hn & Hy & Hd). cbn zeta in *.
      split; [|split; [|done]]; intros x.
      * rewrite Hs, elem_of_cons. unfold st1. simpl.
        rewrite elem_of_union, elem_of_singleton. tauto.
      * rewrite Hn, elem_of_cons. unfold st1. simpl.
        rewrite elem_of_app, list_elem_of_singleton, elem_of_union, elem_of_singleton.
        destruct (decide (x = w)) as [->|Hne]; [tauto|]. tauto.
Qed.

Lemma scan_level_spec G vs level st :
  seen_is_yielded st → NoDup (BFS.yielded st).*1 →
  let st' := (BFS.scan_level G vs level st).1 in
  let stop := (BFS.scan_level G vs level st).2 in
  (∀ x, x ∈ BFS.seen st → x ∈ BFS.seen st') ∧
  (∀ x, x ∈ BFS.seen st' → x ∈ BFS.seen st ∨ ∃ v, v ∈ vs ∧ x ∈ G !!! v) ∧
  (stop = false → ∀ v x, v ∈ vs → x ∈ G !!! v → x ∈ BFS.seen st') ∧
  (stop = true → size (BFS.seen st') = size G) ∧
  (∀ x, x ∈ BFS.nextlevel st' ↔
        x ∈ BFS.nextlevel st ∨ (x ∈ BFS.seen st' ∧ x ∉ BFS.seen st)) ∧
  seen_is_yielded st' ∧ NoDup (BFS.yielded st').*1.
Proof.
  revert st. induction vs as [|v vs IH]; intros st Hsy Hnd; cbn zeta.
  - simpl. split; [done|]. split; [intros x Hx; by left|].
    split; [intros _ v x Hv; by apply elem_of_nil in Hv|].
    split; [done|]. split; [|done].
    intros x. split; [intros Hx; by left|]. intros [Hx|[Hx Hnx]]; done.
  - cbn [BFS.scan_level].
    destruct (scan_adj_spec (Graph.adj G v) level st Hsy Hnd) as (Hs1 & Hn1 & Hy1 & Hd1).
    cbn zeta in *.
    set (st1 := BFS.scan_adj (Graph.adj G v) level st) in *.
    assert (∀ x, x ∈ Graph.adj G v ↔ x ∈ G !!! v) as Hadj
      by (intros x; unfold Graph.adj; apply elem_of_elements).
    destruct (decide (size (BFS.seen st1) = size G)) as [Hfull|Hmore]; cbn [fst snd].
    + split; [intros x Hx; apply Hs1; by left|].
      split. { intros x [Hx|Hx]%Hs1; [by left|]. right. exists v. split; [left|by apply Hadj]. }
      split; [done|]. split; [done|]. split; [|done].
      intros x. rewrite Hn1, Hs1, Hadj. tauto.
    + destruct (IH st1 Hy1 Hd1) as (Ha & Hb & Hc & Hd & He & Hf & Hg). cbn zeta in *.
      split; [intros x Hx; apply Ha, Hs1; by left|].
      split.
      { intros x [Hx|(v' & Hv' & Hx)]%Hb.
        - apply Hs1 in Hx as [Hx|Hx]; [by left|].
          right. exists v. split; [left|by apply Hadj].
        - right. exists v'. split; [by right|done]. }
      split.
      { intros Hstop v' x [->|Hv']%elem_of_cons Hx.
        - apply Ha, Hs1. right. by apply Hadj.
        - by apply (Hc Hstop v'). }
      split; [done|]. split; [|done].
      intros x. rewrite He, Hn1, Hs1, Hadj. split.
      * intros [[Hx|[Hx Hnx]]|[Hx Hnx]]; [by left| |].
        -- right. split; [|done]. apply Ha, Hs1. right. by apply Hadj.
        -- right. split; [done|]. intros Hx'. apply Hnx. by left.
      * intros [Hx|[Hx Hnx]]; [by left; left|].
        destruct (decide (x ∈ G !!! v)) as [Hin|Hout].
        -- left. right. done.
        -- right. split; [done|]. intros [?|?]; done.
Qed.

Lemma hops_is_node G n k x :
  Graph_closed G → is_Some (G !! n) → hops G n k x → is_Some (G !! x).
Proof. intros Hcl Hn. induction 1; [done|]. by eapply Hcl. Qed.

Lemma hops_saturated G n k :
  (∀ x j, (j ≤ k)%nat → hops G n j x → ∃ j', (j' < k)%nat ∧ hops G n j' x) →
  ∀ j x, hops G n j x → ∃ j', (j' < k)%nat ∧ hops G n j' x.
Proof.
  intros Hsat j x Hx. induction Hx as [|j v w Hv IH Hw].
  - apply (Hsat n 0%nat); [lia|constructor].
  - destruct IH as (j' & Hj' & Hv').
    apply (Hsat w (S j')); [lia|]. by econstructor.
Qed.

Lemma levels_spec G n rounds level k prev st :
  Graph_closed G → is_Some (G !! n) →
  bfs_inv G n k prev st →
  let st' := BFS.levels G rounds level st in
  (∀ x, x ∈ BFS.seen st' ↔ ∃ j, (j ≤ k + rounds)%nat ∧ hops G n j x) ∧
  seen_is_yielded st' ∧ NoDup (BFS.yielded st').*1.
Proof.
  intros Hcl Hn. revert level k prev st.
  induction rounds as [|rounds IH]; intros level k prev st Hinv; cbn zeta.
  - simpl. destruct Hinv. split; [|done]. intros x. by rewrite Nat.add_0_r.
  - rewrite levels_S. destruct (BFS.nextlevel st) as [|v0 vs] eqn:Hnext.
    + destruct Hinv as [Hseen Hprev Hfr Hfs Hy Hd Hnodes]. split; [|done].
      intros x. split.
      * intros (j & Hj & Hx)%Hseen. exists j. split; [lia|done].
      * intros (j & _ & Hx). apply Hseen.
        destruct (hops_saturated G n k) with (j := j) (x := x) as (j' & Hj' & Hx'); [|done|].
        -- intros y i Hi Hy'. apply Hprev.
           destruct (decide (y ∈ prev)) as [|Hout]; [done|].
           exfalso. assert (y ∈ BFS.seen st) as Hys by (apply Hseen; eauto).
           specialize (Hfr y Hys Hout). rewrite Hnext in Hfr. by apply elem_of_nil in Hfr.
        -- exists j'. split; [lia|done].
    + set (st0 := BFS.mk (BFS.seen st) [] (BFS.yielded st)).
      destruct Hinv as [Hseen Hprev Hfr Hfs Hy Hd Hnodes].
      assert (seen_is_yielded st0) as Hy0 by done.
      assert (NoDup (BFS.yielded st0).*1) as Hd0 by done.
      destruct (scan_level_spec G (v0 :: vs) (level + 1) st0 Hy0 Hd0)
        as (Ha & Hb & Hc & Hsz & He & Hf & Hg). cbn zeta in *.
      destruct (BFS.scan_level G (v0 :: vs) (level + 1) st0) as [st1 stop].
      cbn [fst snd] in *. unfold st0 in Ha, Hb, Hc, He. cbn [BFS.seen BFS.nextlevel] in *.
      rewrite <- Hnext in *.
      assert (∀ x, x ∈ BFS.seen st1 → ∃ j, (j ≤ S k)%nat ∧ hops G n j x) as Hsound.
      { intros x [Hx|(v & Hv & Hx)]%Hb.
        - apply Hseen in Hx as (j & Hj & Hx). exists j. split; [lia|done].
        - apply Hfs, Hseen in Hv as (j & Hj & Hv).
          exists (S j). split; [lia|]. by econstructor. }
      assert (∀ x, x ∈ BFS.seen st1 → is_Some (G !! x)) as Hnodes1.
      { intros x (j & _ & Hx)%Hsound. by eapply hops_is_node. }
      destruct stop.
      * split; [|done]. intros x. split.
        -- intros (j & Hj & Hx)%Hsound. exists j. split; [lia|done].
        -- intros (j & _ & Hx).
           assert (BFS.seen st1 = dom G) as ->.
           { apply set_subseteq_size_eq.
             - intros y Hy'. apply elem_of_dom. by apply Hnodes1.
             - rewrite size_dom, Hsz by done. done. }
           apply elem_of_dom. by eapply hops_is_node.
      * assert (bfs_inv G n (S k) (BFS.seen st) st1) as Hinv1.
        { split; try done.
          - intros x. split; [apply Hsound|].
            intros (j & Hj & Hx).
            destruct (decide (j = S k)) as [->|Hne].
            + inversion Hx as [|j' v w Hv Hw]; subst.
              assert (v ∈ BFS.seen st) as Hvs by (apply Hseen; eauto).
              destruct (decide (v ∈ prev)) as [Hvp|Hvp].
              * apply Hprev in Hvp as (j' & Hj' & Hv').
                apply Ha, Hseen. exists (S j'). split; [lia|]. by econstructor.
              * apply (Hc eq_refl v); [|done]. by apply Hfr.
            + apply Ha, Hseen. exists j. split; [lia|done].
          - intros x. rewrite Hseen. split; intros (j & Hj & Hx); exists j; (split; [lia|done]).
          - intros x Hx Hnx. apply He. right. done.
          - intros x [Hx|[Hx _]]%He; [by apply elem_of_nil in Hx|done]. }
        destruct (IH (level + 1) (S k) (BFS.seen st) st1 Hinv1) as (Hres & Hy1 & Hd1).
        cbn zeta in *. split; [|done].
        intros x. rewrite Hres. split; intros (j & Hj & Hx); exists j; (split; [lia|done]).
Qed.

Section Reach.
Context `{HashOrder} {W : Type} {real : RealColumn W}.

Lemma Graph_add_edge_closed u v G :
  Graph_closed G → Graph_closed (Graph.add_edge u v G).
Proof.
  intros Hcl k x Hx. apply Graph_add_edge_adj in Hx.
  assert (is_Some (Graph.add_edge u v G !! u) ∧ is_Some (Graph.add_edge u v G !! v))
    as [Hu Hv].
  { unfold Graph.add_edge. split.
    - apply lookup_insert_is_Some'. right. apply lookup_insert_is_Some'. by left.
    - apply lookup_insert_is_Some'. by left. }
  destruct Hx as [Hx|[[-> ->]|[-> ->]]]; [|done..].
  apply Graph_add_edge_is_Some. by eapply Hcl.
Qed.

Lemma to_undirected_closed (g : DiGraph.t (option W)) : Graph_closed (to_undirected g).
Proof.
  unfold to_undirected.
  assert (Graph_closed ((λ _ : metadata_t, (∅ : gset string)) <$> DiGraph._node g)) as Hinit.
  { intros u v. rewrite lookup_total_alt, lookup_fmap.
    destruct (DiGraph._node g !! u); simpl; set_solver. }
  revert Hinit. generalize ((λ _ : metadata_t, (∅ : gset string)) <$> DiGraph._node g).
  induction (DiGraph.edges g) as [|[u v] es IH]; intros G HG; simpl; [done|].
  apply IH. by apply Graph_add_edge_closed.
Qed.

Lemma hops_walk (g : DiGraph.t (option W)) n k x :
  hops (to_undirected g) n k x ↔ walk g n k x.
Proof.
  split; induction 1; try constructor.
  - econstructor; [done|]. by apply to_undirected_adj.
  - econstructor; [done|]. by apply to_undirected_adj.
Qed.

(** The search from a node of the graph yields, each once, the nodes
    within the cutoff. *)
Lemma search_yields_within_cutoff (g : DiGraph.t (option W)) n depth :
  is_Some (DiGraph._node g !! n) →
  NoDup (BFS._single_shortest_path_length (to_undirected g) [n] depth).*1 ∧
  ∀ x, x ∈ (BFS._single_shortest_path_length (to_undirected g) [n] depth).*1 ↔
       ∃ j, (j ≤ Z.to_nat depth)%nat ∧ hops (to_undirected g) n j x.
Proof.
  intros Hin. unfold BFS._single_shortest_path_length.
  set (G := to_undirected g).
  set (st0 := BFS.mk (list_to_set [n]) [n] ((λ v, (v, 0)) <$> [n])).
  assert (is_Some (G !! n)) as Hn by by apply to_undirected_is_Some.
  assert (bfs_inv G n 0 ∅ st0) as Hinv.
  { split; unfold st0; simpl.
    - intros x. rewrite elem_of_union, elem_of_singleton. split.
      + intros [->|[]%elem_of_empty]. exists 0%nat. split; [lia|constructor].
      + intros (j & Hj & Hx). assert (j = 0%nat) as -> by lia. inversion Hx. by left.
    - intros x. split; [by intros ?%elem_of_empty|]. intros (j & Hj & _). lia.
    - intros x Hx _. set_solver.
    - intros x Hx. set_solver.
    - intros x. simpl. set_solver.
    - apply NoDup_singleton.
    - intros x Hx. assert (x = n) as -> by set_solver. done. }
  destruct (levels_spec G n (Z.to_nat depth) 0 0%nat ∅ st0 (to_undirected_closed _) Hn Hinv)
    as (Hseen & Hy & Hnd). cbn zeta in *.
  split; [done|]. intros x. by rewrite <- (Hy x), Hseen.
Qed.

(** X1.  For a node [n] of the graph and a depth other than 1,
    [get_neighbors(n, depth)] returns, each once, exactly the nodes other
    than [n] that a walk of at most [depth] edges reaches from [n], the
    edges being followed in either direction. *)
Theorem get_neighbors_deeper_is_reach (self : GraphEngine.t W) n depth l :
  depth ≠ 1 →
  DiGraph.contains (GraphEngine.graph self) n = true →
  GraphEngine.get_neighbors self n depth = Some l →
  NoDup l ∧
  ∀ x, x ∈ l ↔ x ≠ n ∧ ∃ k : nat, Z.of_nat k ≤ depth ∧ walk (GraphEngine.graph self) n k x.
Proof.
  intros Hd Hin. rewrite get_neighbors_deeper by done. intros [= <-].
  destruct (search_yields_within_cutoff (GraphEngine.graph self) n depth)
    as [Hnd Hys].
  { unfold DiGraph.contains in Hin. by apply bool_decide_eq_true in Hin. }
  split.
  - by apply NoDup_ListNoDup, List.NoDup_filter, NoDup_ListNoDup.
  - intros x. rewrite list_elem_of_In, filter_In, <- list_elem_of_In.
    rewrite Hys, negb_true_iff, bool_decide_eq_false. split.
    + intros [(j & Hj & Hx) Hne]. split; [done|]. exists j. split.
      * destruct j as [|j]; [|lia]. inversion Hx. congruence.
      * by apply hops_walk.
    + intros [Hne (j & Hj & Hx)]. split; [|done]. exists j. split; [lia|].
      by apply hops_walk.
Qed.
End Reach.

Lemma get_neighbors_deeper_is_reach_witness :
  (2 ≠ 1 ∧
   DiGraph.contains (GraphEngine.graph engine_chain) "a" = true ∧
   GraphEngine.get_neighbors engine_chain "a" 2 = Some ["b"%string; "c"%string]) ∧
  NoDup ["b"%string; "c"%string] ∧
  ∀ x, x ∈ ["b"%string; "c"%string] ↔
       x ≠ "a"%string ∧
       ∃ k : nat, Z.of_nat k ≤ 2 ∧ walk (GraphEngine.graph engine_chain) "a" k x.
Proof.
  assert (2 ≠ 1) as Hd by lia.
  assert (DiGraph.contains (GraphEngine.graph engine_chain) "a" = true) as Hin
    by (vm_compute; reflexivity).
  assert (GraphEngine.get_neighbors engine_chain "a" 2 = Some ["b"%string; "c"%string])
    as Hrun by (vm_compute; reflexivity).
  split; [exact (conj Hd (conj Hin Hrun))|].
  apply (get_neighbors_deeper_is_reach engine_chain "a" 2 ["b"%string; "c"%string]
           Hd Hin Hrun).
Defined.

(** ** Restart: the graph rebuilt from the committed rows *)

Section Restart.
Context `{HashOrder} {W : Type} {real : RealColumn W}.
Implicit Types (self : GraphEngine.t W) (g : DiGraph.t (option W)) (db : Sqlite.database W).

Lemma load_nodes_returns rows g :
  Forall (λ r, binds (Sqlite.metadata r)) rows →
  ∃ g', GraphEngine.load_nodes (W:=W) rows g = Returned g'.
Proof.
  revert g. induction rows as [|r rows IH]; intros g Hall; simpl; [by eexists|].
  apply Forall_cons in Hall as [(meta_dict & -> & ->) Hall]. by apply IH.
Qed.

Lemma init_returns db : rows_bind db → ∃ self, GraphEngine.init db = Returned self.
Proof.
  intros Hb. unfold GraphEngine.init, GraphEngine._load_graph_from_db.
  cbn [GraphEngine.graph GraphEngine.conn Sqlite.connect Sqlite.working].
  destruct (load_nodes_returns (Sqlite.nodes db) DiGraph.empty Hb) as [g ->]. by eexists.
Qed.

Lemma json_dumps_Some m text : json_dumps m = Some text → text = Encoded m.
Proof. unfold json_dumps. destruct (bool_decide _); congruence. Qed.

Lemma add_nodes_loop_rows_bind accepts nodes self self' :
  rows_bind (Sqlite.working (GraphEngine.conn self)) →
  GraphEngine.add_nodes_loop accepts nodes self = Returned self' →
  rows_bind (Sqlite.working (GraphEngine.conn self')).
Proof.
  revert self. induction nodes as [|node rest IH]; intros self Hb Hrun; simpl in Hrun.
  - by inversion Hrun; subst.
  - destruct (DiGraph.add_node_binds _) eqn:Hbinds; simpl in Hrun; [|done].
    destruct (json_dumps _) as [text|] eqn:Hdumps; [|done].
    destruct (Sqlite.execute _ _ _) as [c|] eqn:Hexec; [|done].
    apply execute_Some in Hexec as ->. apply json_dumps_Some in Hdumps as ->.
    eapply IH; [|exact Hrun]. cbn [GraphEngine.conn Sqlite.run Sqlite.working].
    unfold rows_bind, Sqlite.insert_or_replace_node. cbn [Sqlite.nodes].
    apply Forall_app. split.
    + unfold rows_bind in Hb. rewrite Forall_forall in *. intros r [_ Hr]%list_elem_of_filter.
      by apply Hb.
    + apply Forall_singleton. by eexists.
Qed.

Lemma call_rows_bind accepts op self self' :
  rows_bind (Sqlite.working (GraphEngine.conn self)) →
  call accepts op self = Returned self' →
  rows_bind (Sqlite.working (GraphEngine.conn self')).
Proof.
  intros Hb Hrun. destruct op as [nodes|edges]; simpl in Hrun.
  - destruct nodes as [|node rest]; [by inversion Hrun; subst|].
    unfold GraphEngine.add_nodes in Hrun.
    destruct (GraphEngine.add_nodes_loop _ _ _) as [mid|] eqn:Hloop; [|done].
    apply add_nodes_loop_rows_bind in Hloop; [|done].
    apply commit_Returned in Hrun as (_ & Hw & _). by rewrite Hw.
  - destruct edges as [|edge rest]; [by inversion Hrun; subst|].
    unfold GraphEngine.add_edges in Hrun.
    destruct (GraphEngine.add_edges_loop _ _ _) as [mid|] eqn:Hloop; [|done].
    apply add_edges_loop_nodes_table in Hloop.
    apply commit_Returned in Hrun as (_ & Hw & _).
    unfold rows_bind in *. by rewrite Hw, Hloop.
Qed.

Lemma run_rows_bind accepts ops self self' :
  rows_bind (Sqlite.working (GraphEngine.conn self)) →
  run accepts ops self = Returned self' →
  rows_bind (Sqlite.working (GraphEngine.conn self')).
Proof.
  revert self. induction ops as [|op ops IH]; intros self Hb Hrun; simpl in Hrun.
  - by inversion Hrun; subst.
  - destruct (call accepts op self) as [mid|] eqn:Hcall; [|done].
    eapply IH; [|done]. by eapply call_rows_bind.
Qed.

(** Two graphs that follow the same tables have the same adjacency. *)
Lemma follows_same_adjacency g g' db :
  follows g db → follows g' db →
  dom (DiGraph._node g) = dom (DiGraph._node g') ∧
  DiGraph._succ g = DiGraph._succ g' ∧
  DiGraph._pred g = DiGraph._pred g'.
Proof.
  intros [[Hs Hp] Hm Hn He] [[Hs' Hp'] Hm' Hn' He'].
  assert (dom (DiGraph._node g) = dom (DiGraph._node g')) as Hdom.
  { apply set_eq. intros n. by rewrite Hn, Hn'. }
  split; [done|].
  assert (∀ (m m' : gmap string (gmap string (EdgeData.t (option W)))),
            dom m = dom m' →
            (∀ u v, m !! u ≫= (λ nbrs, nbrs !! v) = m' !! u ≫= (λ nbrs, nbrs !! v)) →
            m = m') as Hext.
  { intros m m' Hd Hlook. apply map_eq. intros u.
    destruct (m !! u) as [a|] eqn:Ea, (m' !! u) as [b|] eqn:Eb.
    - f_equal. apply map_eq. intros v. specialize (Hlook u v). by rewrite Ea, Eb in Hlook.
    - apply mk_is_Some, elem_of_dom in Ea. rewrite Hd in Ea.
      apply elem_of_dom in Ea as [? Ea]. congruence.
    - apply mk_is_Some, elem_of_dom in Eb. rewrite <- Hd in Eb.
      apply elem_of_dom in Eb as [? Eb]. congruence.
    - done. }
  split; apply Hext.
  - congruence.
  - intros u v. change (DiGraph.edge_data g u v = DiGraph.edge_data g' u v).
    by rewrite He, He'.
  - congruence.
  - intros v u. change (pred_data g v u = pred_data g' v u).
    by rewrite Hm, Hm', He, He'.
Qed.

Lemma get_neighbors_same_adjacency self self' n depth :
  dom (DiGraph._node (GraphEngine.graph self)) = dom (DiGraph._node (GraphEngine.graph self')) →
  DiGraph._succ (GraphEngine.graph self) = DiGraph._succ (GraphEngine.graph self') →
  DiGraph._pred (GraphEngine.graph self) = DiGraph._pred (GraphEngine.graph self') →
  GraphEngine.get_neighbors self n depth = GraphEngine.get_neighbors self' n depth.
Proof.
  intros Hdom Hsucc Hpred. unfold GraphEngine.get_neighbors.
  assert (DiGraph.contains (GraphEngine.graph self) n =
          DiGraph.contains (GraphEngine.graph self') n) as ->.
  { unfold DiGraph.contains. apply bool_decide_ext. by rewrite <- !elem_of_dom, Hdom. }
  unfold DiGraph.successors, DiGraph.predecessors. rewrite Hsucc, Hpred.
  assert (to_undirected (GraphEngine.graph self) = to_undirected (GraphEngine.graph self')) as ->; [|done].
  unfold to_undirected, DiGraph.edges. rewrite Hsucc. f_equal.
  apply map_eq. intros k. rewrite !lookup_fmap.
  destruct (DiGraph._node (GraphEngine.graph self) !! k) as [a|] eqn:Ea,
           (DiGraph._node (GraphEngine.graph self') !! k) as [b|] eqn:Eb; try done.
  - apply mk_is_Some, elem_of_dom in Ea. rewrite Hdom in Ea.
    apply elem_of_dom in Ea as [? Ea]. congruence.
  - apply mk_is_Some, elem_of_dom in Eb. rewrite <- Hdom in Eb.
    apply elem_of_dom in Eb as [? Eb]. congruence.
Qed.

(** X9.  Persistence round trip.  After any sequence of [add_nodes] and
    [add_edges] calls that all return and that pass no weight that the
    [REAL] column would alter (a NaN, the negative zero), starting on an
    empty store, a new engine opened on the committed database file starts
    up without an exception and has the same nodes and the same edges with
    the same type and weight; and for every node id and every depth,
    [get_neighbors] returns on both engines, with the same ids, in
    whatever order. *)
Theorem restart_keeps_nodes_and_neighbors accepts ops self :
  weights_kept ops →
  run accepts ops GraphEngine.empty = Returned self →
  ∃ self', GraphEngine.init (Sqlite.committed (GraphEngine.conn self)) = Returned self' ∧
    dom (DiGraph._node (GraphEngine.graph self')) = dom (DiGraph._node (GraphEngine.graph self)) ∧
    (∀ s t, DiGraph.edge_data (GraphEngine.graph self') s t =
            DiGraph.edge_data (GraphEngine.graph self) s t) ∧
    ∀ n depth, ∃ l l',
      GraphEngine.get_neighbors self n depth = Some l ∧
      GraphEngine.get_neighbors self' n depth = Some l' ∧
      l' ≡ₚ l.
Proof.
  intros Hkept Hrun.
  assert (consistent self) as [Hmir Hcom].
  { eapply run_consistent; [done| |exact Hrun].
    split; [apply mirrored_empty|done]. }
  assert (rows_bind (Sqlite.working (GraphEngine.conn self))) as Hb.
  { eapply run_rows_bind; [|exact Hrun]. constructor. }
  rewrite Hcom. destruct (init_returns _ Hb) as [self' Hinit].
  exists self'. split; [done|].
  pose proof (init_consistent _ _ Hinit) as [Hmir' _].
  assert (Sqlite.working (GraphEngine.conn self') = Sqlite.working (GraphEngine.conn self)) as Hsame.
  { unfold GraphEngine.init, GraphEngine._load_graph_from_db in Hinit.
    destruct (GraphEngine.load_nodes _ _); [|done]. by inversion Hinit. }
  unfold mirrored in Hmir'. rewrite Hsame in Hmir'.
  destruct (follows_same_adjacency _ _ _ Hmir' Hmir) as (Hdom & Hs & Hp).
  split; [done|]. split.
  - intros s t. unfold DiGraph.edge_data. by rewrite Hs.
  - intros n depth. destruct (get_neighbors_total self n depth) as [l Hl].
    exists l, l. split; [done|]. split; [|done].
    by rewrite (get_neighbors_same_adjacency self' self n depth).
Qed.
End Restart.

(** On binary64 numbers the round trip loses a NaN: the edge that was
    stored with it has the weight [None] after the restart. *)
Lemma restart_reads_nan_weight_as_None :
  ∃ self',
    GraphEngine.init (Sqlite.committed (GraphEngine.conn engine_A_B_nan)) = Returned self' ∧
    DiGraph.edge_data (GraphEngine.graph self') "A" "B"
      = Some (EdgeData.mk "creates" None) ∧
    DiGraph.edge_data (GraphEngine.graph engine_A_B_nan) "A" "B"
      = Some (EdgeData.mk "creates" (Some PrimFloat.nan)).
Proof. eexists. repeat split; vm_compute; reflexivity. Qed.

(** The dictionaries of the in-memory graph stay in step, whatever the
    calls write. *)
Lemma add_nodes_loop_graph_invariants {W} {real : RealColumn W} (accepts : Sqlite.storage W)
    nodes (self self' : GraphEngine.t W) :
  DiGraph_wf (GraphEngine.graph self) ∧ DiGraph_mirror (GraphEngine.graph self) →
  GraphEngine.add_nodes_loop accepts nodes self = Returned self' →
  DiGraph_wf (GraphEngine.graph self') ∧ DiGraph_mirror (GraphEngine.graph self').
Proof.
  revert self. induction nodes as [|node rest IH]; intros self [Hwf Hm] Hrun;
    simpl in Hrun.
  - by inversion Hrun; subst.
  - destruct (DiGraph.add_node_binds _); simpl in Hrun; [|done].
    destruct (json_dumps _) as [text|]; [|done].
    destruct (Sqlite.execute _ _ _) as [c|]; [|done].
    apply IH in Hrun; [done|]. cbn [GraphEngine.graph].
    split; [by apply add_node_wf|by apply add_node_mirror].
Qed.

Lemma run_graph_invariants {W} {real : RealColumn W} (accepts : Sqlite.storage W) ops
    (self : GraphEngine.t W) :
  run accepts ops GraphEngine.empty = Returned self →
  DiGraph_wf (GraphEngine.graph self) ∧ DiGraph_mirror (GraphEngine.graph self).
Proof.
  assert (∀ start : GraphEngine.t W,
            DiGraph_wf (GraphEngine.graph start) ∧ DiGraph_mirror (GraphEngine.graph start) →
            run accepts ops start = Returned self →
            DiGraph_wf (GraphEngine.graph self) ∧ DiGraph_mirror (GraphEngine.graph self))
    as Hgen.
  { induction ops as [|op ops IH]; intros start Hstart Hrun; simpl in Hrun.
    - by inversion Hrun; subst.
    - destruct (call accepts op start) as [mid|] eqn:Hcall; [|done].
      apply (IH mid); [|done]. destruct op as [nodes|edges]; simpl in Hcall.
      + destruct nodes as [|node rest]; [by inversion Hcall; subst|].
        unfold GraphEngine.add_nodes in Hcall.
        destruct (GraphEngine.add_nodes_loop _ _ _) as [mid'|] eqn:Hloop; [|done].
        apply commit_Returned in Hcall as (-> & _ & _).
        by eapply add_nodes_loop_graph_invariants.
      + destruct edges as [|edge rest]; [by inversion Hcall; subst|].
        unfold GraphEngine.add_edges in Hcall.
        destruct (GraphEngine.add_edges_loop _ _ _) as [mid'|] eqn:Hloop; [|done].
        apply commit_Returned in Hcall as (-> & _ & _).
        destruct Hstart as [Hwf Hm].
        by apply add_edges_loop_links in Hloop as (? & ? & _). }
  apply Hgen. split; [apply wf_empty|apply mirror_empty].
Qed.

Lemma restart_keeps_nodes_and_neighbors_witness :
  weights_kept
    [AddNodes [NodeCreate.mk "A" "Ada" {[ "label"%string := VStr "PERSON" ]}];
     AddEdges [edge_A_B; EdgeCreate.mk "A" "B" "admires" (1 # 2)%Q]] ∧
  run Sqlite.reliable
    [AddNodes [NodeCreate.mk "A" "Ada" {[ "label"%string := VStr "PERSON" ]}];
     AddEdges [edge_A_B; EdgeCreate.mk "A" "B" "admires" (1 # 2)%Q]]
    GraphEngine.empty = Returned engine_after_calls ∧
  ∃ self', GraphEngine.init (Sqlite.committed (GraphEngine.conn engine_after_calls))
             = Returned self' ∧
    dom (DiGraph._node (GraphEngine.graph self'))
      = dom (DiGraph._node (GraphEngine.graph engine_after_calls)) ∧
    (∀ s t, DiGraph.edge_data (GraphEngine.graph self') s t =
            DiGraph.edge_data (GraphEngine.graph engine_after_calls) s t) ∧
    ∀ n depth, ∃ l l',
      GraphEngine.get_neighbors engine_after_calls n depth = Some l ∧
      GraphEngine.get_neighbors self' n depth = Some l' ∧
      l' ≡ₚ l.
Proof.
  assert (weights_kept
            [AddNodes [NodeCreate.mk "A" "Ada" {[ "label"%string := VStr "PERSON" ]}];
             AddEdges [edge_A_B; EdgeCreate.mk "A" "B" "admires" (1 # 2)%Q]]) as Hkept
    by (intros edges edge _ _; reflexivity).
  assert (run Sqlite.reliable
            [AddNodes [NodeCreate.mk "A" "Ada" {[ "label"%string := VStr "PERSON" ]}];
             AddEdges [edge_A_B; EdgeCreate.mk "A" "B" "admires" (1 # 2)%Q]]
            GraphEngine.empty = Returned engine_after_calls) as Hrun
    by (vm_compute; reflexivity).
  split; [exact Hkept|]. split; [exact Hrun|].
  apply (restart_keeps_nodes_and_neighbors Sqlite.reliable
           [AddNodes [NodeCreate.mk "A" "Ada" {[ "label"%string := VStr "PERSON" ]}];
            AddEdges [edge_A_B; EdgeCreate.mk "A" "B" "admires" (1 # 2)%Q]]
           engine_after_calls Hkept Hrun).
Defined.

(** ** Start-up: the metadata of the loaded nodes *)

Section Hydration.
Context `{HashOrder} {W : Type} {real : RealColumn W}.
Implicit Types (self : GraphEngine.t W) (g : DiGraph.t (option W)) (db : Sqlite.database W).

Lemma add_node_lookup_other n attr g k :
  DiGraph_wf g → k ≠ n →
  DiGraph._node (DiGraph.add_node n attr g) !! k = DiGraph._node g !! k.
Proof.
  intros _ Hne. unfold DiGraph.add_node. destruct (DiGraph._succ g !! n); simpl.
  - by rewrite lookup_alter_ne.
  - by rewrite lookup_insert_ne.
Qed.

Lemma add_node_lookup_new n attr g :
  DiGraph_wf g → n ∉ dom (DiGraph._node g) →
  DiGraph._node (DiGraph.add_node n attr g) !! n = Some attr.
Proof.
  intros [Hs _] Hn. unfold DiGraph.add_node.
  rewrite <- Hs in Hn. apply not_elem_of_dom in Hn. rewrite Hn. simpl.
  by rewrite lookup_insert_eq, (right_id_L ∅ (∪)).
Qed.

Lemma ensure_node_lookup_Some n g k m :
  DiGraph_wf g → DiGraph._node g !! k = Some m →
  DiGraph._node (DiGraph.ensure_node n g) !! k = Some m.
Proof.
  intros [Hs _] Hk. unfold DiGraph.ensure_node.
  destruct (DiGraph._succ g !! n) eqn:E; [done|]. simpl.
  rewrite lookup_insert_ne; [done|]. intros ->.
  apply not_elem_of_dom in E. rewrite Hs in E. apply E. by apply elem_of_dom.
Qed.

Lemma add_edge_lookup_Some u v d g k m :
  DiGraph_wf g → DiGraph._node g !! k = Some m →
  DiGraph._node (DiGraph.add_edge u v d g) !! k = Some m.
Proof.
  intros Hwf Hk. unfold DiGraph.add_edge. simpl.
  apply ensure_node_lookup_Some; [by apply ensure_node_wf|].
  by apply ensure_node_lookup_Some.
Qed.

Lemma load_edges_lookup_Some rows g k m :
  DiGraph_wf g → DiGraph._node g !! k = Some m →
  DiGraph._node (GraphEngine.load_edges rows g) !! k = Some m.
Proof.
  revert g. induction rows as [|r rows IH]; intros g Hwf Hk; [done|].
  unfold GraphEngine.load_edges. cbn [foldl]. apply IH.
  - by apply add_edge_wf.
  - by apply add_edge_lookup_Some.
Qed.

Lemma load_nodes_wf rows g g' :
  DiGraph_wf g → GraphEngine.load_nodes (W:=W) rows g = Returned g' → DiGraph_wf g'.
Proof.
  revert g. induction rows as [|r rows IH]; intros g Hwf Hrun; simpl in Hrun.
  - by inversion Hrun; subst.
  - destruct (GraphEngine.decode_metadata _) as [meta_dict|]; [|done].
    destruct (DiGraph.add_node_binds _); [|done].
    eapply IH; [|exact Hrun]. by apply add_node_wf.
Qed.

(** A row that does not bind stops the start-up. *)
Lemma load_nodes_raises rows g :
  ¬ Forall (λ r, binds (Sqlite.metadata r)) rows →
  ∃ g', GraphEngine.load_nodes (W:=W) rows g = Raised TypeError g'.
Proof.
  revert g. induction rows as [|r rows IH]; intros g Hall; simpl.
  - destruct Hall. constructor.
  - destruct (GraphEngine.decode_metadata (Sqlite.metadata r)) as [meta_dict|raw] eqn:Hdec;
      [|by eexists].
    destruct (DiGraph.add_node_binds meta_dict) eqn:Hbinds; [|by eexists].
    apply IH. intros Hrest. apply Hall. constructor; [|done]. by exists meta_dict.
Qed.

Lemma load_nodes_lookup rows g g' r :
  DiGraph_wf g →
  NoDup (Sqlite.id <$> rows) →
  (∀ r', r' ∈ rows → Sqlite.id r' ∉ dom (DiGraph._node g)) →
  GraphEngine.load_nodes (W:=W) rows g = Returned g' →
  r ∈ rows →
  ∃ meta_dict,
    GraphEngine.decode_metadata (Sqlite.metadata r) = JDict meta_dict ∧
    DiGraph._node g' !! Sqlite.id r = Some meta_dict.
Proof.
  revert g. induction rows as [|r0 rows IH]; intros g Hwf Hnd Hfresh Hrun Hin; simpl in Hrun.
  - by apply elem_of_nil in Hin.
  - destruct (GraphEngine.decode_metadata (Sqlite.metadata r0)) as [meta_dict|] eqn:Hdec;
      [|done].
    destruct (DiGraph.add_node_binds _); [|done].
    rewrite fmap_cons in Hnd. apply NoDup_cons in Hnd as [Hr0 Hnd].
    assert (∀ rows g g' k m, DiGraph_wf g → k ∉ Sqlite.id <$> rows →
              DiGraph._node g !! k = Some m →
              GraphEngine.load_nodes (W:=W) rows g = Returned g' →
              DiGraph._node g' !! k = Some m) as Hkeep.
    { clear. induction rows as [|r rows IH]; intros g g' k m Hwf Hk Hlook Hrun; simpl in Hrun.
      - by inversion Hrun; subst.
      - destruct (GraphEngine.decode_metadata _) as [meta_dict|]; [|done].
        destruct (DiGraph.add_node_binds _); [|done].
        rewrite fmap_cons, not_elem_of_cons in Hk. destruct Hk as [Hne Hk].
        eapply IH; [by apply add_node_wf|done| |exact Hrun].
        by rewrite add_node_lookup_other. }
    apply elem_of_cons in Hin as [->|Hin].
    + exists meta_dict. split; [done|].
      eapply Hkeep; [by apply add_node_wf|done| |exact Hrun].
      apply add_node_lookup_new; [done|]. apply Hfresh. left.
    + eapply IH; [by apply add_node_wf|done| |exact Hrun|done].
      intros r' Hr'. rewrite add_node_dom by done.
      rewrite not_elem_of_union, not_elem_of_singleton. split.
      * intros Heq. apply Hr0. rewrite <- Heq. by apply list_elem_of_fmap_2.
      * apply Hfresh. by right.
Qed.

(** X8.  Start-up on a database file whose [nodes] table has one row per
    id.  When every stored text is the text of a JSON object without a key
    [self] or [node_for_adding], or a text that [json.loads] rejects,
    [__init__] returns, and every row has become a node whose attributes
    are the dictionary decoded from the row, the empty dictionary when the
    stored text does not decode.  When some stored text is not of that
    kind (a JSON list, string, number, [true], [false] or [null], or an
    object with such a key), [__init__] raises a [TypeError]. *)
Theorem startup_reads_metadata_from_rows db :
  NoDup (node_ids db) →
  (rows_bind db →
   ∃ self, GraphEngine.init db = Returned self ∧
     ∀ r, r ∈ Sqlite.nodes db →
       ∃ meta_dict,
         GraphEngine.decode_metadata (Sqlite.metadata r) = JDict meta_dict ∧
         DiGraph._node (GraphEngine.graph self) !! Sqlite.id r = Some meta_dict) ∧
  (¬ rows_bind db → ∃ self, GraphEngine.init db = Raised TypeError self).
Proof.
  intros Hnd. split.
  - intros Hb. destruct (init_returns db Hb) as [self Hinit].
    exists self. split; [done|]. intros r Hr.
    unfold GraphEngine.init, GraphEngine._load_graph_from_db in Hinit.
    cbn [GraphEngine.graph GraphEngine.conn Sqlite.connect Sqlite.working] in Hinit.
    destruct (GraphEngine.load_nodes _ _) as [g|] eqn:Hload; [|done].
    inversion Hinit; subst. cbn [GraphEngine.graph].
    destruct (load_nodes_lookup (Sqlite.nodes db) DiGraph.empty g r)
      as (meta_dict & Hdec & Hlook); [apply wf_empty|done| |done|done|].
    { intros r' _. simpl. rewrite dom_empty_L. set_solver. }
    exists meta_dict. split; [done|].
    apply load_edges_lookup_Some; [by eapply load_nodes_wf; [apply wf_empty|]|done].
  - intros Hb. unfold GraphEngine.init, GraphEngine._load_graph_from_db.
    cbn [GraphEngine.graph GraphEngine.conn Sqlite.connect Sqlite.working].
    destruct (load_nodes_raises (Sqlite.nodes db) DiGraph.empty Hb) as [g ->].
    by eexists.
Qed.
End Hydration.

(** On a table whose second row holds a text that [json.loads] rejects,
    start-up returns and the node of that row has no attribute; on a table
    whose second row holds the text of a JSON list, start-up raises. *)
Lemma startup_reads_metadata_from_rows_witness :
  (NoDup (node_ids database_with_corrupt_row) ∧
   rows_bind database_with_corrupt_row ∧
   ∃ self, GraphEngine.init database_with_corrupt_row = Returned self ∧
     DiGraph._node (GraphEngine.graph self) !! "a"%string
       = Some {[ "label"%string := VStr "PERSON" ]} ∧
     DiGraph._node (GraphEngine.graph self) !! "b"%string = Some ∅) ∧
  (NoDup (node_ids database_with_list_row) ∧
   ¬ rows_bind database_with_list_row ∧
   ∃ self, GraphEngine.init database_with_list_row = Raised TypeError self).
Proof.
  assert (NoDup (node_ids database_with_corrupt_row)) as Hnd by compute_done.
  assert (rows_bind database_with_corrupt_row) as Hb.
  { repeat constructor; eexists; (split; [reflexivity|vm_compute; reflexivity]). }
  assert (NoDup (node_ids database_with_list_row)) as Hnd' by compute_done.
  assert (¬ rows_bind database_with_list_row) as Hb'.
  { intros Hall. apply Forall_cons in Hall as [_ Hall].
    apply Forall_cons in Hall as [(meta_dict & Hdec & _) _]. discriminate. }
  split.
  - split; [exact Hnd|]. split; [exact Hb|].
    destruct (startup_reads_metadata_from_rows database_with_corrupt_row Hnd)
      as [Hreturns _].
    destruct (Hreturns Hb) as (self & Hinit & Hrows). exists self. split; [exact Hinit|].
    split.
    + destruct (Hrows (Sqlite.NodesRow "a" (Encoded {[ "label"%string := VStr "PERSON" ]})))
        as (meta_dict & [= <-] & Hlook); [left|exact Hlook].
    + destruct (Hrows (Sqlite.NodesRow "b" (Corrupt "{oops")))
        as (meta_dict & [= <-] & Hlook); [right; left|exact Hlook].
  - split; [exact Hnd'|]. split; [exact Hb'|].
    destruct (startup_reads_metadata_from_rows database_with_list_row Hnd')
      as [_ Hraises].
    exact (Hraises Hb').
Defined.

(** ** Upserts keep one row per primary key *)

Section NodeRows.
Context `{HashOrder} {W : Type} {real : RealColumn W}.
Implicit Types (self : GraphEngine.t W) (g : DiGraph.t (option W)) (db : Sqlite.database W).

Lemma insert_or_replace_node_NoDup (r : Sqlite.nodes_row) db :
  NoDup (node_ids db) → NoDup (node_ids (Sqlite.insert_or_replace_node r db)).
Proof.
  intros Hnd. unfold node_ids, Sqlite.insert_or_replace_node. cbn [Sqlite.nodes].
  rewrite fmap_app. apply NoDup_app. split; [|split].
  - unfold node_ids in Hnd. revert Hnd. induction (Sqlite.nodes db) as [|r' rows IH]; [done|].
    rewrite fmap_cons. intros [Hr' Hnd]%NoDup_cons.
    rewrite filter_cons. destruct (decide _); [|by apply IH].
    rewrite fmap_cons. apply NoDup_cons. split; [|by apply IH].
    intros (r'' & Heq & [_ Hin]%list_elem_of_filter)%list_elem_of_fmap.
    apply Hr'. rewrite Heq. by apply list_elem_of_fmap_2.
  - intros k (r' & -> & [Hk _]%list_elem_of_filter)%list_elem_of_fmap.
    simpl. rewrite list_elem_of_singleton. intros Heq. by apply Hk.
  - simpl. apply NoDup_singleton.
Qed.

Lemma insert_or_replace_node_rows (r : Sqlite.nodes_row) db row :
  row ∈ Sqlite.nodes (Sqlite.insert_or_replace_node r db) ↔
  row = r ∨ (row ∈ Sqlite.nodes db ∧ Sqlite.id row ≠ Sqlite.id r).
Proof.
  unfold Sqlite.insert_or_replace_node. cbn [Sqlite.nodes].
  rewrite elem_of_app, list_elem_of_filter, list_elem_of_singleton.
  unfold Sqlite.same_node_key. split.
  - intros [[? ?]|?]; [|by left]. right. split; [done|]. congruence.
  - intros [?|[? ?]]; [by right|]. left. split; [|done]. congruence.
Qed.

Lemma add_nodes_loop_last_write accepts nodes self self' :
  NoDup (node_ids (Sqlite.working (GraphEngine.conn self))) →
  GraphEngine.add_nodes_loop accepts nodes self = Returned self' →
  NoDup (node_ids (Sqlite.working (GraphEngine.conn self'))) ∧
  (∀ row, row ∈ Sqlite.nodes (Sqlite.working (GraphEngine.conn self)) →
          Sqlite.id row ∉ NodeCreate.id <$> nodes →
          row ∈ Sqlite.nodes (Sqlite.working (GraphEngine.conn self'))) ∧
  (∀ pre node post, nodes = pre ++ node :: post →
     NodeCreate.id node ∉ NodeCreate.id <$> post →
     Sqlite.NodesRow (NodeCreate.id node) (Encoded (NodeCreate.metadata node))
       ∈ Sqlite.nodes (Sqlite.working (GraphEngine.conn self'))).
Proof.
  revert self. induction nodes as [|node0 rest IH]; intros self Hnd Hrun; simpl in Hrun.
  - inversion Hrun; subst. split; [done|]. split; [done|].
    intros pre node post Heq. by destruct pre.
  - destruct (DiGraph.add_node_binds _); simpl in Hrun; [|done].
    destruct (json_dumps _) as [text|] eqn:Hdumps; [|done].
    destruct (Sqlite.execute _ _ _) as [c|] eqn:Hexec; [|done].
    apply execute_Some in Hexec as ->. apply json_dumps_Some in Hdumps as ->.
    apply IH in Hrun as (Hnd' & Hkeep & Hlast);
      [|cbn [GraphEngine.conn Sqlite.run Sqlite.working]; by apply insert_or_replace_node_NoDup].
    cbn [GraphEngine.conn Sqlite.run Sqlite.working] in Hkeep.
    split; [done|]. split.
    + intros row Hrow Hid. rewrite fmap_cons, not_elem_of_cons in Hid.
      destruct Hid as [Hne Hid]. apply Hkeep; [|done].
      apply insert_or_replace_node_rows. right. done.
    + intros pre node post Heq Hid. destruct pre as [|p pre]; simpl in Heq.
      * injection Heq as <- <-. apply Hkeep; [|done].
        apply insert_or_replace_node_rows. by left.
      * injection Heq as <- ->. by eapply Hlast.
Qed.

(** X5.  Upsert of nodes.  When the ids of the [nodes] table are pairwise
    distinct and [add_nodes] returns, they are still pairwise distinct in
    the committed table, and the one row of an id of the batch is the row
    written for its last record in the batch: its metadata column holds
    the metadata of that record. *)
Theorem add_nodes_keeps_one_row_per_id accepts pre node post self self' :
  NoDup (node_ids (Sqlite.working (GraphEngine.conn self))) →
  GraphEngine.add_nodes accepts (pre ++ node :: post) self = Returned self' →
  NodeCreate.id node ∉ NodeCreate.id <$> post →
  NoDup (node_ids (Sqlite.committed (GraphEngine.conn self'))) ∧
  ∀ row, row ∈ Sqlite.nodes (Sqlite.committed (GraphEngine.conn self')) →
         Sqlite.id row = NodeCreate.id node →
         row = Sqlite.NodesRow (NodeCreate.id node) (Encoded (NodeCreate.metadata node)).
Proof.
  intros Hnd Hrun Hid.
  assert (∃ mid, GraphEngine.add_nodes_loop accepts (pre ++ node :: post) self = Returned mid ∧
                 Sqlite.committed (GraphEngine.conn self') = Sqlite.working (GraphEngine.conn mid))
    as (mid & Hloop & Hcom).
  { unfold GraphEngine.add_nodes in Hrun. destruct (pre ++ node :: post) eqn:E.
    { by destruct pre. }
    rewrite <- E in *.
    destruct (GraphEngine.add_nodes_loop _ _ _) as [mid|]; [|done].
    apply commit_Returned in Hrun as (_ & _ & Hc). by exists mid. }
  apply add_nodes_loop_last_write in Hloop as (Hnd' & _ & Hlast); [|done].
  rewrite Hcom. split; [done|]. intros row Hrow Hrid.
  specialize (Hlast pre node post eq_refl Hid).
  set (new := Sqlite.NodesRow (NodeCreate.id node) (Encoded (NodeCreate.metadata node))) in *.
  apply list_elem_of_lookup in Hrow as [i Hi]. apply list_elem_of_lookup in Hlast as [j Hj].
  assert (i = j) as ->; [|congruence].
  eapply NoDup_lookup; [exact Hnd'| |].
  - unfold node_ids. rewrite list_lookup_fmap, Hi. simpl. by rewrite Hrid.
  - unfold node_ids. by rewrite list_lookup_fmap, Hj.
Qed.
End NodeRows.

Lemma add_nodes_keeps_one_row_per_id_witness :
  NoDup (node_ids (Sqlite.working (GraphEngine.conn engine_upsert_1))) ∧
  GraphEngine.add_nodes Sqlite.reliable ([] ++ upsert_second :: []) engine_upsert_1
    = Returned engine_upsert_2 ∧
  (NodeCreate.id upsert_second ∉ (NodeCreate.id <$> [])) ∧
  NoDup (node_ids (Sqlite.committed (GraphEngine.conn engine_upsert_2))) ∧
  ∀ row, row ∈ Sqlite.nodes (Sqlite.committed (GraphEngine.conn engine_upsert_2)) →
         Sqlite.id row = NodeCreate.id upsert_second →
         row = Sqlite.NodesRow (NodeCreate.id upsert_second)
                 (Encoded (NodeCreate.metadata upsert_second)).
Proof.
  assert (NoDup (node_ids (Sqlite.working (GraphEngine.conn engine_upsert_1)))) as Hnd
    by compute_done.
  assert (GraphEngine.add_nodes Sqlite.reliable ([] ++ upsert_second :: []) engine_upsert_1
          = Returned engine_upsert_2) as Hrun by (vm_compute; reflexivity).
  assert (NodeCreate.id upsert_second ∉ (NodeCreate.id <$> [])) as Hlast
    by apply not_elem_of_nil.
  split; [exact Hnd|]. split; [exact Hrun|]. split; [exact Hlast|].
  apply (add_nodes_keeps_one_row_per_id Sqlite.reliable [] upsert_second []
           engine_upsert_1 engine_upsert_2 Hnd Hrun Hlast).
Defined.

Section EdgeRows.
Context `{HashOrder} {W : Type} {real : RealColumn W}.
Implicit Types (self : GraphEngine.t W) (g : DiGraph.t (option W)) (db : Sqlite.database W).

Lemma insert_or_replace_edge_NoDup (r : Sqlite.edges_row W) db :
  NoDup (edge_keys db) → NoDup (edge_keys (Sqlite.insert_or_replace_edge r db)).
Proof.
  intros Hnd. unfold edge_keys, Sqlite.insert_or_replace_edge. cbn [Sqlite.edges].
  rewrite fmap_app. apply NoDup_app. split; [|split].
  - unfold edge_keys in Hnd. revert Hnd. induction (Sqlite.edges db) as [|r' rows IH]; [done|].
    rewrite fmap_cons. intros [Hr' Hnd]%NoDup_cons.
    rewrite filter_cons. destruct (decide _); [|by apply IH].
    rewrite fmap_cons. apply NoDup_cons. split; [|by apply IH].
    intros (r'' & Heq & [_ Hin]%list_elem_of_filter)%list_elem_of_fmap.
    apply Hr'. rewrite Heq. by apply (list_elem_of_fmap_2 (λ r, (Sqlite.source r, Sqlite.target r, Sqlite.type r))).
  - intros k (r' & -> & [Hk _]%list_elem_of_filter)%list_elem_of_fmap.
    simpl. rewrite list_elem_of_singleton. intros [= Hs Ht Hty]. by apply Hk.
  - simpl. apply NoDup_singleton.
Qed.

Lemma insert_or_replace_edge_rows (r : Sqlite.edges_row W) db row :
  row ∈ Sqlite.edges (Sqlite.insert_or_replace_edge r db) ↔
  row = r ∨ (row ∈ Sqlite.edges db ∧ edge_key row ≠ edge_key r).
Proof.
  unfold Sqlite.insert_or_replace_edge. cbn [Sqlite.edges].
  rewrite elem_of_app, list_elem_of_filter, list_elem_of_singleton.
  unfold Sqlite.same_edge_key, edge_key. split.
  - intros [[Hk ?]|?]; [|by left]. right. split; [done|].
    intros [= Hs Ht Hty]. apply Hk. by rewrite Hs, Ht, Hty.
  - intros [?|[? Hk]]; [by right|]. left. split; [|done].
    intros (Hs & Ht & Hty). apply Hk. by rewrite Hs, Ht, Hty.
Qed.


Lemma add_edges_loop_last_write accepts edges self self' :
  NoDup (edge_keys (Sqlite.working (GraphEngine.conn self))) →
  GraphEngine.add_edges_loop accepts edges self = Returned self' →
  NoDup (edge_keys (Sqlite.working (GraphEngine.conn self'))) ∧
  (∀ row, row ∈ Sqlite.edges (Sqlite.working (GraphEngine.conn self)) →
          edge_key row ∉ create_key <$> edges →
          row ∈ Sqlite.edges (Sqlite.working (GraphEngine.conn self'))) ∧
  (∀ s t, (s, t) ∉ create_pair <$> edges →
          DiGraph.edge_data (GraphEngine.graph self') s t =
          DiGraph.edge_data (GraphEngine.graph self) s t) ∧
  (∀ pre e post, edges = pre ++ e :: post →
     (create_key e ∉ create_key <$> post →
      edge_row e ∈ Sqlite.edges (Sqlite.working (GraphEngine.conn self'))) ∧
     (create_pair e ∉ create_pair <$> post →
      DiGraph.edge_data (GraphEngine.graph self') (EdgeCreate.source e) (EdgeCreate.target e)
      = Some (EdgeData.mk (EdgeCreate.type e) (Some (EdgeCreate.weight e))))).
Proof.
  revert self. induction edges as [|e0 rest IH]; intros self Hnd Hrun; simpl in Hrun.
  - inversion Hrun; subst. split; [done|]. split; [done|]. split; [done|].
    intros pre e post Heq. by destruct pre.
  - destruct (Sqlite.execute _ _ _) as [c|] eqn:Hexec; [|done].
    apply execute_Some in Hexec as ->.
    apply IH in Hrun as (Hnd' & Hkeep & Hmem & Hlast);
      [|cbn [GraphEngine.conn Sqlite.run Sqlite.working]; by apply insert_or_replace_edge_NoDup].
    cbn [GraphEngine.conn GraphEngine.graph Sqlite.run Sqlite.working] in Hkeep, Hmem.
    split; [done|]. split; [|split].
    + intros row Hrow Hk. rewrite fmap_cons, not_elem_of_cons in Hk.
      destruct Hk as [Hne Hk]. apply Hkeep; [|done].
      apply insert_or_replace_edge_rows. right. done.
    + intros s t Hst. rewrite fmap_cons, not_elem_of_cons in Hst. destruct Hst as [Hne Hst].
      rewrite Hmem by done. rewrite add_edge_edge_data.
      rewrite decide_False; [done|]. intros [-> ->]. by apply Hne.
    + intros pre e post Heq. destruct pre as [|p pre]; simpl in Heq.
      * injection Heq as <- <-. split.
        -- intros Hk. apply Hkeep; [|done]. apply insert_or_replace_edge_rows. by left.
        -- intros Hp. rewrite Hmem by done. rewrite add_edge_edge_data.
           by rewrite decide_True.
      * injection Heq as <- ->. by eapply Hlast.
Qed.

(** X6.  Upsert of edges.  When the (source, target, type) keys of the
    [edges] table are pairwise distinct and [add_edges] returns, they are
    still pairwise distinct in the committed table, and the one row of a
    key of the batch carries the weight of the last record of the batch
    with that key, as the [REAL] column stores it: NULL for a NaN, zero
    for the negative zero, the weight itself otherwise.  The in-memory
    graph keeps one edge per (source, target) pair, whatever the type: it
    carries the type and the weight of the last record of the batch for
    that pair, the weight as the record has it. *)
Theorem add_edges_keeps_one_row_per_key accepts pre e post self self' :
  NoDup (edge_keys (Sqlite.working (GraphEngine.conn self))) →
  GraphEngine.add_edges accepts (pre ++ e :: post) self = Returned self' →
  create_key e ∉ create_key <$> post →
  NoDup (edge_keys (Sqlite.committed (GraphEngine.conn self'))) ∧
  (∀ row, row ∈ Sqlite.edges (Sqlite.committed (GraphEngine.conn self')) →
          edge_key row = create_key e →
          row = Sqlite.EdgesRow (EdgeCreate.source e) (EdgeCreate.target e)
                  (EdgeCreate.type e) (real_column (EdgeCreate.weight e))) ∧
  (create_pair e ∉ create_pair <$> post →
   DiGraph.edge_data (GraphEngine.graph self') (EdgeCreate.source e) (EdgeCreate.target e)
   = Some (EdgeData.mk (EdgeCreate.type e) (Some (EdgeCreate.weight e)))).
Proof.
  intros Hnd Hrun Hk.
  assert (∃ mid, GraphEngine.add_edges_loop accepts (pre ++ e :: post) self = Returned mid ∧
                 Sqlite.committed (GraphEngine.conn self') = Sqlite.working (GraphEngine.conn mid) ∧
                 GraphEngine.graph self' = GraphEngine.graph mid)
    as (mid & Hloop & Hcom & Hg).
  { unfold GraphEngine.add_edges in Hrun. destruct (pre ++ e :: post) eqn:E.
    { by destruct pre. }
    rewrite <- E in *.
    destruct (GraphEngine.add_edges_loop _ _ _) as [mid|]; [|done].
    apply commit_Returned in Hrun as (? & _ & Hc). by exists mid. }
  apply add_edges_loop_last_write in Hloop as (Hnd' & _ & _ & Hlast); [|done].
  destruct (Hlast pre e post eq_refl) as [Hrow Hmem].
  rewrite Hcom, Hg. split; [done|]. split; [|done].
  intros row Hin Hrk. specialize (Hrow Hk). fold (edge_row e).
  apply list_elem_of_lookup in Hin as [i Hi]. apply list_elem_of_lookup in Hrow as [j Hj].
  assert (i = j) as ->; [|congruence].
  eapply NoDup_lookup; [exact Hnd'| |].
  - unfold edge_keys. by rewrite list_lookup_fmap, Hi.
  - unfold edge_keys. rewrite list_lookup_fmap, Hj. simpl. f_equal.
    unfold edge_key, create_key in Hrk. by rewrite Hrk.
Qed.
End EdgeRows.

Lemma add_edges_keeps_one_row_per_key_witness :
  NoDup (edge_keys (Sqlite.working (GraphEngine.conn engine_A_B))) ∧
  GraphEngine.add_edges Sqlite.reliable ([] ++ edge_A_B_again :: []) engine_A_B
    = Returned engine_A_B_again ∧
  (create_key edge_A_B_again ∉ (create_key <$> ([] : list (EdgeCreate.t Q)))) ∧
  NoDup (edge_keys (Sqlite.committed (GraphEngine.conn engine_A_B_again))) ∧
  (∀ row, row ∈ Sqlite.edges (Sqlite.committed (GraphEngine.conn engine_A_B_again)) →
          edge_key row = create_key edge_A_B_again →
          row = Sqlite.EdgesRow "A" "B" "creates" (Some (9 # 10)%Q)) ∧
  (create_pair edge_A_B_again ∉ (create_pair <$> ([] : list (EdgeCreate.t Q))) →
   DiGraph.edge_data (GraphEngine.graph engine_A_B_again) "A" "B"
   = Some (EdgeData.mk "creates" (Some (9 # 10)%Q))).
Proof.
  assert (NoDup (edge_keys (Sqlite.working (GraphEngine.conn engine_A_B)))) as Hnd
    by compute_done.
  assert (GraphEngine.add_edges Sqlite.reliable ([] ++ edge_A_B_again :: []) engine_A_B
          = Returned engine_A_B_again) as Hrun by (vm_compute; reflexivity).
  assert (create_key edge_A_B_again ∉ (create_key <$> ([] : list (EdgeCreate.t Q)))) as Hlast
    by apply not_elem_of_nil.
  split; [exact Hnd|]. split; [exact Hrun|]. split; [exact Hlast|].
  apply (add_edges_keeps_one_row_per_key Sqlite.reliable [] edge_A_B_again []
           engine_A_B engine_A_B_again Hnd Hrun Hlast).
Defined.

(** ** What a neighbour query answers *)

Section Symmetry.
Context `{HashOrder} {W : Type} {real : RealColumn W}.
Implicit Types (self : GraphEngine.t W) (g : DiGraph.t (option W)) (db : Sqlite.database W).

Lemma edge_endpoints_are_nodes g u v :
  DiGraph_wf g → DiGraph_mirror g →
  is_Some (DiGraph.edge_data g u v) →
  u ∈ dom (DiGraph._node g) ∧ v ∈ dom (DiGraph._node g).
Proof.
  intros [Hs Hp] Hm Huv. split.
  - rewrite <- Hs. apply elem_of_dom. unfold DiGraph.edge_data in Huv.
    destruct (DiGraph._succ g !! u); [done|]. by destruct Huv.
  - rewrite <- Hp. apply elem_of_dom. rewrite <- Hm in Huv. unfold pred_data in Huv.
    destruct (DiGraph._pred g !! v); [done|]. by destruct Huv.
Qed.

(** X3.  Neighbourhood at depth 1 is symmetric: when [get_neighbors(n, 1)]
    contains [x], [get_neighbors(x, 1)] contains [n]. *)
Theorem depth_1_neighbors_are_mutual self n x l :
  DiGraph_wf (GraphEngine.graph self) →
  DiGraph_mirror (GraphEngine.graph self) →
  GraphEngine.get_neighbors self n 1 = Some l →
  x ∈ l →
  ∃ l', GraphEngine.get_neighbors self x 1 = Some l' ∧ n ∈ l'.
Proof.
  intros Hwf Hm Hrun Hx.
  destruct (DiGraph.contains (GraphEngine.graph self) n) eqn:Hin.
  2:{ rewrite get_neighbors_absent in Hrun by done. injection Hrun as <-.
      by apply elem_of_nil in Hx. }
  destruct (get_neighbors_depth_1_spec self n l Hin Hrun) as [_ Hl].
  apply Hl in Hx.
  assert (is_Some (DiGraph.edge_data (GraphEngine.graph self) n x) ∨
          is_Some (DiGraph.edge_data (GraphEngine.graph self) x n)) as Hedge.
  { destruct Hx as [Hx|Hx].
    - left. by apply elem_of_successors.
    - right. apply elem_of_predecessors in Hx. by rewrite Hm in Hx. }
  assert (DiGraph.contains (GraphEngine.graph self) x = true) as Hxin.
  { apply contains_dom.
    destruct Hedge as [He|He]; apply edge_endpoints_are_nodes in He as [? ?]; done. }
  rewrite get_neighbors_depth_1 by done. eexists. split; [done|].
  rewrite elem_of_set_iter, elem_of_list_to_set, elem_of_app.
  destruct Hedge as [He|He].
  - right. apply elem_of_predecessors. by rewrite Hm.
  - left. by apply elem_of_successors.
Qed.


Lemma walk_is_node g n k x :
  DiGraph_wf g → DiGraph_mirror g →
  n ∈ dom (DiGraph._node g) → walk g n k x → x ∈ dom (DiGraph._node g).
Proof.
  intros Hwf Hm Hn. induction 1 as [|k v w _ _ [He|He]]; [done|..];
    by apply edge_endpoints_are_nodes in He as [? ?].
Qed.

(** X2.  On a graph whose dictionaries are in step, [get_neighbors]
    raises nothing, whatever the node id and the depth, and the ids it
    returns are pairwise distinct nodes of the graph. *)
Theorem get_neighbors_returns_distinct_nodes self n depth :
  DiGraph_wf (GraphEngine.graph self) →
  DiGraph_mirror (GraphEngine.graph self) →
  ∃ l, GraphEngine.get_neighbors self n depth = Some l ∧
       NoDup l ∧
       ∀ x, x ∈ l → DiGraph.contains (GraphEngine.graph self) x = true.
Proof.
  intros Hwf Hm.
  destruct (DiGraph.contains (GraphEngine.graph self) n) eqn:Hin.
  2:{ exists []. split; [by apply get_neighbors_absent|]. split; [constructor|].
      intros x Hx. by apply elem_of_nil in Hx. }
  destruct (decide (depth = 1)) as [->|Hd].
  - eexists. split; [by apply get_neighbors_depth_1|].
    split; [apply NoDup_set_iter|]. intros x.
    rewrite elem_of_set_iter, elem_of_list_to_set, elem_of_app, contains_dom.
    intros [Hx|Hx].
    + apply elem_of_successors in Hx.
      by apply edge_endpoints_are_nodes in Hx as [? ?].
    + apply elem_of_predecessors in Hx. rewrite Hm in Hx.
      by apply edge_endpoints_are_nodes in Hx as [? ?].
  - eexists. split; [by apply get_neighbors_deeper|].
    destruct (search_yields_within_cutoff (GraphEngine.graph self) n depth)
      as [Hnd Hys].
    { unfold DiGraph.contains in Hin. by apply bool_decide_eq_true in Hin. }
    split; [by apply NoDup_ListNoDup, List.NoDup_filter, NoDup_ListNoDup|].
    intros x. rewrite list_elem_of_In, filter_In, <- list_elem_of_In, Hys.
    intros [(j & _ & Hx) _]. apply hops_walk in Hx.
    apply contains_dom. eapply walk_is_node; [done..| |done]. by apply contains_dom.
Qed.
End Symmetry.

Lemma depth_1_neighbors_are_mutual_witness :
  DiGraph_wf (GraphEngine.graph engine_chain) ∧
  DiGraph_mirror (GraphEngine.graph engine_chain) ∧
  GraphEngine.get_neighbors engine_chain "b" 1 = Some ["c"%string; "a"%string] ∧
  "c"%string ∈ ["c"%string; "a"%string] ∧
  ∃ l', GraphEngine.get_neighbors engine_chain "c" 1 = Some l' ∧ "b"%string ∈ l'.
Proof.
  destruct (run_graph_invariants Sqlite.reliable [AddEdges [edge_a_b; edge_b_c]]
              engine_chain ltac:(vm_compute; reflexivity)) as [Hwf Hm].
  assert (GraphEngine.get_neighbors engine_chain "b" 1 = Some ["c"%string; "a"%string])
    as Hrun by (vm_compute; reflexivity).
  assert ("c"%string ∈ ["c"%string; "a"%string]) as Hin
    by (apply elem_of_cons; by left).
  split; [exact Hwf|]. split; [exact Hm|]. split; [exact Hrun|]. split; [exact Hin|].
  apply (depth_1_neighbors_are_mutual engine_chain "b" "c" ["c"%string; "a"%string]
           Hwf Hm Hrun Hin).
Defined.

Lemma get_neighbors_returns_distinct_nodes_witness :
  DiGraph_wf (GraphEngine.graph engine_chain) ∧
  DiGraph_mirror (GraphEngine.graph engine_chain) ∧
  ∃ l, GraphEngine.get_neighbors engine_chain "a" 5 = Some l ∧
       NoDup l ∧
       ∀ x, x ∈ l → DiGraph.contains (GraphEngine.graph engine_chain) x = true.
Proof.
  destruct (run_graph_invariants Sqlite.reliable [AddEdges [edge_a_b; edge_b_c]]
              engine_chain ltac:(vm_compute; reflexivity)) as [Hwf Hm].
  split; [exact Hwf|]. split; [exact Hm|].
  apply (get_neighbors_returns_distinct_nodes engine_chain "a" 5 Hwf Hm).
Defined.

Lemma get_neighbors_monotone_without_self_loop_witness :
  DiGraph_mirror (GraphEngine.graph engine_chain) ∧
  DiGraph.edge_data (GraphEngine.graph engine_chain) "a" "a" = None ∧
  1 ≤ 1 ∧
  GraphEngine.get_neighbors engine_chain "a" 1 = Some ["b"%string] ∧
  GraphEngine.get_neighbors engine_chain "a" (1 + 1) = Some ["b"%string; "c"%string] ∧
  ["b"%string] ⊆ ["b"%string; "c"%string].
Proof.
  destruct (run_graph_invariants Sqlite.reliable [AddEdges [edge_a_b; edge_b_c]]
              engine_chain ltac:(vm_compute; reflexivity)) as [_ Hm].
  assert (DiGraph.edge_data (GraphEngine.graph engine_chain) "a" "a" = None) as Hloop
    by (vm_compute; reflexivity).
  assert (1 ≤ 1) as Hd by lia.
  assert (GraphEngine.get_neighbors engine_chain "a" 1 = Some ["b"%string]) as H1
    by (vm_compute; reflexivity).
  assert (GraphEngine.get_neighbors engine_chain "a" (1 + 1)
          = Some ["b"%string; "c"%string]) as H2 by (vm_compute; reflexivity).
  split; [exact Hm|]. split; [exact Hloop|]. split; [exact Hd|].
  split; [exact H1|]. split; [exact H2|].
  apply (get_neighbors_monotone_without_self_loop engine_chain "a" 1
           ["b"%string] ["b"%string; "c"%string] Hm Hloop Hd H1 H2).
Defined.

(** ** No rollback *)

Section NoRollback.
Context {W : Type} {real : RealColumn W}.
Implicit Types (self mid : GraphEngine.t W) (accepts : Sqlite.storage W).


End NoRollback.


(** * The retriever: candidates, boosts and scores *)

Section Returned.
Context {F W : Type} {num : Num F} {real : RealColumn W} {order : HashOrder}.

Lemma insert_desc_Permutation_any {A} (key : A → F) x l : insert_desc key x l ≡ₚ x :: l.
Proof.
  induction l as [|y l IH]; simpl; [done|].
  destruct (num_lt (key x) (key y)); [|done].
  rewrite IH. apply Permutation_swap.
Qed.

Lemma sorted_reverse_Permutation_any {A} (key : A → F) l : sorted_reverse key l ≡ₚ l.
Proof.
  induction l as [|x l IH]; simpl; [done|].
  unfold sorted_reverse in IH. by rewrite insert_desc_Permutation_any, IH.
Qed.

Lemma slice_to_sublist {A} (l : list A) k : slice_to l k `sublist_of` l.
Proof. unfold slice_to. destruct (0 <=? k); apply sublist_take. Qed.

Lemma slice_to_length {A} (l : list A) k :
  0 ≤ k → (Z.of_nat (length (slice_to l k)) ≤ k).
Proof.
  intros Hk. unfold slice_to. rewrite (proj2 (Z.leb_le 0 k) Hk).
  rewrite length_take. lia.
Qed.

Lemma vector_scores_dom_any (vw : F) (hits : list (Hit.t F)) :
  dom (HybridEngine.vector_scores vw hits) = list_to_set (Hit.id <$> hits).
Proof.
  unfold HybridEngine.vector_scores.
  assert (∀ acc : gmap string F, dom (foldl (λ scores res, <[Hit.id res := num_mul (Hit.score res) vw]> scores) acc hits)
            = list_to_set (Hit.id <$> hits) ∪ dom acc) as Hgen.
  { induction hits as [|h hits IH]; intros acc; simpl; [set_solver|].
    rewrite IH, dom_insert_L. set_solver. }
  rewrite Hgen. set_solver.
Qed.

(** X12.  [hybrid_search] raises when the vector search raises, with the
    exception of the vector search, and only then: when the vector search
    returns, [hybrid_search] returns, whatever the graph, the weights and
    [top_k].  The ids of the entries it returns are pairwise distinct; for
    [top_k >= 0] there are at most [top_k] entries; and every entry is an
    anchor returned by the vector search or a depth-1 neighbour of one. *)
Theorem hybrid_search_returns_candidates (self : HybridEngine.t F W) query
    (vector_weight graph_weight : F) top_k :
  match HybridEngine.vec self query (top_k * 2) with
  | Raises e =>
      HybridEngine.hybrid_search self query vector_weight graph_weight top_k = Raises e
  | Returns hits =>
      ∃ result,
        HybridEngine.hybrid_search self query vector_weight graph_weight top_k
          = Returns result ∧
        NoDup (Candidate.id <$> result) ∧
        (0 ≤ top_k → Z.of_nat (length result) ≤ top_k) ∧
        ∀ c, c ∈ result →
          ∃ h, h ∈ hits ∧
               (Candidate.id c = Hit.id h ∨
                Candidate.id c ∈ neighbors_1 (HybridEngine.graph self) (Hit.id h))
  end.
Proof.
  unfold HybridEngine.hybrid_search.
  destruct (HybridEngine.vec self query (top_k * 2)) as [hits|e]; [|done].
  destruct (expand_total self hits ∅) as [gb Hexp]. rewrite Hexp.
  set (cands := HybridEngine.final_candidates graph_weight
                  (HybridEngine.vector_scores vector_weight hits) gb).
  eexists. split; [done|].
  assert (NoDup (Candidate.id <$> cands)) as Hnd.
  { unfold cands. rewrite final_candidates_ids. apply NoDup_set_iter. }
  assert (∀ c, c ∈ cands → ∃ h, h ∈ hits ∧
            (Candidate.id c = Hit.id h ∨
             Candidate.id c ∈ neighbors_1 (HybridEngine.graph self) (Hit.id h))) as Hin.
  { intros c Hc.
    assert (Candidate.id c ∈ Candidate.id <$> cands) as Hid by by apply list_elem_of_fmap_2.
    unfold cands in Hid. rewrite final_candidates_ids, elem_of_set_iter in Hid.
    rewrite vector_scores_dom_any, (expand_dom _ _ _ _ Hexp), dom_empty_L in Hid.
    apply elem_of_union in Hid as [Hid|Hid].
    - apply elem_of_list_to_set, list_elem_of_fmap in Hid as (h & Heq & Hh). eauto.
    - apply elem_of_union in Hid as [Hid|Hid]; [set_solver|].
      apply elem_of_union_list in Hid as (X & HX & Hid).
      apply list_elem_of_fmap in HX as (h & -> & Hh).
      apply elem_of_list_to_set in Hid. eauto. }
  pose proof (slice_to_sublist (sorted_reverse Candidate.score cands) top_k) as Hsub.
  split; [|split].
  - eapply sublist_NoDup; [|by apply fmap_sublist].
    by rewrite sorted_reverse_Permutation_any.
  - apply slice_to_length.
  - intros c Hc. apply Hin. rewrite <- (sorted_reverse_Permutation_any Candidate.score).
    by eapply elem_of_sublist.
Qed.
End Returned.

(** ** The scores in exact arithmetic *)
Section Scores.
Context {W : Type} {real : RealColumn W} {order : HashOrder}.
Implicit Types (hits : list (Hit.t Q)) (gb : gmap string Q).

Local Open Scope Q_scope.

Lemma py_min_Qmin (a : Q) : py_min a 1 == Qmin a 1.
Proof.
  unfold py_min. destruct (num_lt 1 a) eqn:Hlt.
  - apply Q_num_lt in Hlt. symmetry. apply Q.min_r. by apply Qlt_le_weak.
  - apply Q_num_not_lt in Hlt. symmetry. by apply Q.min_l.
Qed.

Lemma boost_neighbors_value (v_res : Hit.t Q) neighbors gb x :
  NoDup neighbors →
  default 0 (HybridEngine.boost_neighbors v_res neighbors gb !! x) ==
  default 0 (gb !! x) +
  (if decide (x ∈ neighbors) then (3 # 10) * Hit.score v_res else 0).
Proof.
  revert gb. induction neighbors as [|y ys IH]; intros gb Hnd.
  - rewrite decide_False by apply not_elem_of_nil. cbn [HybridEngine.boost_neighbors foldl]. ring.
  - apply NoDup_cons in Hnd as [Hy Hnd].
    cbn [HybridEngine.boost_neighbors foldl].
    change (foldl _ ?a ys) with (HybridEngine.boost_neighbors v_res ys a).
    rewrite IH by done.
    destruct (decide (x = y)) as [->|Hne].
    + rewrite (decide_False (P := y ∈ ys)) by done.
      rewrite (decide_True (P := y ∈ y :: ys)) by left.
      destruct (gb !! y) as [b|]; rewrite lookup_insert_eq; simpl;
        cbn [num_add num_mul num_decay Q_num]; ring.
    + assert (default 0 (match gb !! y with
                         | Some b => <[y := num_add b (num_mul num_decay (Hit.score v_res))]> gb
                         | None => <[y := num_mul num_decay (Hit.score v_res)]> gb
                         end !! x) = default 0 (gb !! x)) as ->.
      { destruct (gb !! y); by rewrite lookup_insert_ne. }
      destruct (decide (x ∈ ys)) as [Hin|Hnin].
      * rewrite (decide_True (P := x ∈ y :: ys)) by by right. done.
      * rewrite (decide_False (P := x ∈ y :: ys)); [done|].
        by intros [?|?]%elem_of_cons.
Qed.

Lemma neighbors_1_NoDup (g : GraphEngine.t W) n : NoDup (neighbors_1 g n).
Proof.
  unfold neighbors_1.
  destruct (DiGraph.contains (GraphEngine.graph g) n) eqn:Hin.
  - rewrite get_neighbors_depth_1 by done. apply NoDup_set_iter.
  - rewrite get_neighbors_absent by done. constructor.
Qed.

Lemma expand_value (self : HybridEngine.t Q W) hits gb gb' x :
  HybridEngine.expand self hits gb = Some gb' →
  default 0 (gb' !! x) == default 0 (gb !! x) + boost_sum (HybridEngine.graph self) hits x.
Proof.
  revert gb. induction hits as [|h hits IH]; intros gb Hrun; simpl in Hrun.
  - inversion Hrun; subst. simpl. ring.
  - pose proof (neighbors_1_NoDup (HybridEngine.graph self) (Hit.id h)) as Hnd.
    cbn [boost_sum foldr]. change (foldr _ 0 hits) with (boost_sum (HybridEngine.graph self) hits x).
    unfold neighbors_1 in Hnd |- *.
    destruct (GraphEngine.get_neighbors _ _ _) as [ns|] eqn:Hn; [|done].
    simpl in Hnd |- *.
    rewrite (IH _ Hrun), (boost_neighbors_value _ _ _ _ Hnd).
    destruct (decide (x ∈ ns)); ring.
Qed.

Lemma boost_sum_nonneg (g : GraphEngine.t W) hits x :
  (∀ h, h ∈ hits → 0 <= Hit.score h) → 0 <= boost_sum g hits x.
Proof.
  induction hits as [|h hits IH]; intros Hpos; simpl; [apply Qle_refl|].
  assert (0 <= boost_sum g hits x) as Hrest.
  { apply IH. intros h' Hh'. apply Hpos. by right. }
  unfold boost_sum in Hrest. destruct (decide _); [|done].
  assert (0 <= Hit.score h) as Hh by (apply Hpos; left).
  apply (Qle_trans _ (0 + 0)); [apply Qle_refl|].
  apply Qplus_le_compat; [|done]. by apply Qmult_le_0_compat.
Qed.

Lemma result_is_candidate (self : HybridEngine.t Q W) query (vw gw : Q) top_k hits result c :
  HybridEngine.vec self query (top_k * 2)%Z = Returns hits →
  HybridEngine.hybrid_search self query vw gw top_k = Returns result →
  c ∈ result →
  ∃ gb, HybridEngine.expand self hits ∅ = Some gb ∧
        c = HybridEngine.candidate gw (HybridEngine.vector_scores vw hits)
              gb (Candidate.id c).
Proof.
  unfold HybridEngine.hybrid_search. intros -> Hrun Hc.
  destruct (HybridEngine.expand _ _ _) as [gb|]; [|done]. inversion Hrun; subst.
  exists gb. split; [done|].
  pose proof (elem_of_sublist _ _ _ Hc (slice_to_sublist _ top_k)) as Hin.
  rewrite sorted_reverse_Permutation in Hin.
  unfold HybridEngine.final_candidates in Hin.
  by apply list_elem_of_fmap in Hin as (nid & -> & _).
Qed.

(** X13.  The score of every returned entry, in exact arithmetic: the
    score of the last hit with that id times the vector weight (nothing
    for an id that is no hit), plus the graph weight times the smaller of
    1 and the sum, over all hits that have the id among their depth-1
    neighbours, of 0.3 times the score of the hit.  A hit that the vector
    search returns twice boosts its neighbours twice. *)
Theorem hybrid_score_formula (self : HybridEngine.t Q W) query (vw gw : Q) top_k
    hits result c :
  HybridEngine.vec self query (top_k * 2)%Z = Returns hits →
  HybridEngine.hybrid_search self query vw gw top_k = Returns result →
  c ∈ result →
  Candidate.score c ==
    default 0 (last_hit_score hits (Candidate.id c)) * vw +
    Qmin (boost_sum (HybridEngine.graph self) hits (Candidate.id c)) 1 * gw.
Proof.
  intros Hvec Hrun Hc.
  destruct (result_is_candidate self query vw gw top_k hits result c Hvec Hrun Hc)
    as (gb & Hexp & ->).
  cbn [HybridEngine.candidate Candidate.score Candidate.id num_add num_mul num_zero num_one Q_num].
  rewrite vector_scores_last, py_min_Qmin.
  pose proof (expand_value self hits ∅ gb (Candidate.id (HybridEngine.candidate gw
      (HybridEngine.vector_scores vw hits) gb (Candidate.id c))) Hexp) as Hb.
  cbn [HybridEngine.candidate Candidate.id] in Hb.
  rewrite lookup_empty in Hb. simpl in Hb. rewrite Qplus_0_l in Hb.
  rewrite Hb. destruct (last_hit_score hits (Candidate.id c)); simpl; ring.
Qed.

(** X14.  In exact arithmetic: when the similarities returned by the
    vector search lie between 0 and 1 and neither weight is negative, every
    returned score lies between 0 and the sum of the two weights.  (On
    binary64 numbers every operation rounds, and a score can lie above the
    exact sum of the weights by a rounding error.) *)
Theorem hybrid_scores_are_bounded (self : HybridEngine.t Q W) query (vw gw : Q) top_k
    hits result c :
  HybridEngine.vec self query (top_k * 2)%Z = Returns hits →
  (∀ h, h ∈ hits → 0 <= Hit.score h ∧ Hit.score h <= 1) →
  0 <= vw → 0 <= gw →
  HybridEngine.hybrid_search self query vw gw top_k = Returns result →
  c ∈ result →
  0 <= Candidate.score c ∧ Candidate.score c <= vw + gw.
Proof.
  intros Hvec Hsim Hvw Hgw Hrun Hc.
  destruct (result_is_candidate self query vw gw top_k hits result c Hvec Hrun Hc)
    as (gb & Hexp & Heq).
  assert (0 <= default 0 (last_hit_score hits (Candidate.id c)) ∧
          default 0 (last_hit_score hits (Candidate.id c)) <= 1) as [Hs0 Hs1].
  { unfold last_hit_score. destruct (last _) as [h|] eqn:E; simpl; [|split; [apply Qle_refl|done]].
    apply Hsim. apply last_Some_elem_of in E. by apply list_elem_of_filter in E as [_ ?]. }
  assert (0 <= Qmin (boost_sum (HybridEngine.graph self) hits (Candidate.id c)) 1 ∧
          Qmin (boost_sum (HybridEngine.graph self) hits (Candidate.id c)) 1 <= 1) as [Hb0 Hb1].
  { split; [|apply Q.le_min_r].
    apply Q.min_glb; [|done]. apply boost_sum_nonneg. intros h Hh. by apply Hsim. }
  assert (Candidate.score c ==
          default 0 (last_hit_score hits (Candidate.id c)) * vw +
          Qmin (boost_sum (HybridEngine.graph self) hits (Candidate.id c)) 1 * gw) as Hscore.
  { rewrite Heq at 1.
    cbn [HybridEngine.candidate Candidate.score num_add num_mul num_zero num_one Q_num].
    rewrite vector_scores_last, py_min_Qmin.
    pose proof (expand_value self hits ∅ gb (Candidate.id c) Hexp) as Hb.
    rewrite lookup_empty in Hb. simpl in Hb. rewrite Qplus_0_l in Hb.
    rewrite Hb. destruct (last_hit_score hits (Candidate.id c)); simpl; ring. }
  rewrite Hscore. split.
  - apply (Qle_trans _ (0 + 0)); [apply Qle_refl|].
    apply Qplus_le_compat; by apply Qmult_le_0_compat.
  - apply Qplus_le_compat.
    + rewrite <- (Qmult_1_l vw) at 2. by apply Qmult_le_compat_r.
    + rewrite <- (Qmult_1_l gw) at 2. by apply Qmult_le_compat_r.
Qed.
End Scores.

(** * The export for the visualiser *)

Section Exported.
Context {W : Type} {real : RealColumn W}.
Implicit Types (self : GraphEngine.t W) (g : DiGraph.t (option W)).

Lemma export_same_for_both_keys edges self :
  edge_list_key edges →
  get_subgraph_json edges self = get_subgraph_json "links" self.
Proof.
  intros [->| ->]; [done|].
  unfold get_subgraph_json, NodeLink.node_link_data. cbn zeta.
  rewrite lookup_insert_eq.
  rewrite lookup_insert_ne by done. rewrite !lookup_insert_ne by done.
  rewrite lookup_singleton_ne by done.
  by rewrite delete_insert_eq, delete_id
    by (rewrite !lookup_insert_ne by done; by rewrite lookup_singleton_ne).
Qed.

(** X10.  The export contract.  Whether the installed networkx files the
    edge list under ["links"] or under ["edges"], [get_subgraph_json]
    returns the same dictionary: its keys are [directed], [multigraph],
    [graph], [nodes] and [links], and never [edges]. *)
Theorem export_files_edges_under_links edges self :
  edge_list_key edges →
  get_subgraph_json edges self = get_subgraph_json "links" self ∧
  dom (get_subgraph_json edges self) =
    {[ "directed"; "multigraph"; "graph"; "nodes"; "links" ]}%string ∧
  get_subgraph_json edges self !! "edges"%string = None.
Proof.
  intros Hk. split; [by apply export_same_for_both_keys|].
  rewrite (export_same_for_both_keys edges self Hk).
  unfold get_subgraph_json, NodeLink.node_link_data. cbn zeta.
  assert (∀ l n f, (<["links"%string := l]> (<["nodes"%string := n]>
             (<["graph"%string := NodeLink.GraphAttributes ∅]>
                (<["multigraph"%string := NodeLink.Flag false]>
                   ({[ "directed"%string := NodeLink.Flag f ]}
                      : gmap string (NodeLink.entry (option W))))))) !! "edges"%string = None)
    as Hnone.
  { intros. rewrite !lookup_insert_ne by done. by rewrite lookup_singleton_ne. }
  rewrite Hnone. split; [|done].
  rewrite !dom_insert_L, dom_singleton_L. set_solver.
Qed.

Lemma node_element_describes n attr :
  describes_node (NodeLink.node_element (W := option W) n attr) n attr.
Proof.
  unfold describes_node, NodeLink.node_element. split.
  - by rewrite lookup_insert_eq.
  - intros k Hk. by rewrite lookup_insert_ne, lookup_fmap.
Qed.

Lemma edge_element_describes u v d :
  describes_edge (NodeLink.edge_element (W := option W) u v d) u v d.
Proof.
  unfold describes_edge, NodeLink.edge_element. apply map_eq. intros k.
  destruct (decide (k = "target"%string)) as [->|?]; [by simplify_map_eq|].
  destruct (decide (k = "source"%string)) as [->|?]; [by simplify_map_eq|].
  destruct (decide (k = "weight"%string)) as [->|?]; [by simplify_map_eq|].
  destruct (decide (k = "type"%string)) as [->|?]; [by simplify_map_eq|].
  by simplify_map_eq.
Qed.

Lemma elem_of_edges_data g u v d :
  (u, v, d) ∈ NodeLink.edges_data g ↔ DiGraph.edge_data g u v = Some d.
Proof.
  unfold NodeLink.edges_data, DiGraph.edge_data. rewrite list_elem_of_bind. split.
  - intros ([u' nbrs] & Hin & Hu). apply elem_of_map_to_list in Hu.
    apply list_elem_of_fmap in Hin as ([v' d'] & [= -> -> ->] & Hv).
    apply elem_of_map_to_list in Hv. by rewrite Hu.
  - destruct (DiGraph._succ g !! u) as [nbrs|] eqn:Hu; [|done]. simpl. intros Hv.
    exists (u, nbrs). split; [|by apply elem_of_map_to_list].
    apply list_elem_of_fmap. exists (v, d). split; [done|]. by apply elem_of_map_to_list.
Qed.

Lemma exported_nodes edges self :
  edge_list_key edges →
  exported (get_subgraph_json edges self) "nodes" =
  (λ '(n, attr), NodeLink.node_element n attr) <$>
    map_to_list (DiGraph._node (GraphEngine.graph self)).
Proof.
  intros Hk. rewrite (export_same_for_both_keys edges self Hk).
  unfold exported, get_subgraph_json, NodeLink.node_link_data. cbn zeta.
  rewrite !lookup_insert_ne by done. rewrite lookup_singleton_ne by done.
  rewrite lookup_insert_ne by done. by rewrite lookup_insert_eq.
Qed.

Lemma exported_links edges self :
  edge_list_key edges →
  exported (get_subgraph_json edges self) "links" =
  (λ '(u, v, d), NodeLink.edge_element u v d) <$>
    NodeLink.edges_data (GraphEngine.graph self).
Proof.
  intros Hk. rewrite (export_same_for_both_keys edges self Hk).
  unfold exported, get_subgraph_json, NodeLink.node_link_data. cbn zeta.
  rewrite !lookup_insert_ne by done. rewrite lookup_singleton_ne by done.
  by rewrite lookup_insert_eq.
Qed.

(** X11.  The export lists the in-memory graph.  Every node of the graph
    has an element in the list under [nodes], and every element is that of
    a node: it carries the node id under [id], also when the node has an
    attribute of that name, and the other attributes unchanged.  There are
    as many elements as nodes.  Every edge of the graph has an element in
    the list under [links], and every element is that of an edge: exactly
    the keys [source], [target], [type] and [weight]. *)
Theorem export_lists_the_graph_in_memory edges self :
  edge_list_key edges →
  let data := get_subgraph_json edges self in
  let g := GraphEngine.graph self in
  (∀ n attr, DiGraph._node g !! n = Some attr →
     ∃ el, el ∈ exported data "nodes" ∧ describes_node el n attr) ∧
  (∀ el, el ∈ exported data "nodes" →
     ∃ n attr, DiGraph._node g !! n = Some attr ∧ describes_node el n attr) ∧
  length (exported data "nodes") = size (DiGraph._node g) ∧
  (∀ u v d, DiGraph.edge_data g u v = Some d →
     ∃ el, el ∈ exported data "links" ∧ describes_edge el u v d) ∧
  (∀ el, el ∈ exported data "links" →
     ∃ u v d, DiGraph.edge_data g u v = Some d ∧ describes_edge el u v d).
Proof.
  intros Hk data g. unfold data.
  rewrite (exported_nodes edges self Hk), (exported_links edges self Hk). fold g.
  split; [|split; [|split; [|split]]].
  - intros n attr Hn. exists (NodeLink.node_element n attr).
    split; [|apply node_element_describes].
    apply list_elem_of_fmap. exists (n, attr). split; [done|]. by apply elem_of_map_to_list.
  - intros el ([n attr] & -> & Hin)%list_elem_of_fmap.
    apply elem_of_map_to_list in Hin. exists n, attr. split; [done|].
    apply node_element_describes.
  - by rewrite length_fmap, length_map_to_list.
  - intros u v d He. exists (NodeLink.edge_element u v d).
    split; [|apply edge_element_describes].
    apply list_elem_of_fmap. exists (u, v, d). split; [done|]. by apply elem_of_edges_data.
  - intros el ([[u v] d] & -> & Hin)%list_elem_of_fmap.
    apply elem_of_edges_data in Hin. exists u, v, d. split; [done|].
    apply edge_element_describes.
Qed.
End Exported.

(** * The ingestion pipeline *)

(** ** Texts *)

Section TextFacts.

Lemma chars_on_chars f s : chars (on_chars f s) = f (chars s).
Proof. unfold on_chars. apply String.list_ascii_of_string_of_list_ascii. Qed.

Lemma isspace_space : Text.isspace " " = true.
Proof. reflexivity. Qed.

Lemma split_from_app acc w s :
  Forall (λ c, Text.isspace c = false) w →
  Text.split_from acc (w ++ s) = Text.split_from (acc ++ w) s.
Proof.
  revert acc. induction w as [|c w IH]; intros acc Hw; simpl.
  - by rewrite app_nil_r.
  - apply Forall_cons in Hw as [-> Hw]. rewrite IH by done.
    by rewrite <- app_assoc.
Qed.

Lemma split_from_words acc s :
  Forall (λ c, Text.isspace c = false) acc →
  Forall word (Text.split_from acc s) ∧
  concat (Text.split_from acc s) = acc ++ filter (λ c, Text.isspace c = false) s.
Proof.
  revert acc. induction s as [|c s IH]; intros acc Hacc; simpl.
  - destruct acc as [|a acc]; [done|]. split.
    + constructor; [by split|constructor].
    + simpl. by rewrite !app_nil_r.
  - rewrite filter_cons. destruct (Text.isspace c) eqn:Hc.
    + rewrite decide_False by done.
      destruct (IH [] ltac:(constructor)) as [Hw Hcat].
      destruct acc as [|a acc]; [done|]. split.
      * constructor; [|done]. by split.
      * simpl. by rewrite Hcat.
    + rewrite decide_True by done.
      destruct (IH (acc ++ [c])) as [Hw Hcat].
      { apply Forall_app. split; [done|]. by constructor. }
      split; [done|]. by rewrite Hcat, <- app_assoc.
Qed.

Lemma split_from_space acc s :
  acc ≠ [] → Text.split_from acc (" "%char :: s) = acc :: Text.split_from [] s.
Proof. by destruct acc. Qed.

Lemma split_join words :
  Forall word words → Text.split (Text.join (chars " ") words) = words.
Proof.
  unfold Text.split. induction words as [|w ws IH]; intros Hall; [done|].
  apply Forall_cons in Hall as [[Hne Hw] Hall].
  destruct ws as [|w' ws].
  - cbn [Text.join]. rewrite <- (app_nil_r w) at 1. rewrite split_from_app by done.
    cbn [app Text.split_from]. by destruct w.
  - change (Text.join (chars " ") (w :: w' :: ws))
      with (w ++ " "%char :: Text.join (chars " ") (w' :: ws)).
    rewrite split_from_app by done. cbn [app].
    rewrite split_from_space by done. by rewrite IH.
Qed.

Lemma sublist_filter_mono {A} (P : A → Prop) `{∀ x, Decision (P x)} (l k : list A) :
  l `sublist_of` k → filter P l `sublist_of` filter P k.
Proof.
  induction 1 as [|x l k _ IH|x l k _ IH]; [done|..]; rewrite !filter_cons.
  - destruct (decide (P x)); [by constructor|done].
  - destruct (decide (P x)); [by constructor|done].
Qed.

Lemma filter_all {A} (P : A → Prop) `{∀ x, Decision (P x)} (l : list A) :
  Forall P l → filter P l = l.
Proof.
  induction 1 as [|x l Hx _ IH]; [done|].
  by rewrite filter_cons, decide_True, IH.
Qed.

Lemma filter_join words :
  Forall word words →
  filter (λ c, Text.isspace c = false) (Text.join (chars " ") words) = concat words.
Proof.
  induction words as [|w ws IH]; intros Hall; [done|].
  apply Forall_cons in Hall as [[_ Hw] Hall].
  destruct ws as [|w' ws].
  - cbn [Text.join concat]. by rewrite app_nil_r, filter_all.
  - change (Text.join (chars " ") (w :: w' :: ws))
      with (w ++ " "%char :: Text.join (chars " ") (w' :: ws)).
    rewrite filter_app, filter_cons, decide_False by done.
    rewrite IH by done. by rewrite filter_all.
Qed.
End TextFacts.

Section Brackets.
Variable open close : ascii.
Hypothesis open_not_newline : open ≠ "010"%char.
Hypothesis close_not_newline : close ≠ "010"%char.

Lemma lazy_until_None_delete t :
  Text.lazy_until close t = None →
  Text.lazy_until close (Text.delete_matches (Text.enclosed open close) 0 t) = None.
Proof.
  induction t as [|x t IH]; [done|]. intros Hnone.
  cbn [Text.lazy_until] in Hnone. cbn [Text.delete_matches Text.enclosed].
  destruct (bool_decide (x = close)) eqn:Hxc; [done|].
  destruct (bool_decide (x = "010"%char)) eqn:Hxn.
  - apply bool_decide_eq_true in Hxn as ->.
    rewrite bool_decide_eq_false_2 by done.
    cbn [Text.lazy_until]. rewrite bool_decide_eq_false_2 by done.
    by rewrite bool_decide_eq_true_2.
  - destruct (Text.lazy_until close t) eqn:Ht; [done|].
    assert (match (if bool_decide (x = open) then S <$> (None : option nat) else None) with
            | Some (S k) => Text.delete_matches (Text.enclosed open close) k t
            | _ => x :: Text.delete_matches (Text.enclosed open close) 0 t
            end = x :: Text.delete_matches (Text.enclosed open close) 0 t) as ->
      by by destruct (bool_decide (x = open)).
    cbn [Text.lazy_until]. rewrite Hxc, Hxn. by rewrite IH.
Qed.

Lemma delete_matches_no_open s k l1 l2 :
  Text.delete_matches (Text.enclosed open close) k s = l1 ++ open :: l2 →
  Text.lazy_until close l2 = None.
Proof.
  revert k l1. induction s as [|x s IH]; intros k l1 Heq.
  - by destruct l1.
  - cbn [Text.delete_matches Text.enclosed] in Heq.
    destruct k as [|k]; [|by eapply IH].
    destruct (bool_decide (x = open)) eqn:Hxo.
    + apply bool_decide_eq_true in Hxo as ->.
      destruct (Text.lazy_until close s) as [n|] eqn:Hs; simpl in Heq; [by eapply IH|].
      destruct l1 as [|y l1]; simpl in Heq.
      * injection Heq as <-. by apply lazy_until_None_delete.
      * injection Heq as _ Heq. by eapply IH.
    + apply bool_decide_eq_false in Hxo.
      destruct l1 as [|y l1]; simpl in Heq.
      * by injection Heq as -> _.
      * injection Heq as _ Heq. by eapply IH.
Qed.

Lemma lazy_until_None_newline l2 l3 :
  Text.lazy_until close (l2 ++ close :: l3) = None → "010"%char ∈ l2.
Proof.
  induction l2 as [|x l2 IH]; cbn [app Text.lazy_until].
  - by rewrite bool_decide_eq_true_2.
  - destruct (bool_decide (x = close)); [done|].
    destruct (bool_decide (x = "010"%char)) eqn:Hxn.
    + apply bool_decide_eq_true in Hxn as ->. intros _. left.
    + destruct (Text.lazy_until close (l2 ++ close :: l3)); [done|].
      intros _. right. by apply IH.
Qed.

Lemma delete_matches_no_pair_on_a_line s :
  no_pair_on_a_line open close (Text.delete_matches (Text.enclosed open close) 0 s).
Proof.
  intros l1 l2 l3 Heq. apply delete_matches_no_open in Heq.
  by eapply lazy_until_None_newline.
Qed.

Lemma delete_matches_sublist m k s : Text.delete_matches m k s `sublist_of` s.
Proof.
  revert k. induction s as [|x s IH]; intros k; [done|].
  cbn [Text.delete_matches]. destruct k as [|k]; [|by constructor].
  destruct (m (x :: s)) as [[|n]|]; by constructor.
Qed.
End Brackets.

Lemma has_pair_split open close s :
  has_pair open close s ↔ ∃ l1 l2 l3, s = l1 ++ open :: l2 ++ close :: l3.
Proof.
  unfold has_pair. rewrite sublist_cons_l. split.
  - intros (l1 & k & -> & Hk). apply sublist_cons_l in Hk as (l2 & l3 & -> & _). eauto.
  - intros (l1 & l2 & l3 & ->). exists l1, (l2 ++ close :: l3). split; [done|].
    apply sublist_cons_l. exists l2, l3. split; [done|]. apply sublist_nil_l.
Qed.

Section Preprocess.
Variable fix_text : string → string.

(** The result of [preprocess] is the join of the words of the text once
    the bracketed parts are deleted. *)
Lemma preprocess_joins_words (self : IngestionPipeline.t) text :
  let r := Text.delete_matches (Text.enclosed "[" "]") 0 (chars (formatted fix_text self text)) in
  chars (IngestionPipeline.preprocess fix_text self text) = Text.join (chars " ") (Text.split r) ∧
  Forall word (Text.split r) ∧
  concat (Text.split r) = filter (λ c, Text.isspace c = false) r.
Proof.
  intros r. unfold IngestionPipeline.preprocess. fold (formatted fix_text self text).
  rewrite !chars_on_chars. fold r.
  by destruct (split_from_words [] r ltac:(constructor)) as [Hw Hcat].
Qed.

(** X16.  [preprocess] returns words separated by single spaces: the
    result is the join by [" "] of words, each with at least one character
    and no whitespace; splitting the result gives these words back; and
    their characters are, in order, the characters other than whitespace
    of the text once the bracketed parts are deleted. *)
Theorem preprocess_leaves_single_spaced_words (self : IngestionPipeline.t) text :
  ∃ words,
    chars (IngestionPipeline.preprocess fix_text self text) = Text.join (chars " ") words ∧
    Forall word words ∧
    Text.split (chars (IngestionPipeline.preprocess fix_text self text)) = words ∧
    concat words =
      filter (λ c, Text.isspace c = false)
        (Text.delete_matches (Text.enclosed "[" "]") 0 (chars (formatted fix_text self text))).
Proof.
  unfold IngestionPipeline.preprocess. fold (formatted fix_text self text).
  rewrite !chars_on_chars.
  set (r := Text.delete_matches _ _ _).
  destruct (split_from_words [] r ltac:(constructor)) as [Hw Hcat].
  exists (Text.split r). split; [done|]. split; [done|]. split; [|done].
  by apply split_join.
Qed.

(** X17.  On a text without a line break (after the handler and
    [fix_text]), [preprocess] leaves no opening bracket with a closing
    bracket after it.  The pattern does not match across a line break, so
    nothing is claimed for a text that has one. *)
Theorem preprocess_removes_brackets_on_one_line (self : IngestionPipeline.t) text :
  "010"%char ∉ chars (formatted fix_text self text) →
  ¬ has_pair "[" "]" (chars (IngestionPipeline.preprocess fix_text self text)).
Proof.
  intros Hnl Hpair.
  destruct (preprocess_joins_words self text) as (Hout & Hwords & Hcat).
  set (t := chars (formatted fix_text self text)) in *.
  set (r := Text.delete_matches (Text.enclosed "[" "]") 0 t) in *.
  assert (has_pair "[" "]" r) as Hr.
  { unfold has_pair in *.
    apply (sublist_filter_mono (λ c, Text.isspace c = false)) in Hpair.
    rewrite Hout, filter_join, Hcat in Hpair by done.
    etrans; [exact Hpair|]. apply sublist_filter. }
  apply has_pair_split in Hr as (l1 & l2 & l3 & Heq).
  pose proof (delete_matches_sublist (Text.enclosed "[" "]") 0 t) as Hsub.
  fold r in Hsub. apply Hnl. eapply elem_of_sublist; [|exact Hsub].
  apply (delete_matches_no_pair_on_a_line "[" "]" ltac:(done) ltac:(done)) in Heq as Hin.
  rewrite Heq. rewrite elem_of_app. right. right. rewrite elem_of_app. by left.
Qed.
End Preprocess.

(** ** The handler registry *)

Section Registry.
(** X15.  [HandlerRegistry.find] returns the first handler, in the order
    of registration, whose [applies] returns true, and [None] when there is
    none; a handler whose [applies] raises or returns false is passed
    over. *)
Theorem find_returns_first_applicable handlers text :
  match HandlerRegistry.find handlers text with
  | Some h =>
      ∃ before after, handlers = before ++ h :: after ∧
        Handler.applies h text = Some true ∧
        ∀ h', h' ∈ before → Handler.applies h' text ≠ Some true
  | None => ∀ h, h ∈ handlers → Handler.applies h text ≠ Some true
  end.
Proof.
  induction handlers as [|h0 rest IH]; simpl.
  - intros h Hh. by apply elem_of_nil in Hh.
  - destruct (Handler.applies h0 text) as [[|]|] eqn:Happ.
    + exists [], rest. repeat split; [done|]. intros h' Hh'. by apply elem_of_nil in Hh'.
    + destruct (HandlerRegistry.find rest text) as [h|].
      * destruct IH as (before & after & -> & Hh & Hbefore).
        exists (h0 :: before), after. repeat split; [done|].
        intros h' [->|Hh']%elem_of_cons; [congruence|by apply Hbefore].
      * intros h' [->|Hh']%elem_of_cons; [congruence|by apply IH].
    + destruct (HandlerRegistry.find rest text) as [h|].
      * destruct IH as (before & after & -> & Hh & Hbefore).
        exists (h0 :: before), after. repeat split; [done|].
        intros h' [->|Hh']%elem_of_cons; [congruence|by apply Hbefore].
      * intros h' [->|Hh']%elem_of_cons; [congruence|by apply IH].
Qed.
End Registry.

Section Extraction.
Context {F : Type} {num : Num F}.
Variable fix_text : string → string.
Implicit Types (nodes : list NodeCreate.t) (edges : list (EdgeCreate.t F)).

Lemma register_ids node nodes n :
  n ∈ NodeCreate.id <$> nodes → n ∈ NodeCreate.id <$> IngestionPipeline.register node nodes.
Proof.
  unfold IngestionPipeline.register. destruct (bool_decide _); [done|].
  rewrite fmap_app, elem_of_app. by left.
Qed.

Lemma register_new node nodes :
  NodeCreate.id node ∈ NodeCreate.id <$> IngestionPipeline.register node nodes.
Proof.
  unfold IngestionPipeline.register. destruct (bool_decide _) eqn:Hin.
  - by apply bool_decide_eq_true in Hin.
  - rewrite fmap_app, elem_of_app. right. simpl. left.
Qed.

Lemma register_invariant node nodes edges :
  extracted_node node →
  extraction_invariant (nodes, edges) →
  extraction_invariant (IngestionPipeline.register node nodes, edges).
Proof.
  intros Hnode (Hnd & Hnodes & Hedges). unfold extraction_invariant. simpl in *.
  split; [|split].
  - unfold IngestionPipeline.register. destruct (bool_decide _) eqn:Hin; [done|].
    apply bool_decide_eq_false in Hin. rewrite fmap_app. apply NoDup_app.
    split; [done|]. split; [|apply NoDup_singleton].
    intros x Hx [->|[]%elem_of_nil]%elem_of_cons. done.
  - unfold IngestionPipeline.register. destruct (bool_decide _); [done|].
    apply Forall_app. split; [done|]. by constructor.
  - eapply Forall_impl; [exact Hedges|]. intros e (Hs & Ht & Hrest).
    split; [by apply register_ids|]. split; [by apply register_ids|done].
Qed.

Lemma add_entity_invariant nodes edges ent :
  extraction_invariant (nodes, edges) →
  extraction_invariant (IngestionPipeline.add_entity nodes ent, edges).
Proof.
  intros Hinv. unfold IngestionPipeline.add_entity.
  destruct (bool_decide (Span.label_ ent ∈ _)) eqn:Hlabel; [done|].
  apply bool_decide_eq_false in Hlabel.
  destruct (len _ <? 2)%nat eqn:Hlen; [done|].
  apply Nat.ltb_ge in Hlen.
  apply register_invariant; [|done]. split; [done|]. by eexists.
Qed.

Lemma relate_invariant lemma_ state s o :
  extraction_invariant state →
  extraction_invariant (IngestionPipeline.relate lemma_ state s o).
Proof.
  destruct state as [nodes edges]. intros Hinv. unfold IngestionPipeline.relate.
  set (s_text := on_chars Text.remove_determiner (IngestionPipeline.clean_node_id s)).
  set (o_text := on_chars Text.remove_determiner (IngestionPipeline.clean_node_id o)).
  destruct (len s_text <? 2)%nat eqn:Hs; [done|].
  destruct (len o_text <? 2)%nat eqn:Ho; [done|].
  apply Nat.ltb_ge in Hs, Ho. cbn [orb].
  destruct (bool_decide (on_chars Text.lower s_text ∈ _)) eqn:Hss; [done|].
  destruct (bool_decide (on_chars Text.lower o_text ∈ _)) eqn:Hso; [done|].
  apply bool_decide_eq_false in Hss, Hso. cbn [orb].
  assert (∀ text, (2 ≤ len text)%nat →
            extracted_node (NodeCreate.mk text text {[ "label"%string := VStr "CONCEPT" ]}))
    as Hconcept.
  { intros text Hlen. split; [done|]. eexists. split; [done|].
    unfold IngestionPipeline.excluded_labels. set_solver. }
  pose proof (register_invariant _ _ _ (Hconcept o_text Ho)
                (register_invariant _ _ _ (Hconcept s_text Hs) Hinv))
    as (Hnd & Hnodes & Hedges).
  split; [done|]. split; [done|]. cbn [fst snd] in *.
  apply Forall_app. split; [done|]. constructor; [|constructor].
  split; [|split; [|done]]; cbn [EdgeCreate.source EdgeCreate.target].
  - apply register_ids, (register_new (NodeCreate.mk s_text s_text _)).
  - apply (register_new (NodeCreate.mk o_text o_text _)).
Qed.

Lemma foldl_invariant {A B} (P : A → Prop) (f : A → B → A) l a :
  (∀ a b, P a → P (f a b)) → P a → P (foldl f a l).
Proof.
  intros Hstep. revert a. induction l as [|b l IH]; intros a Ha; [done|].
  cbn [foldl]. by apply IH, Hstep.
Qed.

Lemma add_relations_invariant state token :
  extraction_invariant state →
  extraction_invariant (IngestionPipeline.add_relations state token).
Proof.
  intros Hinv. unfold IngestionPipeline.add_relations.
  destruct (bool_decide _); [|done].
  apply foldl_invariant; [|done]. intros st s Hst.
  apply foldl_invariant; [|done]. intros st' o Hst'.
  by apply relate_invariant.
Qed.

Lemma extraction_invariant_holds (self : IngestionPipeline.t) text :
  extraction_invariant (IngestionPipeline.extract_structured_data fix_text self text).
Proof.
  unfold IngestionPipeline.extract_structured_data. cbn zeta.
  apply foldl_invariant; [intros; by apply add_relations_invariant|].
  apply (foldl_invariant (λ ns, extraction_invariant (F := F) (ns, []))).
  - intros; by apply add_entity_invariant.
  - split; [constructor|]. split; constructor.
Qed.

(** X18.  What [extract_structured_data] returns, whatever the language
    model finds in the text: the ids of the nodes are pairwise distinct;
    every node has an id of at least two characters and the single
    attribute [label], which is never one of the excluded entity labels;
    the source and the target of every edge are ids of returned nodes,
    neither is a stop concept when lower-cased, and the weight is 1.0. *)
Theorem extraction_keeps_edges_among_nodes (self : IngestionPipeline.t) text nodes edges :
  IngestionPipeline.extract_structured_data fix_text self text = (nodes, edges) →
  NoDup (NodeCreate.id <$> nodes) ∧
  (∀ node, node ∈ nodes →
     (2 ≤ len (NodeCreate.id node))%nat ∧
     ∃ label, NodeCreate.metadata node = {[ "label"%string := VStr label ]} ∧
              label ∉ IngestionPipeline.excluded_labels) ∧
  (∀ edge, edge ∈ edges →
     EdgeCreate.source edge ∈ NodeCreate.id <$> nodes ∧
     EdgeCreate.target edge ∈ NodeCreate.id <$> nodes ∧
     (on_chars Text.lower (EdgeCreate.source edge) ∉ IngestionPipeline.stop_concepts) ∧
     (on_chars Text.lower (EdgeCreate.target edge) ∉ IngestionPipeline.stop_concepts) ∧
     EdgeCreate.weight edge = num_one).
Proof.
  intros Hrun. pose proof (extraction_invariant_holds self text) as (Hnd & Hnodes & Hedges).
  rewrite Hrun in Hnd, Hnodes, Hedges. cbn [fst snd] in *.
  split; [done|]. split.
  - intros node Hin. rewrite Forall_forall in Hnodes. by apply Hnodes.
  - intros edge Hin. rewrite Forall_forall in Hedges. by apply Hedges.
Qed.
End Extraction.

(** * The facade and the API *)

Section Tables.
Context {W : Type} {real : RealColumn W}.
Implicit Types (self : GraphEngine.t W) (accepts : Sqlite.storage W).

Lemma add_nodes_loop_edges_table accepts nodes self self' :
  GraphEngine.add_nodes_loop accepts nodes self = Returned self' →
  Sqlite.edges (Sqlite.working (GraphEngine.conn self')) =
  Sqlite.edges (Sqlite.working (GraphEngine.conn self)).
Proof.
  revert self. induction nodes as [|node rest IH]; intros self Hrun; simpl in Hrun.
  - by inversion Hrun; subst.
  - destruct (DiGraph.add_node_binds _); simpl in Hrun; [|done].
    destruct (json_dumps _) as [text|]; [|done].
    destruct (Sqlite.execute _ _ _) as [c|] eqn:Hexec; [|done].
    apply execute_Some in Hexec as ->. by apply IH in Hrun as ->.
Qed.

Lemma add_nodes_tables accepts nodes self self' :
  GraphEngine.add_nodes accepts nodes self = Returned self' →
  Sqlite.edges (Sqlite.working (GraphEngine.conn self')) =
    Sqlite.edges (Sqlite.working (GraphEngine.conn self)) ∧
  (∀ n, n ∈ node_ids (Sqlite.working (GraphEngine.conn self)) →
        n ∈ node_ids (Sqlite.working (GraphEngine.conn self'))) ∧
  (∀ node, node ∈ nodes →
        NodeCreate.id node ∈ node_ids (Sqlite.working (GraphEngine.conn self'))).
Proof.
  unfold GraphEngine.add_nodes. destruct nodes as [|node rest].
  { intros [= <-]. split; [done|]. split; [done|]. intros ? []%elem_of_nil. }
  destruct (GraphEngine.add_nodes_loop _ _ _) as [mid|] eqn:Hloop; [|done].
  intros (_ & Hw & _)%commit_Returned. rewrite Hw.
  split; [by eapply add_nodes_loop_edges_table|].
  by apply add_nodes_loop_rows in Hloop.
Qed.

Lemma add_edges_loop_endpoints accepts edges self self' n :
  GraphEngine.add_edges_loop accepts edges self = Returned self' →
  n ∈ endpoints (Sqlite.working (GraphEngine.conn self')) →
  n ∈ endpoints (Sqlite.working (GraphEngine.conn self)) ∨
  ∃ e, e ∈ edges ∧ (n = EdgeCreate.source e ∨ n = EdgeCreate.target e).
Proof.
  revert self. induction edges as [|edge rest IH]; intros self Hrun Hn; simpl in Hrun.
  - inversion Hrun; subst. by left.
  - destruct (Sqlite.execute _ _ _) as [c|] eqn:Hexec; [|done].
    apply execute_Some in Hexec as ->.
    destruct (IH _ Hrun Hn) as [Hold|(e & He & Hends)].
    + cbn [GraphEngine.conn Sqlite.run Sqlite.working] in Hold.
      apply endpoints_insert in Hold as [Hnew|Hold]; [|by left].
      right. exists edge. split; [left|done].
    + right. exists e. split; [by right|done].
Qed.

Lemma add_edges_tables accepts edges self self' :
  GraphEngine.add_edges accepts edges self = Returned self' →
  Sqlite.nodes (Sqlite.working (GraphEngine.conn self')) =
    Sqlite.nodes (Sqlite.working (GraphEngine.conn self)) ∧
  ∀ n, n ∈ endpoints (Sqlite.working (GraphEngine.conn self')) →
       n ∈ endpoints (Sqlite.working (GraphEngine.conn self)) ∨
       ∃ e, e ∈ edges ∧ (n = EdgeCreate.source e ∨ n = EdgeCreate.target e).
Proof.
  unfold GraphEngine.add_edges. destruct edges as [|edge rest].
  { intros [= <-]. split; [done|]. intros n Hn. by left. }
  destruct (GraphEngine.add_edges_loop _ _ _) as [mid|] eqn:Hloop; [|done].
  intros (_ & Hw & _)%commit_Returned. rewrite Hw.
  split; [by eapply add_edges_loop_nodes_table|].
  intros n. by eapply add_edges_loop_endpoints.
Qed.

Lemma store_closed_nodes self n :
  store_closed self →
  n ∈ dom (DiGraph._node (GraphEngine.graph self)) ↔
  n ∈ node_ids (Sqlite.committed (GraphEngine.conn self)).
Proof.
  intros [[Hm Hc] Hclosed]. rewrite Hc, (follows_nodes _ _ Hm). split; [|by left].
  intros [?|?]; [done|by apply Hclosed].
Qed.
End Tables.

Section Facade.
Context {F V : Type} {num : Num F} {half : HalfLiteral F} {order : HashOrder}.
Context {real : RealColumn F}.
Variable fix_text : string → string.
Variable embed_text : string → V.
Variable takes : option (list (VectorEngine.row V)) → list (VectorEngine.row V) → bool.
Variable nearest :
  list (VectorEngine.row V) → V → Z → option (list (VectorEngine.row V * F)).
Variable similarity : F → F.
Variable accepts : Sqlite.storage F.
Implicit Types (db : NativeDB.t F V).

Lemma enrich_ids source_metadata nodes :
  NodeCreate.id <$> NativeDB.enrich source_metadata nodes = NodeCreate.id <$> nodes.
Proof.
  unfold NativeDB.enrich. destruct source_metadata as [m|]; [|done].
  destruct (decide (m = ∅)); [done|]. rewrite <- list_fmap_compose. done.
Qed.

Lemma ingest_Reply raw_text source_metadata db r db' :
  NativeDB.ingest fix_text embed_text takes accepts raw_text source_metadata db
    = Reply r db' →
  (r = NativeDB.Ignored ∧ db' = db ∧ Text.strip (chars raw_text) = []) ∨
  ∃ nodes edges v g1 g2,
    Text.strip (chars raw_text) ≠ [] ∧
    IngestionPipeline.extract_structured_data fix_text (NativeDB.ingestion db) raw_text
      = (nodes, edges) ∧
    VectorEngine.add_nodes embed_text takes (NativeDB.enrich source_metadata nodes)
      (NativeDB.vector_db db) = Returned v ∧
    GraphEngine.add_nodes accepts (NativeDB.enrich source_metadata nodes)
      (NativeDB.graph_db db) = Returned g1 ∧
    GraphEngine.add_edges accepts edges g1 = Returned g2 ∧
    r = NativeDB.Success (length nodes) (length edges) ∧
    db' = NativeDB.mk (NativeDB.ingestion db) v g2.
Proof.
  unfold NativeDB.ingest. destruct (decide _) as [Hblank|Hblank].
  { intros [= <- <-]. by left. }
  destruct (IngestionPipeline.extract_structured_data _ _ _) as [nodes edges] eqn:Hex.
  destruct (VectorEngine.add_nodes _ _ _ _) as [v|] eqn:Hv; [|done].
  destruct (GraphEngine.add_nodes _ _ _) as [g1|] eqn:Hg1; [|done].
  destruct (GraphEngine.add_edges _ _ _) as [g2|] eqn:Hg2; [|done].
  intros [= <- <-]. right. exists nodes, edges, v, g1, g2.
  repeat split; try done. f_equal.
  assert (length (NodeCreate.id <$> NativeDB.enrich source_metadata nodes)
          = length (NodeCreate.id <$> nodes)) as Hlen by by rewrite enrich_ids.
  by rewrite !length_fmap in Hlen.
Qed.

(** The path of [ingest] on which every store accepts. *)
Lemma ingest_success raw_text source_metadata db nodes edges v g :
  Text.strip (chars raw_text) ≠ [] →
  IngestionPipeline.extract_structured_data fix_text (NativeDB.ingestion db) raw_text
    = (nodes, edges) →
  VectorEngine.add_nodes embed_text takes (NativeDB.enrich source_metadata nodes)
    (NativeDB.vector_db db) = Returned v →
  run accepts [AddNodes (NativeDB.enrich source_metadata nodes); AddEdges edges]
    (NativeDB.graph_db db) = Returned g →
  NativeDB.ingest fix_text embed_text takes accepts raw_text source_metadata db =
  Reply (NativeDB.Success (length nodes) (length edges))
        (NativeDB.mk (NativeDB.ingestion db) v g).
Proof.
  intros Hblank Hex Hv Hrun. unfold NativeDB.ingest.
  rewrite decide_False by done. rewrite Hex, Hv.
  cbn [run call] in Hrun.
  destruct (GraphEngine.add_nodes _ _ _) as [g1|]; [|done].
  destruct (GraphEngine.add_edges _ _ _) as [g2|]; [|done].
  inversion Hrun; subst. do 2 f_equal.
  assert (length (NodeCreate.id <$> NativeDB.enrich source_metadata nodes)
          = length (NodeCreate.id <$> nodes)) as Hlen by by rewrite enrich_ids.
  by rewrite !length_fmap in Hlen.
Qed.

(** X19.  Through the facade the two copies of the graph stay closed:
    when the copies are consistent and every endpoint of a stored edge has
    a row in the [nodes] table, they are so again after an [ingest] that
    returns, and then the nodes of the in-memory graph are exactly the ids
    of the committed [nodes] table.  The extraction gives every edge the
    weight 1.0, a number that the [REAL] column keeps. *)
Theorem ingest_keeps_every_node_stored raw_text source_metadata db r db' :
  kept (num_one : F) →
  store_closed (NativeDB.graph_db db) →
  NativeDB.ingest fix_text embed_text takes accepts raw_text source_metadata db
    = Reply r db' →
  store_closed (NativeDB.graph_db db') ∧
  ∀ n, n ∈ dom (DiGraph._node (GraphEngine.graph (NativeDB.graph_db db'))) ↔
       n ∈ node_ids (Sqlite.committed (GraphEngine.conn (NativeDB.graph_db db'))).
Proof.
  intros Hone Hclosed Hrun.
  assert (store_closed (NativeDB.graph_db db')) as Hclosed';
    [|split; [done|]; intros n; by apply store_closed_nodes].
  apply ingest_Reply in Hrun
    as [(_ & -> & _)|(nodes & edges & v & g1 & g2 & _ & Hex & _ & Hg1 & Hg2 & _ & ->)];
    [done|].
  cbn [NativeDB.graph_db]. destruct Hclosed as [Hcons Hends].
  pose proof (extraction_invariant_holds fix_text (NativeDB.ingestion db) raw_text)
    as (_ & _ & Hall).
  rewrite Hex in Hall. cbn [fst snd] in Hall. rewrite Forall_forall in Hall.
  assert (consistent g1) as Hcons1.
  { apply (call_consistent accepts (AddNodes (NativeDB.enrich source_metadata nodes))
             (NativeDB.graph_db db) g1); [|done..].
    intros es e [[=]|[]%elem_of_nil]%elem_of_cons. }
  assert (consistent g2) as Hcons2.
  { apply (call_consistent accepts (AddEdges edges) g1 g2); [|done..].
    intros es e [[= <-]|[]%elem_of_nil]%elem_of_cons He.
    destruct (Hall e He) as (_ & _ & _ & _ & ->). exact Hone. }
  split; [done|].
  apply add_nodes_tables in Hg1 as (Hedges1 & Hkeep1 & Hnew1).
  apply add_edges_tables in Hg2 as (Hnodes2 & Hends2).
  intros n Hn. unfold node_ids. rewrite Hnodes2.
  fold (node_ids (Sqlite.working (GraphEngine.conn g1))).
  apply Hends2 in Hn as [Hn|(e & He & Hn)].
  - apply Hkeep1, Hends. unfold endpoints in *. by rewrite <- Hedges1.
  - destruct (Hall e He) as (Hs & Ht & _).
    assert (n ∈ NodeCreate.id <$> NativeDB.enrich source_metadata nodes) as Hid.
    { rewrite enrich_ids. by destruct Hn as [->| ->]. }
    apply list_elem_of_fmap in Hid as (node & -> & Hnode). by apply Hnew1.
Qed.

(** Without anchors there is no candidate. *)
Lemma hybrid_search_without_table query (vw gw : F) top_k db :
  VectorEngine.table (NativeDB.vector_db db) = None →
  HybridEngine.hybrid_search (NativeDB.hybrid_engine embed_text nearest similarity db)
    query vw gw top_k = Returns [].
Proof.
  intros Hnone. unfold HybridEngine.hybrid_search, NativeDB.hybrid_engine.
  cbn [HybridEngine.vec HybridEngine.graph]. unfold VectorEngine.search.
  rewrite Hnone. cbn [fmap list_fmap HybridEngine.expand HybridEngine.vector_scores foldl].
  unfold HybridEngine.final_candidates.
  assert (set_iter (dom (∅ : gmap string F) ∪ dom (∅ : gmap string F)) = []) as ->.
  { apply Permutation_nil_r. rewrite set_iter_perm.
    by rewrite dom_empty_L, union_empty_l_L, elements_empty. }
  cbn [fmap list_fmap sorted_reverse foldr]. unfold slice_to.
  by destruct (0 <=? top_k); rewrite take_nil.
Qed.

(** X22.  As long as the vector table does not exist, [search] returns the
    empty list in every mode, and raises nothing, whatever the graph
    holds and whatever [top_k] is. *)
Theorem search_before_first_insert_is_empty query mode top_k db :
  VectorEngine.table (NativeDB.vector_db db) = None →
  NativeDB.search embed_text nearest similarity query mode top_k db =
    Returns (if decide (mode = "vector"%string)
             then NativeDB.VectorResults [] else NativeDB.FusedResults []).
Proof.
  intros Hnone. unfold NativeDB.search.
  destruct (decide (mode = "vector"%string)).
  - unfold VectorEngine.search. by rewrite Hnone.
  - destruct (decide (mode = "graph"%string));
      by rewrite hybrid_search_without_table.
Qed.

Lemma vector_add_nodes_Returned nodes (ve v : VectorEngine.t V) :
  VectorEngine.add_nodes embed_text takes nodes ve = Returned v →
  ∃ data, mapM (VectorEngine.to_row embed_text) nodes = Some data ∧
          vector_rows v = vector_rows ve ++ data.
Proof.
  unfold VectorEngine.add_nodes, vector_rows. destruct nodes as [|node rest].
  { intros [= <-]. exists []. by rewrite app_nil_r. }
  destruct (mapM _ _) as [data|]; [|done]. intros Hrun. exists data. split; [done|].
  destruct (takes _ _); [|done].
  destruct (VectorEngine.table ve); by inversion Hrun.
Qed.

(** X21.  Ingesting the same text a second time returns the same counts
    and appends the same rows to the vector table again: one row per
    extracted node, after the first and again after the second call. *)
Theorem reingest_duplicates_vector_rows raw_text source_metadata db n e db1 r db2 :
  NativeDB.ingest fix_text embed_text takes accepts raw_text source_metadata db
    = Reply (NativeDB.Success n e) db1 →
  NativeDB.ingest fix_text embed_text takes accepts raw_text source_metadata db1
    = Reply r db2 →
  r = NativeDB.Success n e ∧
  ∃ data, length data = n ∧
    VectorEngine.id <$> data =
      NodeCreate.id <$>
        (IngestionPipeline.extract_structured_data fix_text (NativeDB.ingestion db) raw_text).1 ∧
    vector_rows (NativeDB.vector_db db1) = vector_rows (NativeDB.vector_db db) ++ data ∧
    vector_rows (NativeDB.vector_db db2) = vector_rows (NativeDB.vector_db db) ++ data ++ data.
Proof.
  intros H1 H2.
  apply ingest_Reply in H1
    as [([=] & _)|(nodes & edges & v & g1 & g2 & Hblank & Hex & Hv & _ & _ & [= -> ->] & ->)].
  apply ingest_Reply in H2
    as [(_ & _ & ?)|(nodes' & edges' & v' & g1' & g2' & _ & Hex' & Hv' & _ & _ & -> & ->)];
    [done|].
  cbn [NativeDB.ingestion NativeDB.vector_db NativeDB.graph_db] in *.
  rewrite Hex in Hex'. injection Hex' as <- <-. split; [done|].
  apply vector_add_nodes_Returned in Hv as (data & Hdata & Hrows).
  apply vector_add_nodes_Returned in Hv' as (data' & Hdata' & Hrows').
  rewrite Hdata in Hdata'. injection Hdata' as <-.
  exists data. split; [|split; [|split]].
  - apply length_mapM in Hdata. rewrite <- Hdata.
    assert (length (NodeCreate.id <$> NativeDB.enrich source_metadata nodes)
            = length (NodeCreate.id <$> nodes)) as Hlen by by rewrite enrich_ids.
    by rewrite !length_fmap in Hlen.
  - rewrite Hex. cbn [fst]. rewrite <- (enrich_ids source_metadata nodes).
    apply mapM_Some_1 in Hdata. clear -Hdata.
    induction Hdata as [|node row ns rs Hrow _ IH]; [done|].
    rewrite !fmap_cons, IH. f_equal. unfold VectorEngine.to_row in Hrow.
    destruct (json_dumps _); [|done]. by inversion Hrow.
  - done.
  - by rewrite Hrows', Hrows, <- app_assoc.
Qed.

(** X23.  [POST /ingest] never answers with status 400, and never with the
    [ignored] result of the facade: for a text that is empty after
    [strip] the handler raises its [HTTPException(400)] inside its own
    [try], catches it as an [Exception] and answers with status 500,
    leaving both stores as they were. *)
Theorem ingest_endpoint_never_answers_400 (str : raised → string)
    (payload : API.IngestRequest) db :
  let answer := API.ingest_data fix_text embed_text takes accepts str payload db in
  (∀ detail, answer.1 ≠ HTTPError 400 detail) ∧
  answer.1 ≠ OK NativeDB.Ignored ∧
  (Text.strip (chars (API.text payload)) = [] →
   answer = (HTTPError 500 (str (HTTPException 400 "Text cannot be empty")), db)).
Proof.
  cbn zeta. unfold API.ingest_data.
  destruct (decide (Text.strip (chars (API.text payload)) = [])) as [Hblank|Hblank].
  { repeat split; done. }
  destruct (NativeDB.ingest _ _ _ _ _ _ _) as [r db'|e db'] eqn:Hrun; cbn [fst].
  - split; [done|]. split; [|done]. intros [= ->].
    apply ingest_Reply in Hrun as [(_ & _ & ?)|(? & ? & ? & ? & ? & _ & _ & _ & _ & _ & [=] & _)].
    done.
  - repeat split; done.
Qed.

Lemma enrich_storable source_metadata nodes :
  (∀ m, source_metadata = Some m → storable m) →
  Forall (λ node, storable (NodeCreate.metadata node)) nodes →
  Forall (λ node, storable (NodeCreate.metadata node)) (NativeDB.enrich source_metadata nodes).
Proof.
  intros Hm Hall. unfold NativeDB.enrich. destruct source_metadata as [m|]; [|done].
  destruct (decide (m = ∅)); [done|]. apply Forall_fmap.
  eapply Forall_impl; [exact Hall|]. intros node [Hser Hbind]. cbn [NodeCreate.metadata compose].
  destruct (Hm m eq_refl) as [Hser' Hbind']. split.
  - intros k v [Hk|[_ Hk]]%lookup_union_Some_raw; [by eapply Hser'|by eapply Hser].
  - unfold DiGraph.add_node_binds in *.
    apply bool_decide_eq_true in Hbind as [? ?], Hbind' as [? ?].
    apply bool_decide_eq_true. by rewrite !lookup_union_None.
Qed.

Lemma extracted_node_storable node : extracted_node node → storable (NodeCreate.metadata node).
Proof.
  intros (_ & label & -> & _). split.
  - intros k v [<- <-]%lookup_singleton_Some. done.
  - apply bool_decide_eq_true. by rewrite !lookup_singleton_ne.
Qed.

Lemma graph_add_nodes_returns nodes (g : GraphEngine.t F) :
  (∀ c s, accepts c s = true) →
  Forall (λ node, storable (NodeCreate.metadata node)) nodes →
  ∃ g', GraphEngine.add_nodes accepts nodes g = Returned g'.
Proof.
  intros Hacc Hall.
  assert (∃ g', GraphEngine.add_nodes_loop accepts nodes g = Returned g') as [mid Hloop].
  { revert g. induction Hall as [|node rest [Hser Hbind] _ IH]; intros g; [by eexists|].
    cbn [GraphEngine.add_nodes_loop]. rewrite Hbind. cbn [negb].
    unfold json_dumps. rewrite bool_decide_eq_true_2 by done.
    unfold Sqlite.execute. rewrite Hacc. apply IH. }
  unfold GraphEngine.add_nodes. destruct nodes; [by eexists|]. rewrite Hloop.
  unfold GraphEngine.commit, Sqlite.execute. rewrite Hacc. by eexists.
Qed.

Lemma graph_add_edges_returns edges (g : GraphEngine.t F) :
  (∀ c s, accepts c s = true) →
  ∃ g', GraphEngine.add_edges accepts edges g = Returned g'.
Proof.
  intros Hacc.
  assert (∃ g', GraphEngine.add_edges_loop accepts edges g = Returned g') as [mid Hloop].
  { revert g. induction edges as [|edge rest IH]; intros g; [by eexists|].
    cbn [GraphEngine.add_edges_loop]. unfold Sqlite.execute. rewrite Hacc. apply IH. }
  unfold GraphEngine.add_edges. destruct edges; [by eexists|]. rewrite Hloop.
  unfold GraphEngine.commit, Sqlite.execute. rewrite Hacc. by eexists.
Qed.

(** The rows that [VectorEngine.add_nodes] builds of storable nodes. *)
Lemma to_row_storable nodes :
  Forall (λ node, storable (NodeCreate.metadata node)) nodes →
  ∃ data, mapM (VectorEngine.to_row embed_text) nodes = Some data.
Proof.
  intros Hall. apply mapM_is_Some_2.
  eapply Forall_impl; [exact Hall|]. intros n [Hser _]. unfold compose, VectorEngine.to_row.
  unfold json_dumps. by rewrite bool_decide_eq_true_2.
Qed.

(** X20.  [ingest] raises nothing of its own on what the extraction
    builds.  When the caller's [source_metadata], if any, can be encoded
    by [json.dumps] and has no key [self] or [node_for_adding], the rows
    for the vector table are built without an exception, and then:
    [ingest] returns whenever LanceDB takes these rows and SQLite carries
    out every statement; and when LanceDB refuses these rows, for a text
    that is not blank and has nodes, [ingest] raises the error of LanceDB
    with both stores as they were: the vector store is written first. *)
Theorem ingest_returns_when_storage_accepts raw_text source_metadata db :
  let nodes :=
    NativeDB.enrich source_metadata
      (IngestionPipeline.extract_structured_data fix_text (NativeDB.ingestion db)
         raw_text).1 in
  (∀ m, source_metadata = Some m → storable m) →
  ∃ data,
    mapM (VectorEngine.to_row embed_text) nodes = Some data ∧
    (takes (VectorEngine.table (NativeDB.vector_db db)) data = true →
     (∀ c s, accepts c s = true) →
     ∃ r db', NativeDB.ingest fix_text embed_text takes accepts raw_text source_metadata db
              = Reply r db') ∧
    (takes (VectorEngine.table (NativeDB.vector_db db)) data = false →
     Text.strip (chars raw_text) ≠ [] →
     nodes ≠ [] →
     NativeDB.ingest fix_text embed_text takes accepts raw_text source_metadata db
     = Failed lancedb_Error db).
Proof.
  intros nodes0 Hm. unfold nodes0. clear nodes0.
  pose proof (extraction_invariant_holds fix_text (NativeDB.ingestion db) raw_text)
    as (_ & Hnodes & _).
  assert (Forall (λ node, storable (NodeCreate.metadata node))
            (NativeDB.enrich source_metadata
               (IngestionPipeline.extract_structured_data fix_text
                  (NativeDB.ingestion db) raw_text).1)) as Hall.
  { apply enrich_storable; [done|]. eapply Forall_impl; [exact Hnodes|].
    apply extracted_node_storable. }
  destruct (to_row_storable _ Hall) as [data Hdata].
  exists data. split; [done|].
  unfold NativeDB.ingest. split.
  - intros Htakes Hacc. destruct (decide _); [by eexists _, _|].
    destruct (IngestionPipeline.extract_structured_data _ _ _) as [nodes edges].
    cbn [fst] in Hall, Hdata.
    assert (∃ v, VectorEngine.add_nodes embed_text takes
                   (NativeDB.enrich source_metadata nodes) (NativeDB.vector_db db)
                 = Returned v) as [v ->].
    { unfold VectorEngine.add_nodes. destruct (NativeDB.enrich _ _); [by eexists|].
      rewrite Hdata, Htakes. destruct (VectorEngine.table _); by eexists. }
    destruct (graph_add_nodes_returns _ (NativeDB.graph_db db) Hacc Hall) as [g1 ->].
    destruct (graph_add_edges_returns edges g1 Hacc) as [g2 ->].
    by eexists _, _.
  - intros Htakes Hblank Hne. rewrite decide_False by done.
    destruct (IngestionPipeline.extract_structured_data _ _ _) as [nodes edges].
    cbn [fst] in Hall, Hdata, Hne.
    unfold VectorEngine.add_nodes.
    destruct (NativeDB.enrich source_metadata nodes) as [|node rest] eqn:Hen; [done|].
    rewrite Hdata, Htakes. by destruct db.
Qed.

(** X24.  [POST /search] answers with status 200 exactly when the vector
    search returns.  Before the first insert it answers with no result.
    Once the vector table exists: for [top_k <= 0] it answers with status
    500, on the [ValueError] of LanceDB; for a positive [top_k] it answers
    with status 500 when the query of LanceDB raises; otherwise it answers
    with status 200, the count is the number of results, the mode is the
    one asked for, and there are at most [top_k] results in the modes
    other than ["vector"], and one result per row found in the mode
    ["vector"]. *)
Theorem search_endpoint_answers_with_at_most_top_k (str : raised → string)
    (payload : API.SearchRequest) db :
  let answer := API.search_data embed_text nearest similarity str payload db in
  let vector := bool_decide (API.mode payload = "vector"%string) in
  let limit := if vector then API.top_k payload else API.top_k payload * 2 in
  match VectorEngine.table (NativeDB.vector_db db) with
  | None =>
      answer =
      OK (API.mk_SearchResponse 0
            (if vector then NativeDB.VectorResults [] else NativeDB.FusedResults [])
            (API.mode payload))
  | Some rows =>
      if decide (API.top_k payload ≤ 0)
      then answer = HTTPError 500 (str (OtherException ValueError))
      else
        match nearest rows (embed_text (API.query payload)) limit with
        | None => answer = HTTPError 500 (str (OtherException lancedb_Error))
        | Some found =>
            ∃ body,
              answer = OK body ∧
              API.count body = API.results_length (API.results body) ∧
              API.response_mode body = API.mode payload ∧
              (if vector then API.count body = length found
               else Z.of_nat (API.count body) ≤ API.top_k payload)
        end
  end.
Proof.
  cbn zeta. unfold API.search_data.
  destruct (VectorEngine.table (NativeDB.vector_db db)) as [rows|] eqn:Htable; cycle 1.
  { unfold NativeDB.search.
    destruct (decide (API.mode payload = "vector"%string)) as [Hv|Hv].
    - rewrite (bool_decide_eq_true_2 _ Hv). unfold VectorEngine.search. by rewrite Htable.
    - rewrite (bool_decide_eq_false_2 _ Hv).
      destruct (decide (API.mode payload = "graph"%string));
        by rewrite hybrid_search_without_table. }
  unfold NativeDB.search.
  assert (∀ limit, VectorEngine.search embed_text nearest similarity (API.query payload)
                     limit (NativeDB.vector_db db) =
                   if limit <=? 0 then Raises ValueError
                   else match nearest rows (embed_text (API.query payload)) limit with
                        | None => Raises lancedb_Error
                        | Some results =>
                            Returns
                              ((λ '(row, _distance),
                                  VectorEngine.Result (VectorEngine.id row)
                                    (VectorEngine.text row) (similarity _distance)
                                    (GraphEngine.decode_metadata (VectorEngine.metadata row)))
                               <$> results)
                        end) as Hsearch.
  { intros limit. unfold VectorEngine.search. by rewrite Htable. }
  assert (∀ vw gw,
            match VectorEngine.search embed_text nearest similarity (API.query payload)
                    (API.top_k payload * 2) (NativeDB.vector_db db) with
            | Raises e =>
                HybridEngine.hybrid_search
                  (NativeDB.hybrid_engine embed_text nearest similarity db)
                  (API.query payload) vw gw (API.top_k payload) = Raises e
            | Returns _ =>
                ∃ l, HybridEngine.hybrid_search
                       (NativeDB.hybrid_engine embed_text nearest similarity db)
                       (API.query payload) vw gw (API.top_k payload) = Returns l ∧
                     (0 ≤ API.top_k payload → Z.of_nat (length l) ≤ API.top_k payload)
            end) as Hfused.
  { intros vw gw. unfold HybridEngine.hybrid_search.
    cbn [NativeDB.hybrid_engine HybridEngine.vec].
    destruct (VectorEngine.search _ _ _ _ _ _) as [results|e]; [|done].
    match goal with
    | |- context [HybridEngine.expand ?s ?h ∅] => destruct (expand_total s h ∅) as [gb ->]
    end.
    eexists. split; [done|]. apply slice_to_length. }
  assert ((API.top_k payload * 2 <=? 0) = (API.top_k payload <=? 0)) as Hdouble.
  { destruct (Z.leb_spec (API.top_k payload) 0), (Z.leb_spec (API.top_k payload * 2) 0);
      try done; lia. }
  destruct (decide (API.mode payload = "vector"%string)) as [Hv|Hv].
  - rewrite (bool_decide_eq_true_2 _ Hv), Hsearch.
    destruct (decide (API.top_k payload ≤ 0)) as [Hk|Hk].
    + by rewrite (proj2 (Z.leb_le _ _) Hk).
    + rewrite (proj2 (Z.leb_gt _ _)) by lia.
      destruct (nearest _ _ _) as [found|]; [|done].
      eexists. split; [done|]. cbn. split; [done|]. split; [done|].
      by rewrite length_fmap.
  - rewrite (bool_decide_eq_false_2 _ Hv).
    assert (∀ vw gw,
              if decide (API.top_k payload ≤ 0)
              then HybridEngine.hybrid_search
                     (NativeDB.hybrid_engine embed_text nearest similarity db)
                     (API.query payload) vw gw (API.top_k payload) = Raises ValueError
              else match nearest rows (embed_text (API.query payload))
                           (API.top_k payload * 2) with
                   | None =>
                       HybridEngine.hybrid_search
                         (NativeDB.hybrid_engine embed_text nearest similarity db)
                         (API.query payload) vw gw (API.top_k payload)
                       = Raises lancedb_Error
                   | Some _ =>
                       ∃ l, HybridEngine.hybrid_search
                              (NativeDB.hybrid_engine embed_text nearest similarity db)
                              (API.query payload) vw gw (API.top_k payload) = Returns l ∧
                            Z.of_nat (length l) ≤ API.top_k payload
                   end) as Hcases.
    { intros vw gw. specialize (Hfused vw gw). rewrite Hsearch, Hdouble in Hfused.
      destruct (decide (API.top_k payload ≤ 0)) as [Hk|Hk].
      - by rewrite (proj2 (Z.leb_le _ _) Hk) in Hfused.
      - rewrite (proj2 (Z.leb_gt _ _)) in Hfused by lia.
        destruct (nearest _ _ _) as [found|]; [|done].
        destruct Hfused as (l & Hl & Hlen). exists l. split; [done|]. apply Hlen. lia. }
    destruct (decide (API.mode payload = "graph"%string)).
    + specialize (Hcases num_zero num_one).
      destruct (decide (API.top_k payload ≤ 0)); [by rewrite Hcases|].
      destruct (nearest _ _ _) as [found|]; [|by rewrite Hcases].
      destruct Hcases as (l & -> & Hlen). eexists. split; [done|]. by cbn.
    + specialize (Hcases num_half num_half).
      destruct (decide (API.top_k payload ≤ 0)); [by rewrite Hcases|].
      destruct (nearest _ _ _) as [found|]; [|by rewrite Hcases].
      destruct Hcases as (l & -> & Hlen). eexists. split; [done|]. by cbn.
Qed.
End Facade.

(** * The properties on the scenarios *)

Lemma export_files_edges_under_links_witness :
  edge_list_key "edges" ∧
  get_subgraph_json "edges" engine_A_B = get_subgraph_json "links" engine_A_B ∧
  dom (get_subgraph_json "edges" engine_A_B) =
    {[ "directed"; "multigraph"; "graph"; "nodes"; "links" ]}%string ∧
  get_subgraph_json "edges" engine_A_B !! "edges"%string = None.
Proof.
  assert (edge_list_key "edges") as Hkey by (by right).
  split; [exact Hkey|].
  apply (export_files_edges_under_links "edges" engine_A_B Hkey).
Defined.

Lemma export_lists_the_graph_in_memory_witness :
  edge_list_key "links" ∧
  length (exported (get_subgraph_json "links" engine_A_B) "nodes") = 2%nat ∧
  length (exported (get_subgraph_json "links" engine_A_B) "links") = 1%nat ∧
  let data := get_subgraph_json "links" engine_A_B in
  let g := GraphEngine.graph engine_A_B in
  (∀ n attr, DiGraph._node g !! n = Some attr →
     ∃ el, el ∈ exported data "nodes" ∧ describes_node el n attr) ∧
  (∀ el, el ∈ exported data "nodes" →
     ∃ n attr, DiGraph._node g !! n = Some attr ∧ describes_node el n attr) ∧
  length (exported data "nodes") = size (DiGraph._node g) ∧
  (∀ u v d, DiGraph.edge_data g u v = Some d →
     ∃ el, el ∈ exported data "links" ∧ describes_edge el u v d) ∧
  (∀ el, el ∈ exported data "links" →
     ∃ u v d, DiGraph.edge_data g u v = Some d ∧ describes_edge el u v d).
Proof.
  assert (edge_list_key "links") as Hkey by (by left).
  split; [exact Hkey|].
  split; [vm_compute; reflexivity|]. split; [vm_compute; reflexivity|].
  apply (export_lists_the_graph_in_memory "links" engine_A_B Hkey).
Defined.

Lemma hybrid_score_formula_witness :
  HybridEngine.vec engine_worked_example "q" (2 * 2) = Returns hits_worked_example ∧
  HybridEngine.hybrid_search engine_worked_example "q" (1 # 2)%Q (1 # 2)%Q 2
    = Returns result_worked_example ∧
  worked_example_B ∈ result_worked_example ∧
  Candidate.id worked_example_B = "B"%string ∧
  (Candidate.score worked_example_B ==
     default 0 (last_hit_score hits_worked_example (Candidate.id worked_example_B))
       * (1 # 2) +
     Qmin (boost_sum (HybridEngine.graph engine_worked_example) hits_worked_example
             (Candidate.id worked_example_B)) 1 * (1 # 2))%Q.
Proof.
  assert (HybridEngine.vec engine_worked_example "q" (2 * 2) = Returns hits_worked_example)
    as Hvec by reflexivity.
  assert (HybridEngine.hybrid_search engine_worked_example "q" (1 # 2)%Q (1 # 2)%Q 2
          = Returns result_worked_example) as Hrun by (vm_compute; reflexivity).
  assert (worked_example_B ∈ result_worked_example) as Hin
    by (apply elem_of_cons; right; apply elem_of_cons; by left).
  split; [exact Hvec|]. split; [exact Hrun|]. split; [exact Hin|]. split; [reflexivity|].
  apply (hybrid_score_formula engine_worked_example "q" (1 # 2)%Q (1 # 2)%Q 2
           hits_worked_example result_worked_example worked_example_B Hvec Hrun Hin).
Defined.

Lemma hybrid_scores_are_bounded_witness :
  HybridEngine.vec engine_worked_example "q" (2 * 2) = Returns hits_worked_example ∧
  (∀ h, h ∈ hits_worked_example → (0 <= Hit.score h)%Q ∧ (Hit.score h <= 1)%Q) ∧
  (0 <= 1 # 2)%Q ∧
  HybridEngine.hybrid_search engine_worked_example "q" (1 # 2)%Q (1 # 2)%Q 2
    = Returns result_worked_example ∧
  worked_example_B ∈ result_worked_example ∧
  (0 <= Candidate.score worked_example_B)%Q ∧
  (Candidate.score worked_example_B <= (1 # 2) + (1 # 2))%Q.
Proof.
  assert (HybridEngine.vec engine_worked_example "q" (2 * 2) = Returns hits_worked_example)
    as Hvec by reflexivity.
  assert (∀ h, h ∈ hits_worked_example →
               (0 <= Hit.score h)%Q ∧ (Hit.score h <= 1)%Q) as Hsim.
  { intros h [->|[->|[]%elem_of_nil]%elem_of_cons]%elem_of_cons;
      split; vm_compute; discriminate. }
  assert (0 <= 1 # 2)%Q as Hw by (vm_compute; discriminate).
  assert (HybridEngine.hybrid_search engine_worked_example "q" (1 # 2)%Q (1 # 2)%Q 2
          = Returns result_worked_example) as Hrun by (vm_compute; reflexivity).
  assert (worked_example_B ∈ result_worked_example) as Hin
    by (apply elem_of_cons; right; apply elem_of_cons; by left).
  split; [exact Hvec|]. split; [exact Hsim|]. split; [exact Hw|]. split; [exact Hrun|].
  split; [exact Hin|].
  apply (hybrid_scores_are_bounded engine_worked_example "q" (1 # 2)%Q (1 # 2)%Q 2
           hits_worked_example result_worked_example worked_example_B
           Hvec Hsim Hw Hw Hrun Hin).
Defined.

Lemma preprocess_removes_brackets_on_one_line_witness :
  ("010"%char ∉ chars (formatted (λ text, text) pipeline_Ada text_Ada)) ∧
  IngestionPipeline.preprocess (λ text, text) pipeline_Ada text_Ada
    = "Ada wrote Lisp in 1958."%string ∧
  ¬ has_pair "[" "]"
      (chars (IngestionPipeline.preprocess (λ text, text) pipeline_Ada text_Ada)).
Proof.
  assert ("010"%char ∉ chars (formatted (λ text, text) pipeline_Ada text_Ada)) as Hline
    by compute_done.
  split; [exact Hline|]. split; [vm_compute; reflexivity|].
  apply (preprocess_removes_brackets_on_one_line (λ text, text) pipeline_Ada text_Ada
           Hline).
Defined.

Lemma extraction_keeps_edges_among_nodes_witness :
  IngestionPipeline.extract_structured_data (λ text, text) pipeline_Ada text_Ada
    = (nodes_Ada, edges_Ada) ∧
  NodeCreate.id <$> nodes_Ada = ["Ada"; "Lisp"; "1958"]%string ∧
  NoDup (NodeCreate.id <$> nodes_Ada) ∧
  (∀ node, node ∈ nodes_Ada →
     (2 ≤ len (NodeCreate.id node))%nat ∧
     ∃ label, NodeCreate.metadata node = {[ "label"%string := VStr label ]} ∧
              label ∉ IngestionPipeline.excluded_labels) ∧
  (∀ edge, edge ∈ edges_Ada →
     EdgeCreate.source edge ∈ NodeCreate.id <$> nodes_Ada ∧
     EdgeCreate.target edge ∈ NodeCreate.id <$> nodes_Ada ∧
     (on_chars Text.lower (EdgeCreate.source edge) ∉ IngestionPipeline.stop_concepts) ∧
     (on_chars Text.lower (EdgeCreate.target edge) ∉ IngestionPipeline.stop_concepts) ∧
     EdgeCreate.weight edge = num_one).
Proof.
  assert (IngestionPipeline.extract_structured_data (λ text, text) pipeline_Ada text_Ada
          = (nodes_Ada, edges_Ada)) as Hrun by (vm_compute; reflexivity).
  split; [exact Hrun|]. split; [reflexivity|].
  apply (extraction_keeps_edges_among_nodes (λ text, text) pipeline_Ada text_Ada
           nodes_Ada edges_Ada Hrun).
Defined.

Lemma store_closed_empty {W} : store_closed (@GraphEngine.empty W).
Proof.
  split; [split; [apply mirrored_empty|done]|].
  intros n Hn. by apply elem_of_nil in Hn.
Qed.

Lemma ingest_keeps_every_node_stored_witness :
  kept (num_one : Q) ∧
  store_closed (NativeDB.graph_db facade_empty) ∧
  NativeDB.ingest (λ text, text) (λ _, tt) (λ _ _, true) Sqlite.reliable text_Ada None facade_empty
    = Reply (NativeDB.Success 3 2) facade_once ∧
  store_closed (NativeDB.graph_db facade_once) ∧
  ∀ n, n ∈ dom (DiGraph._node (GraphEngine.graph (NativeDB.graph_db facade_once))) ↔
       n ∈ node_ids (Sqlite.committed (GraphEngine.conn (NativeDB.graph_db facade_once))).
Proof.
  assert (store_closed (NativeDB.graph_db facade_empty)) as Hclosed
    by apply store_closed_empty.
  assert (NativeDB.ingest (λ text, text) (λ _, tt) (λ _ _, true) Sqlite.reliable text_Ada None
            facade_empty = Reply (NativeDB.Success 3 2) facade_once) as Hrun.
  { apply (ingest_success (λ text, text) (λ _, tt) (λ _ _, true) Sqlite.reliable text_Ada None
             facade_empty nodes_Ada edges_Ada vectors_once graph_once);
      [vm_compute; discriminate|vm_compute; reflexivity..]. }
  split; [reflexivity|]. split; [exact Hclosed|]. split; [exact Hrun|].
  apply (ingest_keeps_every_node_stored (λ text, text) (λ _, tt) (λ _ _, true)
           Sqlite.reliable text_Ada None facade_empty (NativeDB.Success 3 2) facade_once
           eq_refl Hclosed Hrun).
Defined.

(** The text of the example, ingested with the source metadata of the
    usage example of [core.py]: the call returns when LanceDB takes the
    rows, and raises with the stores untouched when LanceDB refuses
    them. *)
Lemma ingest_returns_when_storage_accepts_witness :
  (∀ m, Some source_history_book = Some m → storable m) ∧
  (∃ r db', NativeDB.ingest (λ text, text) (λ _, tt) (λ _ _, true) Sqlite.reliable
              text_Ada (Some source_history_book) facade_empty = Reply r db') ∧
  NativeDB.ingest (λ text, text) (λ _, tt) (λ _ _, false) Sqlite.reliable
    text_Ada (Some source_history_book) facade_empty
  = Failed lancedb_Error facade_empty.
Proof.
  assert (∀ m, Some source_history_book = Some m → storable m) as Hmeta.
  { intros m [= <-]. unfold source_history_book. split; [|vm_compute; reflexivity].
    intros k v [<- <-]%lookup_singleton_Some. reflexivity. }
  split; [exact Hmeta|]. split.
  - destruct (ingest_returns_when_storage_accepts (λ text, text) (λ _, tt) (λ _ _, true)
                Sqlite.reliable text_Ada (Some source_history_book) facade_empty Hmeta)
      as (data & _ & Hreturns & _).
    apply Hreturns; reflexivity.
  - destruct (ingest_returns_when_storage_accepts (λ text, text) (λ _, tt) (λ _ _, false)
                Sqlite.reliable text_Ada (Some source_history_book) facade_empty Hmeta)
      as (data & _ & _ & Hraises).
    apply Hraises; [reflexivity|vm_compute; discriminate|vm_compute; discriminate].
Defined.

Lemma reingest_duplicates_vector_rows_witness :
  NativeDB.ingest (λ text, text) (λ _, tt) (λ _ _, true) Sqlite.reliable text_Ada None facade_empty
    = Reply (NativeDB.Success 3 2) facade_once ∧
  NativeDB.ingest (λ text, text) (λ _, tt) (λ _ _, true) Sqlite.reliable text_Ada None facade_once
    = Reply (NativeDB.Success 3 2) facade_twice ∧
  VectorEngine.id <$> vector_rows (NativeDB.vector_db facade_twice)
    = ["Ada"; "Lisp"; "1958"; "Ada"; "Lisp"; "1958"]%string ∧
  node_ids (Sqlite.committed (GraphEngine.conn (NativeDB.graph_db facade_twice)))
    = ["Ada"; "Lisp"; "1958"]%string ∧
  NativeDB.Success 3 2 = NativeDB.Success 3 2 ∧
  ∃ data : list (VectorEngine.row unit),
    length data = 3%nat ∧
    VectorEngine.id <$> data =
      NodeCreate.id <$>
        (IngestionPipeline.extract_structured_data (F := Q) (λ text, text)
           (NativeDB.ingestion facade_empty) text_Ada).1 ∧
    vector_rows (NativeDB.vector_db facade_once)
      = vector_rows (NativeDB.vector_db facade_empty) ++ data ∧
    vector_rows (NativeDB.vector_db facade_twice)
      = vector_rows (NativeDB.vector_db facade_empty) ++ data ++ data.
Proof.
  assert (NativeDB.ingest (λ text, text) (λ _, tt) (λ _ _, true) Sqlite.reliable text_Ada None
            facade_empty = Reply (NativeDB.Success 3 2) facade_once) as Hfirst.
  { apply (ingest_success (λ text, text) (λ _, tt) (λ _ _, true) Sqlite.reliable text_Ada None
             facade_empty nodes_Ada edges_Ada vectors_once graph_once);
      [vm_compute; discriminate|vm_compute; reflexivity..]. }
  assert (NativeDB.ingest (λ text, text) (λ _, tt) (λ _ _, true) Sqlite.reliable text_Ada None
            facade_once = Reply (NativeDB.Success 3 2) facade_twice) as Hsecond.
  { apply (ingest_success (λ text, text) (λ _, tt) (λ _ _, true) Sqlite.reliable text_Ada None
             facade_once nodes_Ada edges_Ada vectors_twice graph_twice);
      [vm_compute; discriminate|vm_compute; reflexivity..]. }
  split; [exact Hfirst|]. split; [exact Hsecond|].
  split; [vm_compute; reflexivity|]. split; [vm_compute; reflexivity|].
  apply (reingest_duplicates_vector_rows (λ text, text) (λ _, tt) (λ _ _, true) Sqlite.reliable
           text_Ada None facade_empty 3 2 facade_once (NativeDB.Success 3 2) facade_twice
           Hfirst Hsecond).
Defined.

Lemma search_before_first_insert_is_empty_witness :
  VectorEngine.table (NativeDB.vector_db facade_restarted) = None ∧
  NativeDB.search (λ _, tt) (λ _ _ _, Some []) (λ d, d) "Ada" "graph" 5 facade_restarted =
  Returns (if decide ("graph"%string = "vector"%string)
           then NativeDB.VectorResults [] else NativeDB.FusedResults []).
Proof.
  assert (VectorEngine.table (NativeDB.vector_db facade_restarted) = None) as Hnone
    by reflexivity.
  split; [exact Hnone|].
  apply (search_before_first_insert_is_empty (λ _, tt) (λ _ _ _, Some []) (λ d, d)
           "Ada" "graph" 5 facade_restarted Hnone).
Defined.
